(** * tags-lsp: the process runtime of [src/main.c]

    A shallow embedding of the start-up, option parsing and staged tear-down
    code of the language server, together with a model of the framed-message
    decoder it feeds, and the properties the design document states about
    them. *)

From Stdlib Require Import ZArith List String Ascii Bool Lia.
From Stdlib.Strings Require Import Byte.
From Stdlib Require Decimal DecimalString DecimalNat Permutation.
Import ListNotations.

Local Open Scope string_scope.
Local Open Scope list_scope.
Local Open Scope Z_scope.

(** ** C strings and the libc functions used by [main.c]

    A C string is modelled by the [string] of the bytes that precede its
    terminating NUL.  A [string] that itself holds a NUL byte stands for no
    C string; [no_nul] says a string is free of them. *)

Module CStr.

Definition uchar (c : ascii) : Z := Z.of_N (N_of_ascii c).

Fixpoint no_nul (s : string) : bool :=
  match s with
  | EmptyString => true
  | String c r => negb (uchar c =? 0) && no_nul r
  end.

(** [strlen]: the number of bytes before the first NUL. *)
Fixpoint strlen (s : string) : nat :=
  match s with
  | EmptyString => O
  | String c r => if uchar c =? 0 then O else S (strlen r)
  end.

(** [strcmp]: the difference of the first two bytes that differ, read as
    [unsigned char]; the end of a string reads as the byte 0. *)
Fixpoint strcmp (s1 s2 : string) : Z :=
  match s1, s2 with
  | EmptyString, EmptyString => 0
  | EmptyString, String c2 _ => 0 - uchar c2
  | String c1 _, EmptyString => uchar c1
  | String c1 r1, String c2 r2 =>
      if uchar c1 =? uchar c2
      then (if uchar c1 =? 0 then 0 else strcmp r1 r2)
      else uchar c1 - uchar c2
  end.

(** [strncmp]: as [strcmp], over at most [n] bytes. *)
Fixpoint strncmp (s1 s2 : string) (n : nat) {struct n} : Z :=
  match n with
  | O => 0
  | S n' =>
      match s1, s2 with
      | EmptyString, EmptyString => 0
      | EmptyString, String c2 _ => 0 - uchar c2
      | String c1 _, EmptyString => uchar c1
      | String c1 r1, String c2 r2 =>
          if uchar c1 =? uchar c2
          then (if uchar c1 =? 0 then 0 else strncmp r1 r2 n')
          else uchar c1 - uchar c2
      end
  end.

(** [s + n] for a [char*]: the string that starts [n] bytes into [s]. *)
Fixpoint advance (s : string) (n : nat) {struct n} : string :=
  match n with
  | O => s
  | S n' => match s with
            | EmptyString => EmptyString
            | String _ r => advance r n'
            end
  end.

(** *** [sscanf(str, "%d", &ret)]

    The directive skips white space, reads an optional sign and then the
    longest run of decimal digits.  The call returns 1 when a number was
    read, 0 when what follows the white space and the sign is no digit, and
    [EOF] when the input ends before a sign or a digit.

    The number goes into an [int].  C leaves the result undefined when the
    digits spell a number outside [int]; the model does what the C library
    of the system this file is built for does (glibc, where [long] has 64
    bits - the system [PRId64] below is taken from): the digits are
    converted as by [strtol], which stops at [LONG_MIN] and [LONG_MAX], and
    the [long] is stored into the [int], which keeps its low 32 bits. *)

Definition EOF : Z := -1.

Definition INT_MIN : Z := -2147483648.
Definition INT_MAX : Z := 2147483647.
Definition LONG_MIN : Z := -9223372036854775808.
Definition LONG_MAX : Z := 9223372036854775807.

(** [strtol]: the number, or the bound it went beyond. *)
Definition strtol_value (v : Z) : Z := Z.max LONG_MIN (Z.min LONG_MAX v).

(** A [long] stored into an [int]: its low 32 bits, in two's complement. *)
Definition int_of_long (v : Z) : Z :=
  (v - INT_MIN) mod 4294967296 + INT_MIN.

Definition isspace (c : ascii) : bool :=
  (uchar c =? 32) || ((9 <=? uchar c) && (uchar c <=? 13)).

Definition isdigit (c : ascii) : bool :=
  (48 <=? uchar c) && (uchar c <=? 57).

Fixpoint skip_space (s : string) : string :=
  match s with
  | EmptyString => EmptyString
  | String c r => if isspace c then skip_space r else s
  end.

Fixpoint scan_digits (s : string) (acc : Z) : Z :=
  match s with
  | EmptyString => acc
  | String c r => if isdigit c then scan_digits r (10 * acc + (uchar c - 48))
                  else acc
  end.

(** What follows the white space and the sign, if any. *)
Definition scan_unsigned (s : string) (ret : Z) (sign : Z) : Z * Z :=
  match s with
  | EmptyString => (0, ret)
  | String c _ =>
      if isdigit c
      then (1, int_of_long (strtol_value (sign * scan_digits s 0)))
      else (0, ret)
  end.

(** The pair is (return value, content of [ret] after the call). *)
Definition sscanf_d (str : string) (ret : Z) : Z * Z :=
  match skip_space str with
  | EmptyString => (EOF, ret)
  | String c r =>
      if uchar c =? 45 then scan_unsigned r ret (-1)
      else if uchar c =? 43 then scan_unsigned r ret 1
      else scan_unsigned (String c r) ret 1
  end.

End CStr.

Export CStr.

(** ** The interface to the rest of the program

    [main.c] drives libuv and the server's other modules through calls whose
    code lives elsewhere.  Each such call is a constructor of [call]; what the
    callee does and returns is the business of an [Externals] instance. *)

Definition ptr := Z.
Definition NULL : ptr := 0.

Definition EXIT_SUCCESS : Z := 0.
Definition EXIT_FAILURE : Z := 1.
Definition SIGINT : Z := 2.
Definition SIGPIPE : Z := 13.

Inductive uv_run_mode := UV_RUN_DEFAULT | UV_RUN_ONCE.

(** The functions of [main.c] that are handed out as function pointers. *)
Inductive fn :=
| fn_at_exit | fn_handle_request | fn_on_io_in | fn_on_signal
| fn_on_exit_notify.

(** The objects [main.c] allocates with [lsp_malloc(sizeof(...))]. *)
Inductive c_type := uv_loop_t | uv_signal_t | uv_async_t.

(** [tag_lsp_io_cfg_t] is declared in [utils/io.h]; [main.c] writes its
    fields [type], [cb], [data.file] and [data.port].  [data] is taken to be
    a union: it holds the member written last, and nothing at first. *)
Inductive tag_lsp_io_type_t :=
| TAG_LSP_IO_STDIO | TAG_LSP_IO_PIPE | TAG_LSP_IO_PORT.

Inductive io_data_t :=
| data_unset
| data_file (file : string)
| data_port (port : Z).

Record tag_lsp_io_cfg_t := mk_io_cfg {
  io_type : tag_lsp_io_type_t;
  io_data : io_data_t;
  io_cb : fn
}.

Inductive call :=
| c_uv_setup_args (argc : Z) (argv : list string)
| c_uv_disable_stdio_inheritance
| c_lsp_malloc (what : c_type)
| c_lsp_free (p : ptr)
| c_free (p : ptr)
| c_lsp_strdup (s : string)
| c_uv_loop_init (loop : ptr)
| c_uv_signal_init (loop handle : ptr)
| c_uv_signal_start (handle : ptr) (cb : fn) (signum : Z)
| c_uv_async_init (loop handle : ptr) (cb : fn)
| c_uv_run (loop : ptr) (mode : uv_run_mode)
| c_uv_stop (loop : ptr)
| c_uv_close (handle : ptr)
| c_uv_loop_close (loop : ptr)
| c_uv_library_shutdown
| c_uv_os_getpid
| c_uv_os_getppid
| c_signal_ignore (signum : Z)
| c_fprintf_stderr (text : string)
| c_lsp_direct_log (text : string)
| c_LSP_LOG (level : Z) (fmt : string) (args : list Z)
| c_lsp_log_init
| c_lsp_log_exit
| c_tag_lsp_io_init (cfg : tag_lsp_io_cfg_t)
| c_tag_lsp_io_exit
| c_lsp_msg_init
| c_tag_lsp_msg_exit
| c_lsp_msg_cancel_all_pending_request
| c_lsp_work_init
| c_lsp_work_exit
| c_lsp_work_queue_size
| c_lsp_method_cleanup
| c_lsp_parser_create (cb : fn)
| c_lsp_parser_execute (parser : ptr) (data : string) (size : Z)
| c_lsp_parser_destroy (parser : ptr)
| c_lsp_handle_msg (msg : ptr)
| c_lsp_exit
| c_tag_lsp_cleanup_workspace_folders
| c_tag_lsp_cleanup_client_capabilities.

(** An event of a run: an external call and the value it returned (0 for a
    call that returns nothing). *)
Definition event : Type := call * Z.

(** What [main.c] takes from outside: the state of everything it calls into
    and how each call changes it and answers, and the constants of headers
    that are not part of this file. *)
Class Externals := {
  world : Type;
  respond : call -> world -> world * Z;
  TAGS_LSP_PROG_NAME : string;
  LSP_MSG_INFO : Z;
  LSP_MSG_DEBUG : Z;
  (** C does not say in which order the arguments of a call are evaluated;
      the compiler chooses: [true] when the leftmost comes first. *)
  args_left_to_right : bool
}.

(** ** The global [g_tags]

    Only the fields [main.c] reads or writes are kept; the rest of [g_tags]
    belongs to the world.  The model takes it that no external call writes
    the fields kept here.  The callbacks libuv runs from inside [uv_run] are
    functions of this file ([_on_signal], [_on_exit_notify], [_on_io_in]);
    they only make external calls, so a run of [uv_run] is one answer of the
    world. *)

Record g_tags_t := mk_g_tags {
  loop : ptr;
  sigint : ptr;
  exit_notifier : ptr;
  parser : ptr;
  config_logdir : ptr;
  config_logfile : ptr;
  config_lsp_log_level : Z;
  flags_shutdown : Z
}.

Definition g_tags_zero : g_tags_t := mk_g_tags 0 0 0 0 0 0 0 0.

Definition set_loop (v : ptr) (g : g_tags_t) : g_tags_t :=
  mk_g_tags v (sigint g) (exit_notifier g) (parser g) (config_logdir g)
    (config_logfile g) (config_lsp_log_level g) (flags_shutdown g).
Definition set_sigint (v : ptr) (g : g_tags_t) : g_tags_t :=
  mk_g_tags (loop g) v (exit_notifier g) (parser g) (config_logdir g)
    (config_logfile g) (config_lsp_log_level g) (flags_shutdown g).
Definition set_exit_notifier (v : ptr) (g : g_tags_t) : g_tags_t :=
  mk_g_tags (loop g) (sigint g) v (parser g) (config_logdir g)
    (config_logfile g) (config_lsp_log_level g) (flags_shutdown g).
Definition set_parser (v : ptr) (g : g_tags_t) : g_tags_t :=
  mk_g_tags (loop g) (sigint g) (exit_notifier g) v (config_logdir g)
    (config_logfile g) (config_lsp_log_level g) (flags_shutdown g).
Definition set_config_logdir (v : ptr) (g : g_tags_t) : g_tags_t :=
  mk_g_tags (loop g) (sigint g) (exit_notifier g) (parser g) v
    (config_logfile g) (config_lsp_log_level g) (flags_shutdown g).
Definition set_config_logfile (v : ptr) (g : g_tags_t) : g_tags_t :=
  mk_g_tags (loop g) (sigint g) (exit_notifier g) (parser g) (config_logdir g)
    v (config_lsp_log_level g) (flags_shutdown g).
Definition set_config_lsp_log_level (v : Z) (g : g_tags_t) : g_tags_t :=
  mk_g_tags (loop g) (sigint g) (exit_notifier g) (parser g) (config_logdir g)
    (config_logfile g) v (flags_shutdown g).
Definition set_flags_shutdown (v : Z) (g : g_tags_t) : g_tags_t :=
  mk_g_tags (loop g) (sigint g) (exit_notifier g) (parser g) (config_logdir g)
    (config_logfile g) (config_lsp_log_level g) v.

(** ** Runs of the program

    A function of [main.c] is a state transformer that also yields the
    events it caused, in order, and how it ended: by returning, through
    [exit(status)], through [abort()], or not at all within the fuel given to
    its loop. *)

Inductive outcome (A : Type) :=
| Ret (a : A)
| Exit (status : Z)
| Abort
| Timeout.

Arguments Ret {A} a.
Arguments Exit {A} status.
Arguments Abort {A}.
Arguments Timeout {A}.

Section Runtime.

Context `{E : Externals}.

(** [atexit_fns] is the list libc keeps of the functions given to [atexit],
    the last registered first. *)
Record state := mk_state {
  g_tags : g_tags_t;
  env : world;
  atexit_fns : list fn
}.

Definition M (A : Type) : Type := state -> outcome A * state * list event.

Definition pure {A} (a : A) : M A := fun st => (Ret a, st, []).

Definition bind {A B} (m : M A) (k : A -> M B) : M B :=
  fun st =>
    match m st with
    | (Ret a, st1, t1) =>
        match k a st1 with (o, st2, t2) => (o, st2, t1 ++ t2) end
    | (Exit c, st1, t1) => (Exit c, st1, t1)
    | (Abort, st1, t1) => (Abort, st1, t1)
    | (Timeout, st1, t1) => (Timeout, st1, t1)
    end.

Definition exit {A} (status : Z) : M A := fun st => (Exit status, st, []).
Definition abort {A} : M A := fun st => (Abort, st, []).
Definition timeout {A} : M A := fun st => (Timeout, st, []).

(** An external call: the world answers and moves on. *)
Definition ext (c : call) : M Z :=
  fun st =>
    match respond c (env st) with
    | (w', r) => (Ret r, mk_state (g_tags st) w' (atexit_fns st), [(c, r)])
    end.

Definition read {A} (field : g_tags_t -> A) : M A :=
  fun st => (Ret (field (g_tags st)), st, []).

Definition write (upd : g_tags_t -> g_tags_t) : M unit :=
  fun st => (Ret tt, mk_state (upd (g_tags st)) (env st) (atexit_fns st), []).

Definition atexit (f : fn) : M unit :=
  fun st => (Ret tt, mk_state (g_tags st) (env st) (f :: atexit_fns st), []).

End Runtime.

Notation "x <- m ;; k" := (bind m (fun x => k))
  (at level 61, m at next level, right associativity).
Notation "m ;;; k" := (bind m (fun _ => k))
  (at level 61, right associativity).

Local Notation "a +++ b" := (String.append a b)
  (at level 60, right associativity).

(** ** [main.c] *)

Section Program.

Context `{E : Externals}.

Definition LF : string := String (ascii_of_nat 10) EmptyString.

(** [PRId64] of [inttypes.h], as it is where [int64_t] is [long]. *)
Definition PRId64 : string := "ld".

Definition s_help : string :=
  TAGS_LSP_PROG_NAME +++ " - Language server protocol wrapper for gtags." +++ LF +++
  "Usage: " +++ TAGS_LSP_PROG_NAME +++ " [OPTIONS]" +++ LF +++
  LF +++
  "OPTIONS:" +++ LF +++
  "  --stdio" +++ LF +++
  "    Uses stdio as the communication channel. If no option specific, use this" +++ LF +++
  "    as default option." +++ LF +++
  LF +++
  "  --pipe=[FILE]" +++ LF +++
  "    Use pipes (Windows) or socket files (Linux, Mac) as the communication" +++ LF +++
  "    channel." +++ LF +++
  LF +++
  "  --port=[NUMBER]" +++ LF +++
  "    Uses a socket as the communication channel." +++ LF +++
  LF +++
  "  --logdir=[PATH]" +++ LF +++
  "    The directory to store log. The logfile will be like tags-lsp.pid.log" +++ LF +++
  LF +++
  "  --logfile=[PATH]" +++ LF +++
  "    The log file path. If both `--logdir` and `--logfile` exist, `--logfile`" +++ LF +++
  "    win." +++ LF +++
  LF +++
  "  -h, --help" +++ LF +++
  "    Show this help and exit." +++ LF.

Definition s_welcome : string :=
  TAGS_LSP_PROG_NAME +++ " is a language server that provides IDE-like features to editors." +++ LF +++
  LF +++
  "Homepage: https://github.com/0xfdfd/tags-lsp" +++ LF +++
  LF +++
  TAGS_LSP_PROG_NAME +++ " accepts flags on the commandline. For more information, checkout" +++ LF +++
  "command line option `--help`." +++ LF.

Definition when (b : bool) (m : M unit) : M unit :=
  if b then m else pure tt.

Definition _cleanup_loop : M unit :=
  l <- read loop ;;
  if l =? NULL then pure tt else
  (* Ensure all handle closed. *)
  l <- read loop ;;
  r <- ext (c_uv_run l UV_RUN_DEFAULT) ;;
  if negb (r =? 0) then abort else
  (* Close loop. *)
  l <- read loop ;;
  r <- ext (c_uv_loop_close l) ;;
  if negb (r =? 0) then abort else
  l <- read loop ;;
  ext (c_lsp_free l) ;;;
  write (set_loop NULL).

Definition _at_exit_stage_1 : M unit :=
  ext c_tag_lsp_msg_exit ;;;
  ext c_tag_lsp_io_exit ;;;
  ext c_lsp_work_exit ;;;
  ext c_lsp_log_exit ;;;
  h <- read sigint ;;
  ext (c_uv_close h) ;;;
  h <- read exit_notifier ;;
  ext (c_uv_close h) ;;;
  pure tt.

Definition _at_exit_stage_2 : M unit :=
  p <- read parser ;;
  when (negb (p =? NULL))
    (p <- read parser ;; ext (c_lsp_parser_destroy p) ;;;
     write (set_parser NULL)) ;;;
  p <- read config_logdir ;;
  when (negb (p =? NULL))
    (p <- read config_logdir ;; ext (c_lsp_free p) ;;;
     write (set_config_logdir NULL)) ;;;
  p <- read config_logfile ;;
  when (negb (p =? NULL))
    (p <- read config_logfile ;; ext (c_lsp_free p) ;;;
     write (set_config_logfile NULL)) ;;;
  p <- read sigint ;;
  when (negb (p =? NULL))
    (p <- read sigint ;; ext (c_lsp_free p) ;;;
     write (set_sigint NULL)) ;;;
  p <- read exit_notifier ;;
  when (negb (p =? NULL))
    (p <- read exit_notifier ;; ext (c_lsp_free p) ;;;
     write (set_exit_notifier NULL)) ;;;
  ext c_tag_lsp_cleanup_workspace_folders ;;;
  ext c_tag_lsp_cleanup_client_capabilities ;;;
  pure tt.

(** The [while] loop; [fuel] bounds the number of times its condition is
    evaluated. *)
Fixpoint _wait_for_pending_task (fuel : nat) : M unit :=
  match fuel with
  | O => timeout
  | S fuel' =>
      queue_size <- ext c_lsp_work_queue_size ;;
      if negb (queue_size =? 0)
      then l <- read loop ;;
           ext (c_uv_run l UV_RUN_ONCE) ;;;
           _wait_for_pending_task fuel'
      else pure tt
  end.

Definition _at_exit (fuel : nat) : M unit :=
  (* Always set shutdown flag. *)
  write (set_flags_shutdown 1) ;;;
  ext (c_LSP_LOG LSP_MSG_DEBUG "cleanup..." []) ;;;
  ext c_lsp_msg_cancel_all_pending_request ;;;
  _wait_for_pending_task fuel ;;;
  ext c_lsp_method_cleanup ;;;
  _at_exit_stage_1 ;;;
  _cleanup_loop ;;;
  _at_exit_stage_2 ;;;
  ext c_uv_library_shutdown ;;;
  pure tt.



(** One turn of the [for] loop over [argv]: [a] is [argv[i]]; [io_cfg] and
    [ret] are the locals that live across turns. *)
Definition parse_option (a : string) (io_cfg : tag_lsp_io_cfg_t) (ret : Z)
  : M (tag_lsp_io_cfg_t * Z) :=
  if (strcmp a "-h" =? 0) || (strcmp a "--help" =? 0) then
    ext (c_fprintf_stderr s_help) ;;;
    exit EXIT_SUCCESS
  else if strcmp a "--stdio" =? 0 then
    pure (mk_io_cfg TAG_LSP_IO_STDIO (io_data io_cfg) (io_cb io_cfg), ret)
  else if strncmp a "--pipe=" (strlen "--pipe=") =? 0 then
    let opt := advance a (strlen "--pipe=") in
    pure (mk_io_cfg TAG_LSP_IO_PIPE (data_file opt) (io_cb io_cfg), ret)
  else if strncmp a "--port=" (strlen "--port=") =? 0 then
    let opt := advance a (strlen "--port=") in
    let (n, ret') := sscanf_d opt ret in
    if negb (n =? 1) then
      ext (c_fprintf_stderr
             ("invalid value for `--port`: " +++ opt +++ "." +++ LF)) ;;;
      exit EXIT_FAILURE
    else
      pure (mk_io_cfg TAG_LSP_IO_PORT (data_port ret') (io_cb io_cfg), ret')
  else if strncmp a "--logdir=" (strlen "--logdir=") =? 0 then
    let opt := advance a (strlen "--logdir=") in
    p <- read config_logdir ;;
    when (negb (p =? NULL))
      (p <- read config_logdir ;; ext (c_free p) ;;; pure tt) ;;;
    p <- ext (c_lsp_strdup opt) ;;
    write (set_config_logdir p) ;;;
    pure (io_cfg, ret)
  else if strncmp a "--logfile=" (strlen "--logfile=") =? 0 then
    let opt := advance a (strlen "--logfile=") in
    p <- read config_logfile ;;
    when (negb (p =? NULL))
      (p <- read config_logfile ;; ext (c_lsp_free p) ;;; pure tt) ;;;
    p <- ext (c_lsp_strdup opt) ;;
    write (set_config_logfile p) ;;;
    pure (io_cfg, ret)
  else
    pure (io_cfg, ret).

(** [argv] is the list of the strings before the terminating [NULL]. *)
Fixpoint parse_options (argv : list string) (io_cfg : tag_lsp_io_cfg_t)
    (ret : Z) : M (tag_lsp_io_cfg_t * Z) :=
  match argv with
  | [] => pure (io_cfg, ret)
  | a :: rest =>
      r <- parse_option a io_cfg ret ;;
      parse_options rest (fst r) (snd r)
  end.

(** The result is the content of [*io_cfg] on return. *)
Definition _parser_command_line_options (argv : list string)
  : M tag_lsp_io_cfg_t :=
  let ret := 0 in
  let io_cfg := mk_io_cfg TAG_LSP_IO_STDIO data_unset fn_on_io_in in
  r <- parse_options argv io_cfg ret ;;
  pure (fst r).


Definition _signal_sigint_init : M unit :=
  p <- ext (c_lsp_malloc uv_signal_t) ;;
  write (set_sigint p) ;;;
  l <- read loop ;;
  h <- read sigint ;;
  r <- ext (c_uv_signal_init l h) ;;
  if negb (r =? 0) then
    ext (c_fprintf_stderr ("initialize sigint failed." +++ LF)) ;;;
    abort
  else
    h <- read sigint ;;
    ext (c_uv_signal_start h fn_on_signal SIGINT) ;;;
    pure tt.

(** [uv_os_getpid()] and [uv_os_getppid()] are arguments of the one call of
    [LSP_LOG]: which of the two is called first is the compiler's choice. *)
Definition _show_welecome : M unit :=
  ext (c_lsp_direct_log s_welcome) ;;;
  ext (c_lsp_direct_log LF) ;;;
  ids <- (if args_left_to_right
          then pid <- ext c_uv_os_getpid ;;
               ppid <- ext c_uv_os_getppid ;;
               pure (pid, ppid)
          else ppid <- ext c_uv_os_getppid ;;
               pid <- ext c_uv_os_getpid ;;
               pure (pid, ppid)) ;;
  ext (c_LSP_LOG LSP_MSG_INFO
         ("PID: %" +++ PRId64 +++ ", PPID:%" +++ PRId64)
         [fst ids; snd ids]) ;;;
  pure tt.

Definition _on_exit_notify (handle : ptr) : M unit :=
  l <- read loop ;;
  ext (c_uv_stop l) ;;;
  pure tt.

Definition _init_exit_notifier : M unit :=
  p <- ext (c_lsp_malloc uv_async_t) ;;
  write (set_exit_notifier p) ;;;
  l <- read loop ;;
  h <- read exit_notifier ;;
  ext (c_uv_async_init l h fn_on_exit_notify) ;;;
  pure tt.

(** [uv_setup_args] hands back the argument vector, possibly a copy of it:
    the strings are the same. *)
Definition _initialize (argc : Z) (argv : list string) : M (list string) :=
  ext (c_uv_setup_args argc argv) ;;;
  ext c_uv_disable_stdio_inheritance ;;;
  write (set_config_lsp_log_level LSP_MSG_INFO) ;;;
  (* Initialize event loop. *)
  p <- ext (c_lsp_malloc uv_loop_t) ;;
  write (set_loop p) ;;;
  l <- read loop ;;
  r <- ext (c_uv_loop_init l) ;;
  if negb (r =? 0) then
    ext (c_fprintf_stderr ("initialize main event loop failed." +++ LF)) ;;;
    abort
  else
  (* Initialize sigint handler. *)
  _signal_sigint_init ;;;
  _init_exit_notifier ;;;
  io_cfg <- _parser_command_line_options argv ;;
  (* Initialize log system. *)
  ext c_lsp_log_init ;;;
  (* Let's welcome user. *)
  _show_welecome ;;;
  (* Initialize IO layer. *)
  ext (c_tag_lsp_io_init io_cfg) ;;;
  ext c_lsp_msg_init ;;;
  ext c_lsp_work_init ;;;
  p <- ext (c_lsp_parser_create fn_handle_request) ;;
  write (set_parser p) ;;;
  pure argv.

(** [signal(SIGPIPE, SIG_IGN)] is compiled in where [SIGPIPE] is defined, as
    it is here. *)
Definition main (argc : Z) (argv : list string) : M Z :=
  ext (c_signal_ignore SIGPIPE) ;;;
  (* Register global cleanup hook. *)
  atexit fn_at_exit ;;;
  (* Global initialize. *)
  argv <- _initialize argc argv ;;
  (* Run. *)
  l <- read loop ;;
  ext (c_uv_run l UV_RUN_DEFAULT) ;;;
  ext (c_LSP_LOG LSP_MSG_INFO "program about to exit." []) ;;;
  pure 0.

(** ** The process

    [exit(status)], and a return from [main], run the functions registered
    with [atexit] and then end the process with [status]; [abort()] ends it
    at once. *)

Inductive termination :=
| Exited (status : Z)
| Aborted
| Hung.

(** [_at_exit] is the one function [main.c] registers. *)
Fixpoint run_atexit (fuel : nat) (fns : list fn) : M unit :=
  match fns with
  | [] => pure tt
  | fn_at_exit :: rest => _at_exit fuel ;;; run_atexit fuel rest
  | _ :: rest => run_atexit fuel rest
  end.

Definition at_process_exit (fuel : nat) (status : Z) (st : state)
    (t : list event) : termination * state * list event :=
  match run_atexit fuel (atexit_fns st) st with
  | (Ret _, st', t') => (Exited status, st', t ++ t')
  | (Exit status', st', t') => (Exited status', st', t ++ t')
  | (Abort, st', t') => (Aborted, st', t ++ t')
  | (Timeout, st', t') => (Hung, st', t ++ t')
  end.

Definition process (fuel : nat) (argc : Z) (argv : list string) (st : state)
  : termination * state * list event :=
  match main argc argv st with
  | (Ret status, st', t) => at_process_exit fuel status st' t
  | (Exit status, st', t) => at_process_exit fuel status st' t
  | (Abort, st', t) => (Aborted, st', t)
  | (Timeout, st', t) => (Hung, st', t)
  end.

(** The state a process starts in: [g_tags] is zero-initialised. *)
Definition boot (w : world) : state := mk_state g_tags_zero w [].

End Program.

(** ** What the design document says about the options *)

Module Options.

(** [strip_prefix p s] is [Some r] when [s] is [p] followed by [r]. *)
Fixpoint strip_prefix (p s : string) : option string :=
  match p with
  | EmptyString => Some s
  | String c p' =>
      match s with
      | EmptyString => None
      | String d s' => if Ascii.eqb c d then strip_prefix p' s' else None
      end
  end.

Definition has_prefix (p s : string) : bool :=
  match strip_prefix p s with Some _ => true | None => false end.

Definition is_help (a : string) : bool :=
  String.eqb a "-h" || String.eqb a "--help".

(** The options [main.c] knows. *)
Definition recognized (a : string) : bool :=
  is_help a || String.eqb a "--stdio" || has_prefix "--pipe=" a ||
  has_prefix "--port=" a || has_prefix "--logdir=" a ||
  has_prefix "--logfile=" a.

(** The transport variants of the data model. *)
Inductive TransportConfig :=
| Stdio
| PipeOrSocketFile (path : string)
| TcpPort (number : Z).

(** The variant an [io_cfg] stands for: its [type], with the member of
    [data] that goes with it. *)
Definition transport_of (cfg : tag_lsp_io_cfg_t) : option TransportConfig :=
  match io_type cfg, io_data cfg with
  | TAG_LSP_IO_STDIO, _ => Some Stdio
  | TAG_LSP_IO_PIPE, data_file f => Some (PipeOrSocketFile f)
  | TAG_LSP_IO_PORT, data_port n => Some (TcpPort n)
  | _, _ => None
  end.

(** A transport selector, and what it selects: [--stdio], [--pipe=<path>] or
    [--port=<number>], where the number is the [int] that [%d] stores. *)
Definition selector (a : string) : option TransportConfig :=
  if String.eqb a "--stdio" then Some Stdio
  else match strip_prefix "--pipe=" a with
       | Some path => Some (PipeOrSocketFile path)
       | None =>
           match strip_prefix "--port=" a with
           | Some v => if fst (sscanf_d v 0) =? 1
                       then Some (TcpPort (snd (sscanf_d v 0)))
                       else None
           | None => None
           end
       end.

(** Last specified wins; [--stdio] is the default. *)
Definition select (acc : TransportConfig) (a : string) : TransportConfig :=
  match selector a with Some t => t | None => acc end.

Definition last_selector (argv : list string) : TransportConfig :=
  fold_left select argv Stdio.

(** The arguments that end the process during parsing. *)
Inductive stop :=
| StopHelp
| StopBadPort (value : string).

Definition stops (a : string) : option stop :=
  if is_help a then Some StopHelp
  else match strip_prefix "--port=" a with
       | Some v => if fst (sscanf_d v 0) =? 1 then None
                   else Some (StopBadPort v)
       | None => None
       end.

Fixpoint first_stop (argv : list string) : option stop :=
  match argv with
  | [] => None
  | a :: rest => match stops a with
                 | Some s => Some s
                 | None => first_stop rest
                 end
  end.

End Options.

(** ** A simulated environment

    A small stand-in for libuv and the work subsystem, to run the program
    on: [queue] work units are outstanding and each single reactor iteration
    completes one; handles are open, then closing, then gone after a full
    reactor run; allocations come from a bump pointer. *)

Module Sim.

Record sim := mk_sim {
  queue : nat;
  brk : Z;
  open_handles : list ptr;
  closing : list ptr
}.

Definition UV_EBUSY : Z := -16.

Definition alloc (w : sim) : sim * Z :=
  (mk_sim (queue w) (brk w + 16) (open_handles w) (closing w), brk w).

Definition remove_ptr (p : ptr) (l : list ptr) : list ptr :=
  filter (fun q => negb (q =? p)) l.

Definition sim_respond (c : call) (w : sim) : sim * Z :=
  match c with
  | c_lsp_malloc _ => alloc w
  | c_lsp_strdup _ => alloc w
  | c_lsp_parser_create _ => alloc w
  | c_uv_signal_init _ h =>
      (mk_sim (queue w) (brk w) (h :: open_handles w) (closing w), 0)
  | c_uv_async_init _ h _ =>
      (mk_sim (queue w) (brk w) (h :: open_handles w) (closing w), 0)
  | c_uv_close h =>
      (mk_sim (queue w) (brk w) (remove_ptr h (open_handles w))
         (h :: closing w), 0)
  | c_lsp_work_queue_size => (w, Z.of_nat (queue w))
  | c_uv_run _ UV_RUN_ONCE =>
      (mk_sim (Nat.pred (queue w)) (brk w) (open_handles w) [],
       Z.of_nat (List.length (open_handles w)))
  | c_uv_run _ UV_RUN_DEFAULT =>
      (mk_sim (queue w) (brk w) (open_handles w) [],
       Z.of_nat (List.length (open_handles w)))
  | c_uv_loop_close _ =>
      (w, match open_handles w, closing w with
          | [], [] => 0
          | _, _ => UV_EBUSY
          end)
  | c_uv_os_getpid => (w, 4242)
  | c_uv_os_getppid => (w, 1)
  | _ => (w, 0)
  end.

Definition sim_externals : Externals := {|
  world := sim;
  respond := sim_respond;
  TAGS_LSP_PROG_NAME := "tags-lsp";
  LSP_MSG_INFO := 3;
  LSP_MSG_DEBUG := 5;
  args_left_to_right := false
|}.

(** A fresh process with [n] work units outstanding once it shuts down. *)
Definition fresh (n : nat) : sim := mk_sim n 4096 [] [].

Definition start (n : nat) : state (E := sim_externals) :=
  boot (E := sim_externals) (fresh n).

(** The state of the server when its reactor run in [main] has returned,
    with [n] work units still outstanding. *)
Definition running (n : nat) : state (E := sim_externals) :=
  snd (fst (main (E := sim_externals) 1 ["tags-lsp"] (start n))).

(** The server while the reactor run of [main] is under way. *)
Definition serving (n : nat) : state (E := sim_externals) :=
  snd (fst ((ext (c_signal_ignore SIGPIPE) ;;; atexit fn_at_exit ;;;
             _initialize 1 ["tags-lsp"]) (start n))).

(** The same server once the queue is empty and its handles have been asked
    to close: the state in which [_cleanup_loop] is called. *)
Definition closing_down : state (E := sim_externals) :=
  snd (fst ((ext c_lsp_method_cleanup ;;; _at_exit_stage_1) (running 0))).

End Sim.

(** ** The frame decoder

    [main.c] hands every chunk it reads to [lsp_parser_execute], whose code
    is in another file of the repository.  The decoder is therefore written
    here after the design document. *)

Module FrameDecoder.

Definition bytes := list byte.

Definition CR : byte := Byte.x0d.
Definition NL : byte := Byte.x0a.
Definition COLON : byte := Byte.x3a.
Definition SPACE : byte := Byte.x20.

Fixpoint bytes_eqb (a b : bytes) : bool :=
  match a, b with
  | [], [] => true
  | x :: a', y :: b' => Byte.eqb x y && bytes_eqb a' b'
  | _, _ => false
  end.

Definition content_length : bytes := list_byte_of_string "Content-Length".

(** Modelled from the spec: a [key: value] line is cut at its first colon,
    into the bytes before it and those after it. *)
Fixpoint split_colon (l : bytes) : option (bytes * bytes) :=
  match l with
  | [] => None
  | b :: r =>
      if Byte.eqb b COLON then Some ([], r)
      else match split_colon r with
           | Some (k, v) => Some (b :: k, v)
           | None => None
           end
  end.

(** Modelled from the spec: the blanks between the colon and the value are
    passed over. *)
Fixpoint skip_spaces (l : bytes) : bytes :=
  match l with
  | b :: r => if Byte.eqb b SPACE then skip_spaces r else l
  | [] => []
  end.

(** Modelled from the spec: a length field is a non-empty run of decimal
    digits; anything else is unparsable. *)
Definition parse_length (v : bytes) : option nat :=
  option_map Nat.of_uint
    (DecimalString.NilZero.uint_of_string (string_of_list_byte v)).

(** Modelled from the spec: a header line ends in CR LF; this is the line
    without its CR, if it has one. *)
Definition strip_cr (line : bytes) : option bytes :=
  match List.rev line with
  | b :: r => if Byte.eqb b CR then Some (List.rev r) else None
  | [] => None
  end.

(** Modelled from the spec: the frame decoder behind [lsp_parser_execute],
    which is not in [main.c].  Its states are those of section 4.2:
    [AwaitingHeaderLine] between frames; [AccumulatingHeaders] inside a header
    block, with the length declared so far and the bytes of the line being
    read; [AwaitingBody] with the declared length and the body bytes
    buffered; [BodyComplete] when the body is whole, left at once by
    delivering the message; [Failed] after a malformed header, for good. *)
Inductive decoder :=
| AwaitingHeaderLine
| AccumulatingHeaders (declared : option nat) (line : bytes)
| AwaitingBody (declaredLength : nat) (body : bytes)
| BodyComplete (body : bytes)
| Failed.

(** Modelled from the spec: a complete header line, CR LF removed.  The
    blank line ends the block, and a block without a length is malformed; a
    [Content-Length] field sets the declared length, and is malformed when
    its value is no number; any other [key: value] line is skipped; a line
    without a colon is malformed. *)
Definition header_line (declared : option nat) (line : bytes) : decoder :=
  match line with
  | [] =>
      match declared with
      | Some n => if Nat.eqb n 0 then BodyComplete [] else AwaitingBody n []
      | None => Failed
      end
  | _ =>
      match split_colon line with
      | Some (key, value) =>
          if bytes_eqb key content_length then
            match parse_length (skip_spaces value) with
            | Some n => AccumulatingHeaders (Some n) []
            | None => Failed
            end
          else AccumulatingHeaders declared []
      | None => Failed
      end
  end.

(** Modelled from the spec: a byte inside the header block.  LF completes
    the line; any other byte is added to it. *)
Definition header_byte (declared : option nat) (line : bytes) (b : byte)
  : decoder :=
  if Byte.eqb b NL then
    match strip_cr line with
    | Some l => header_line declared l
    | None => Failed
    end
  else AccumulatingHeaders declared (line ++ [b]).

(** Modelled from the spec: the decoder takes one byte. *)
Definition step (d : decoder) (b : byte) : decoder :=
  match d with
  | AwaitingHeaderLine => header_byte None [] b
  | AccumulatingHeaders declared line => header_byte declared line b
  | AwaitingBody n body =>
      let body' := body ++ [b] in
      if Nat.eqb (List.length body') n then BodyComplete body'
      else AwaitingBody n body'
  | BodyComplete _ => header_byte None [] b
  | Failed => Failed
  end.

(** Modelled from the spec: a complete body is emitted as soon as it is
    whole, and the decoder awaits the next frame. *)
Definition deliver (d : decoder) : decoder * list bytes :=
  match d with
  | BodyComplete body => (AwaitingHeaderLine, [body])
  | _ => (d, [])
  end.

(** Modelled from the spec: [feed(chunk)], for a chunk of any size; the
    result is the decoder afterwards and the messages emitted, in order. *)
Fixpoint feed (d : decoder) (chunk : bytes) : decoder * list bytes :=
  match chunk with
  | [] => (d, [])
  | b :: rest =>
      let (d1, out1) := deliver (step d b) in
      let (d2, out2) := feed d1 rest in
      (d2, out1 ++ out2)
  end.

(** Modelled from the spec: successive calls of [feed], one per chunk,
    on the same decoder. *)
Fixpoint feed_all (d : decoder) (chunks : list bytes) : decoder * list bytes :=
  match chunks with
  | [] => (d, [])
  | c :: rest =>
      let (d1, out1) := feed d c in
      let (d2, out2) := feed_all d1 rest in
      (d2, out1 ++ out2)
  end.

(** *** Valid frames: the wire framing of section 6 *)

Record header := mk_header { key : string; value : string }.

Definition free_of (b : byte) (s : string) : Prop :=
  ~ In b (list_byte_of_string s).

Definition header_ok (h : header) : Prop :=
  free_of COLON (key h) /\ free_of CR (key h) /\ free_of NL (key h) /\
  free_of CR (value h) /\ free_of NL (value h).

(** A number in decimal digits, leading zeros allowed. *)
Definition denotes (v : string) (n : nat) : Prop :=
  exists d : Decimal.uint, v = DecimalString.NilZero.string_of_uint d /\ Nat.of_uint d = n.

(** The block declares the length [n]: it has a [Content-Length] field and
    each one says [n]. *)
Definition declares (hs : list header) (n : nat) : Prop :=
  (exists h, In h hs /\ key h = "Content-Length") /\
  (forall h, In h hs -> key h = "Content-Length" -> denotes (value h) n).

Definition render_header (h : header) : bytes :=
  list_byte_of_string (key h) ++ [COLON; SPACE] ++
  list_byte_of_string (value h) ++ [CR; NL].

Definition render_frame (hs : list header) (body : bytes) : bytes :=
  List.concat (map render_header hs) ++ [CR; NL] ++ body.

Definition valid_frame (hs : list header) (body : bytes) : Prop :=
  Forall header_ok hs /\ declares hs (List.length body).

End FrameDecoder.

(** ** Vocabulary of the statements below *)

Section Vocabulary.

Import Options.

Context `{E : Externals}.

(** The calls option parsing can make. *)
Definition parsing_call (c : call) : bool :=
  match c with
  | c_fprintf_stderr _ | c_free _ | c_lsp_free _ | c_lsp_strdup _ => true
  | _ => false
  end.

Definition status_of (s : stop) : Z :=
  match s with
  | StopHelp => EXIT_SUCCESS
  | StopBadPort _ => EXIT_FAILURE
  end.

Definition message_of (s : stop) : string :=
  match s with
  | StopHelp => s_help
  | StopBadPort v => "invalid value for `--port`: " +++ v +++ "." +++ LF
  end.

End Vocabulary.

(** ** Vocabulary of the shutdown statements *)

Section ShutdownVocabulary.

Context `{E : Externals}.

(** The events of whole turns of the wait loop on the loop [l]: the queue
    size was read and was not zero, and one reactor iteration was run. *)
Fixpoint drain_turns (l : ptr) (t : list event) : Prop :=
  match t with
  | [] => True
  | (c_lsp_work_queue_size, n) :: (c_uv_run l' UV_RUN_ONCE, _) :: t' =>
      n <> 0 /\ l' = l /\ drain_turns l t'
  | _ => False
  end.

(** The work source lets the queue reach zero after exactly [n] single
    reactor iterations on [l], starting from the world [w]. *)
Fixpoint drains_in (n : nat) (l : ptr) (w : world) : Prop :=
  match n with
  | O => snd (respond c_lsp_work_queue_size w) = 0
  | S n' =>
      snd (respond c_lsp_work_queue_size w) <> 0 /\
      drains_in n' l
        (fst (respond (c_uv_run l UV_RUN_ONCE)
                (fst (respond c_lsp_work_queue_size w))))
  end.

(** The world when the wait loop of [_at_exit] starts. *)
Definition at_drain_start (st : state) : world :=
  fst (respond c_lsp_msg_cancel_all_pending_request
         (fst (respond (c_LSP_LOG LSP_MSG_DEBUG "cleanup..." []) (env st)))).

(** The calls that tear things down: everything [_at_exit] does after the
    wait loop. *)
Definition teardown_call (c : call) : bool :=
  match c with
  | c_lsp_method_cleanup | c_tag_lsp_msg_exit | c_tag_lsp_io_exit
  | c_lsp_work_exit | c_lsp_log_exit | c_uv_close _
  | c_uv_run _ UV_RUN_DEFAULT | c_uv_loop_close _ | c_lsp_free _
  | c_lsp_parser_destroy _ | c_tag_lsp_cleanup_workspace_folders
  | c_tag_lsp_cleanup_client_capabilities | c_uv_library_shutdown => true
  | _ => false
  end.

End ShutdownVocabulary.

(** ** Vocabulary of the tear-down statements *)

Section TeardownVocabulary.

Context `{E : Externals}.

(** The world's answers to a sequence of calls. *)
Fixpoint answers (cs : list call) (w : world) : world * list event :=
  match cs with
  | [] => (w, [])
  | c :: cs' =>
      let (w1, r) := respond c w in
      let (w2, t) := answers cs' w1 in
      (w2, (c, r) :: t)
  end.

(** What [_at_exit] does once the wait loop has returned. *)
Definition teardown : M unit :=
  ext c_lsp_method_cleanup ;;;
  _at_exit_stage_1 ;;;
  _cleanup_loop ;;;
  _at_exit_stage_2 ;;;
  ext c_uv_library_shutdown ;;;
  pure tt.

Definition guard (p : ptr) (c : call) : list call :=
  if p =? NULL then [] else [c].

(** The calls up to and including the close requests. *)
Definition closing_calls (g : g_tags_t) : list call :=
  [c_lsp_method_cleanup; c_tag_lsp_msg_exit; c_tag_lsp_io_exit;
   c_lsp_work_exit; c_lsp_log_exit;
   c_uv_close (sigint g); c_uv_close (exit_notifier g)].

(** The calls that destroy the reactor. *)
Definition reactor_calls (g : g_tags_t) : list call :=
  if loop g =? NULL then []
  else [c_uv_run (loop g) UV_RUN_DEFAULT; c_uv_loop_close (loop g);
        c_lsp_free (loop g)].

(** The calls that release what is left, in the order of
    [_at_exit_stage_2], and the library shutdown. *)
Definition release_calls (g : g_tags_t) : list call :=
  guard (parser g) (c_lsp_parser_destroy (parser g)) ++
  guard (config_logdir g) (c_lsp_free (config_logdir g)) ++
  guard (config_logfile g) (c_lsp_free (config_logfile g)) ++
  guard (sigint g) (c_lsp_free (sigint g)) ++
  guard (exit_notifier g) (c_lsp_free (exit_notifier g)) ++
  [c_tag_lsp_cleanup_workspace_folders;
   c_tag_lsp_cleanup_client_capabilities].

(** [g_tags] with every owned slot cleared. *)
Definition released (g : g_tags_t) : g_tags_t :=
  mk_g_tags NULL NULL NULL NULL NULL NULL
    (config_lsp_log_level g) (flags_shutdown g).

(** The calls that give a resource back. *)
Definition releasing_call (c : call) : bool :=
  match c with
  | c_lsp_free _ | c_free _ | c_lsp_parser_destroy _ | c_uv_loop_close _ =>
      true
  | _ => false
  end.

(** The handles a sequence of calls asks to close, and the blocks it
    frees. *)
Definition closed_by (c : call) : list ptr :=
  match c with c_uv_close h => [h] | _ => [] end.

Definition freed_by (c : call) : list ptr :=
  match c with
  | c_lsp_free p | c_free p | c_lsp_parser_destroy p => [p]
  | _ => []
  end.

Definition closed (t : list event) : list ptr :=
  flat_map (fun e => closed_by (fst e)) t.

Definition freed (t : list event) : list ptr :=
  flat_map (fun e => freed_by (fst e)) t.

(** The blocks [g_tags] owns, and what makes them sound: they are distinct
    blocks, and the two handles are distinct. *)
Definition owned (g : g_tags_t) : list ptr :=
  filter (fun p => negb (p =? NULL))
    [loop g; parser g; config_logdir g; config_logfile g; sigint g;
     exit_notifier g].

Definition sound (g : g_tags_t) : Prop :=
  NoDup (owned g) /\ sigint g <> exit_notifier g.

End TeardownVocabulary.

Section AbortVocabulary.

Context `{E : Externals}.

(** The events of a reactor destruction that found the reactor active: the
    final run returned non-zero, or it returned zero and closing the loop
    failed. *)
Definition aborting (l : ptr) (t : list event) : Prop :=
  (exists r, r <> 0 /\ t = [(c_uv_run l UV_RUN_DEFAULT, r)]) \/
  (exists r, r <> 0 /\
             t = [(c_uv_run l UV_RUN_DEFAULT, 0); (c_uv_loop_close l, r)]).

End AbortVocabulary.

(** ** Vocabulary of the start-up statements *)

Section StartupVocabulary.

Context `{E : Externals}.

(** A function that leaves the [atexit] list alone, and one that leaves
    [g_tags] alone. *)
Definition keeps_hooks {A} (m : M A) : Prop :=
  forall st, atexit_fns (snd (fst (m st))) = atexit_fns st.

Definition keeps_g_tags {A} (m : M A) : Prop :=
  forall st, g_tags (snd (fst (m st))) = g_tags st.

(** How the process ends when the exit hook ended with [o] after
    [exit(status)]. *)
Definition term_of (o : outcome unit) (status : Z) : termination :=
  match o with
  | Ret _ => Exited status
  | Exit status' => Exited status'
  | Abort => Aborted
  | Timeout => Hung
  end.

(** The calls [main] can make before option parsing is over: neither the
    I/O layer nor the log is initialised by them, and the reactor is not
    run. *)
Definition startup_call (c : call) : bool :=
  match c with
  | c_signal_ignore _ | c_uv_setup_args _ _ | c_uv_disable_stdio_inheritance
  | c_lsp_malloc _ | c_uv_loop_init _ | c_uv_signal_init _ _
  | c_uv_signal_start _ _ _ | c_uv_async_init _ _ _ => true
  | _ => parsing_call c
  end.

(** The reactor, the signal watcher and the exit notifier are set up by
    these events. *)
Definition reactor_set_up (t : list event) : Prop :=
  exists l h1 h2 r,
    In (c_uv_loop_init l, 0) t /\ In (c_uv_signal_init l h1, 0) t /\
    In (c_uv_async_init l h2 fn_on_exit_notify, r) t.

End StartupVocabulary.

Section OutputVocabulary.

(** What a run wrote to [stderr] with [fprintf]. *)
Definition stderr_text (t : list event) : list string :=
  flat_map (fun e => match fst e with
                     | c_fprintf_stderr text => [text]
                     | _ => []
                     end) t.

End OutputVocabulary.

(** ** Vocabulary of the further properties *)

Section FurtherVocabulary.

Context `{E : Externals}.

(** A natural number in decimal digits, as a peer or a shell writes it. *)
Definition decimal (n : nat) : string :=
  DecimalString.NilZero.string_of_uint (Nat.to_uint n).

Definition starts_with_digit (s : string) : bool :=
  match s with
  | EmptyString => false
  | String c _ => isdigit c
  end.

(** The blocks [lsp_strdup] handed out in a run. *)
Definition strdup_answers (t : list event) : list ptr :=
  flat_map (fun e => match fst e with
                     | c_lsp_strdup _ => [snd e]
                     | _ => []
                     end) t.

Definition non_null (l : list ptr) : list ptr :=
  filter (fun p => negb (p =? NULL)) l.

(** A function that leaves one field of [g_tags] as it was. *)
Definition keeps_field {A B} (f : g_tags_t -> B) (m : M A) : Prop :=
  forall st, f (g_tags (snd (fst (m st)))) = f (g_tags st).

(** The calls that initialise a subsystem after the options are read. *)
Definition init_call (c : call) : bool :=
  match c with
  | c_lsp_log_init | c_tag_lsp_io_init _ | c_lsp_msg_init | c_lsp_work_init
  | c_lsp_parser_create _ => true
  | _ => false
  end.

End FurtherVocabulary.

(** A work source that never completes anything: the queue size stays 1
    whatever the reactor does. *)

Module Stalled.

Definition stalled_respond (c : call) (w : Sim.sim) : Sim.sim * Z :=
  match c with
  | c_lsp_work_queue_size => (w, 1)
  | _ => Sim.sim_respond c w
  end.

Definition stalled_externals : Externals := {|
  world := Sim.sim;
  respond := stalled_respond;
  TAGS_LSP_PROG_NAME := "tags-lsp";
  LSP_MSG_INFO := 3;
  LSP_MSG_DEBUG := 5;
  args_left_to_right := false
|}.

Definition start : state (E := stalled_externals) :=
  boot (E := stalled_externals) (Sim.fresh 1).

End Stalled.

Section ParsingVocabulary.

Context `{E : Externals}.

(** The fields option parsing leaves alone: all but the two log strings. *)
Definition kept_by_parsing (g g' : g_tags_t) : Prop :=
  loop g' = loop g /\ sigint g' = sigint g /\
  exit_notifier g' = exit_notifier g /\ parser g' = parser g /\
  config_lsp_log_level g' = config_lsp_log_level g /\
  flags_shutdown g' = flags_shutdown g.

Definition writes_logs_only {A} (m : M A) : Prop :=
  forall st, kept_by_parsing (g_tags st) (g_tags (snd (fst (m st)))).

(** The log strings [g_tags] holds. *)
Definition log_strings (g : g_tags_t) : list ptr :=
  non_null [config_logdir g; config_logfile g].

End ParsingVocabulary.

Section LogStringVocabulary.

Context `{E : Externals}.

(** Every string made is freed or still held, and nothing else is freed. *)
Definition conserves {A} (m : M A) : Prop :=
  forall st,
    let '(_, st', t) := m st in
    Permutation.Permutation
      (log_strings (g_tags st) ++ non_null (strdup_answers t))
      (freed t ++ log_strings (g_tags st')).

End LogStringVocabulary.

(** ** Vocabulary of the statements on whole runs *)

Section RunVocabulary.

Context `{E : Externals}.

(** The blocks a sequence of events obtained: the answers of [lsp_malloc],
    [lsp_strdup] and [lsp_parser_create]. *)
Definition allocated (t : list event) : list ptr :=
  flat_map (fun e => match fst e with
                     | c_lsp_malloc _ | c_lsp_strdup _
                     | c_lsp_parser_create _ => [snd e]
                     | _ => []
                     end) t.

(** The calls of [main] up to the allocation of the loop. *)
Definition entry_calls (argc : Z) (argv : list string) : list call :=
  [c_signal_ignore SIGPIPE; c_uv_setup_args argc argv;
   c_uv_disable_stdio_inheritance; c_lsp_malloc uv_loop_t].

(** The calls that set up the reactor [l], the signal watcher [h1] and the
    exit notifier [h2]. *)
Definition setup_calls (argc : Z) (argv : list string) (l h1 h2 : ptr)
  : list call :=
  entry_calls argc argv ++
  [c_uv_loop_init l; c_lsp_malloc uv_signal_t; c_uv_signal_init l h1;
   c_uv_signal_start h1 fn_on_signal SIGINT; c_lsp_malloc uv_async_t;
   c_uv_async_init l h2 fn_on_exit_notify].

(** The two calls that ask for the identifiers of the welcome line, in the
    order the compiler gave the arguments of [LSP_LOG]. *)
Definition id_calls : list call :=
  if args_left_to_right then [c_uv_os_getpid; c_uv_os_getppid]
  else [c_uv_os_getppid; c_uv_os_getpid].

(** The calls of [main] once the options are parsed, the reactor run and
    the last log line included. *)
Definition service_calls (cfg : tag_lsp_io_cfg_t) (pid ppid : Z) (l : ptr)
  : list call :=
  [c_lsp_log_init; c_lsp_direct_log s_welcome; c_lsp_direct_log LF] ++
  id_calls ++
  [c_LSP_LOG LSP_MSG_INFO ("PID: %" +++ PRId64 +++ ", PPID:%" +++ PRId64)
     [pid; ppid];
   c_tag_lsp_io_init cfg; c_lsp_msg_init; c_lsp_work_init;
   c_lsp_parser_create fn_handle_request;
   c_uv_run l UV_RUN_DEFAULT;
   c_LSP_LOG LSP_MSG_INFO "program about to exit." []].

(** [g_tags] once the reactor is set up. *)
Definition set_up (l h1 h2 : ptr) (g : g_tags_t) : g_tags_t :=
  set_exit_notifier h2
    (set_sigint h1 (set_loop l (set_config_lsp_log_level LSP_MSG_INFO g))).

(** The two messages of a start-up that failed. *)
Definition startup_failure (c : call) (text : string) : Prop :=
  (exists l, c = c_uv_loop_init l /\
             text = "initialize main event loop failed." +++ LF) \/
  (exists l h, c = c_uv_signal_init l h /\
               text = "initialize sigint failed." +++ LF).

End RunVocabulary.

Section BalanceVocabulary.

Context `{E : Externals}.

(** The calls that hand out a block. *)
Definition allocating (c : call) : bool :=
  match c with
  | c_lsp_malloc _ | c_lsp_strdup _ | c_lsp_parser_create _ => true
  | _ => false
  end.

End BalanceVocabulary.

(** A system on which the event loop cannot be initialised. *)
Module Failing.

Definition UV_ENOMEM : Z := -12.

Definition failing_respond (c : call) (w : Sim.sim) : Sim.sim * Z :=
  match c with
  | c_uv_loop_init _ => (w, UV_ENOMEM)
  | _ => Sim.sim_respond c w
  end.

Definition failing_externals : Externals := {|
  world := Sim.sim;
  respond := failing_respond;
  TAGS_LSP_PROG_NAME := "tags-lsp";
  LSP_MSG_INFO := 3;
  LSP_MSG_DEBUG := 5;
  args_left_to_right := false
|}.

Definition start : state (E := failing_externals) :=
  boot (E := failing_externals) (Sim.fresh 0).

End Failing.

Section UsageVocabulary.

Context `{E : Externals}.

(** Neither an initialisation nor the destruction of a parser. *)
Definition quiet (c : call) : Prop :=
  init_call c = false /\ forall p, c <> c_lsp_parser_destroy p.

(** The calls every completed run of the exit hook makes, whatever
    [g_tags] holds. *)
Definition hook_calls : list call :=
  [c_lsp_msg_cancel_all_pending_request; c_lsp_method_cleanup;
   c_tag_lsp_msg_exit; c_tag_lsp_io_exit; c_lsp_work_exit; c_lsp_log_exit;
   c_tag_lsp_cleanup_workspace_folders;
   c_tag_lsp_cleanup_client_capabilities; c_uv_library_shutdown].

End UsageVocabulary.

(** * Properties *)

(** ** The libc string functions against equality and prefixes *)

Section CStrFacts.

Import Options.

Lemma uchar_inj (c d : ascii) : uchar c = uchar d -> c = d.
Proof.
  unfold uchar. intros H. apply N2Z.inj in H.
  rewrite <- (ascii_N_embedding c), <- (ascii_N_embedding d).
  now rewrite H.
Qed.

Lemma uchar_eqb (c d : ascii) : (uchar c =? uchar d) = Ascii.eqb c d.
Proof.
  destruct (Ascii.eqb_spec c d) as [->|Hne].
  - apply Z.eqb_refl.
  - apply Z.eqb_neq. intros H. apply Hne. now apply uchar_inj.
Qed.

Lemma strcmp_eqb (a b : string) :
  no_nul a = true -> no_nul b = true ->
  (strcmp a b =? 0) = String.eqb a b.
Proof.
  revert b. induction a as [|c a IH]; intros [|d b]; simpl; intros Ha Hb.
  - reflexivity.
  - apply andb_prop in Hb as [Hd _]. apply negb_true_iff in Hd.
    apply Z.eqb_neq in Hd. apply Z.eqb_neq. lia.
  - apply andb_prop in Ha as [Hc _]. now apply negb_true_iff in Hc.
  - apply andb_prop in Ha as [Hc Ha]. apply andb_prop in Hb as [Hd Hb].
    apply negb_true_iff in Hc. rewrite <- uchar_eqb.
    destruct (uchar c =? uchar d) eqn:Hcd.
    + rewrite Hc. now apply IH.
    + apply Z.eqb_neq in Hcd. apply Z.eqb_neq. lia.
Qed.

Lemma strncmp_has_prefix (p a : string) :
  no_nul p = true ->
  (strncmp a p (strlen p) =? 0) = has_prefix p a.
Proof.
  unfold has_prefix. revert a.
  induction p as [|c p IH]; intros a Hp; simpl.
  - reflexivity.
  - simpl in Hp. apply andb_prop in Hp as [Hc Hp].
    apply negb_true_iff in Hc. rewrite Hc. simpl.
    destruct a as [|d a].
    + apply Z.eqb_neq in Hc. apply Z.eqb_neq. lia.
    + rewrite (Ascii.eqb_sym c d), <- uchar_eqb.
      destruct (uchar d =? uchar c) eqn:Hdc.
      * apply Z.eqb_eq in Hdc. rewrite Hdc, Hc. now apply IH.
      * apply Z.eqb_neq in Hdc. apply Z.eqb_neq. lia.
Qed.

Lemma strip_prefix_advance (p a r : string) :
  no_nul p = true -> strip_prefix p a = Some r ->
  advance a (strlen p) = r.
Proof.
  revert a. induction p as [|c p IH]; intros a Hp; simpl.
  - now intros [= ->].
  - simpl in Hp. apply andb_prop in Hp as [Hc Hp].
    apply negb_true_iff in Hc. rewrite Hc.
    destruct a as [|d a]; [discriminate|].
    destruct (Ascii.eqb c d); [|discriminate]. now apply IH.
Qed.

Lemma strip_prefix_append (p a r : string) :
  strip_prefix p a = Some r -> a = String.append p r.
Proof.
  revert a. induction p as [|c p IH]; intros a; simpl.
  - now intros [= ->].
  - destruct a as [|d a]; [discriminate|].
    destruct (Ascii.eqb_spec c d) as [->|]; [|discriminate].
    intros H. f_equal. now apply IH.
Qed.

(** Whether [%d] reads a number does not depend on what [ret] held, nor
    does the number read. *)
Lemma sscanf_d_ret (v : string) (r r' : Z) :
  fst (sscanf_d v r) = fst (sscanf_d v r') /\
  (fst (sscanf_d v r) = 1 -> snd (sscanf_d v r) = snd (sscanf_d v r')).
Proof.
  unfold sscanf_d, scan_unsigned.
  destruct (skip_space v) as [|c s]; simpl; [split; [reflexivity|discriminate]|].
  destruct (uchar c =? 45); [|destruct (uchar c =? 43)];
    try (destruct s as [|d s]; simpl; [split; [reflexivity|discriminate]|]);
    try destruct (isdigit d); try destruct (isdigit c); simpl;
    split; try reflexivity; try discriminate.
Qed.

(** What [%d] stores is an [int], and the number itself when that fits. *)
Lemma int_of_long_range (v : Z) : INT_MIN <= int_of_long v <= INT_MAX.
Proof.
  unfold int_of_long, INT_MIN, INT_MAX.
  pose proof (Z.mod_pos_bound (v - -2147483648) 4294967296 eq_refl). lia.
Qed.

Lemma int_of_long_fits (v : Z) :
  INT_MIN <= v <= INT_MAX -> int_of_long (strtol_value v) = v.
Proof.
  unfold int_of_long, strtol_value, INT_MIN, INT_MAX, LONG_MIN, LONG_MAX.
  intros Hv. rewrite Z.min_r, Z.max_r by lia.
  rewrite Z.mod_small by lia. lia.
Qed.




End CStrFacts.

(** ** Option parsing *)

Ltac unfold_M :=
  unfold bind, ext, exit, abort, timeout, pure, read, write, when, atexit.

Ltac answer :=
  repeat match goal with
         | |- context [respond ?c ?w] =>
             let w' := fresh "w" in
             let r := fresh "r" in
             let Hr := fresh "Hr" in
             destruct (respond c w) as [w' r] eqn:Hr; cbn [fst snd g_tags env atexit_fns]
         end.

#[local] Arguments s_help : simpl never.
#[local] Arguments s_welcome : simpl never.
#[local] Arguments String.append : simpl never.

Ltac finish :=
  cbn;
  repeat match goal with
         | |- _ /\ _ => split
         | |- Forall _ [] => constructor
         | |- Forall _ (_ :: _) => constructor
         | |- exists _, _ => eexists
         | |- _ => reflexivity
         | |- _ => eassumption
         end.

Section OptionFacts.

Import Options.

Context `{E : Externals}.

(** The tests of [parse_option], in terms of equality and prefixes. *)
Lemma parse_option_tests (a : string) (io_cfg : tag_lsp_io_cfg_t) (ret : Z) :
  no_nul a = true ->
  parse_option a io_cfg ret =
  if is_help a then
    ext (c_fprintf_stderr s_help) ;;; exit EXIT_SUCCESS
  else if String.eqb a "--stdio" then
    pure (mk_io_cfg TAG_LSP_IO_STDIO (io_data io_cfg) (io_cb io_cfg), ret)
  else if has_prefix "--pipe=" a then
    pure (mk_io_cfg TAG_LSP_IO_PIPE (data_file (advance a 7)) (io_cb io_cfg),
          ret)
  else if has_prefix "--port=" a then
    let opt := advance a 7 in
    let (n, ret') := sscanf_d opt ret in
    if negb (n =? 1) then
      ext (c_fprintf_stderr
             ("invalid value for `--port`: " +++ opt +++ "." +++ LF)) ;;;
      exit EXIT_FAILURE
    else
      pure (mk_io_cfg TAG_LSP_IO_PORT (data_port ret') (io_cb io_cfg), ret')
  else if has_prefix "--logdir=" a then
    p <- read config_logdir ;;
    when (negb (p =? NULL))
      (p <- read config_logdir ;; ext (c_free p) ;;; pure tt) ;;;
    p <- ext (c_lsp_strdup (advance a 9)) ;;
    write (set_config_logdir p) ;;;
    pure (io_cfg, ret)
  else if has_prefix "--logfile=" a then
    p <- read config_logfile ;;
    when (negb (p =? NULL))
      (p <- read config_logfile ;; ext (c_lsp_free p) ;;; pure tt) ;;;
    p <- ext (c_lsp_strdup (advance a 10)) ;;
    write (set_config_logfile p) ;;;
    pure (io_cfg, ret)
  else
    pure (io_cfg, ret).
Proof.
  intros Ha. unfold parse_option, is_help.
  rewrite !(strcmp_eqb a) by (exact Ha || reflexivity).
  rewrite !strncmp_has_prefix by reflexivity.
  reflexivity.
Qed.

(** One argument: it ends the process with the status and message of
    [stops], or else it leaves the configuration [select] gives. *)
Lemma parse_option_step (a : string) (io_cfg : tag_lsp_io_cfg_t) (ret : Z)
    (st : state) (acc : TransportConfig) :
  no_nul a = true ->
  transport_of io_cfg = Some acc ->
  let '(o, st', t) := parse_option a io_cfg ret st in
  Forall (fun e => parsing_call (fst e) = true) t /\
  atexit_fns st' = atexit_fns st /\
  match stops a with
  | Some s =>
      o = Exit (status_of s) /\
      exists r, t = [(c_fprintf_stderr (message_of s), r)]
  | None =>
      exists io_cfg' ret',
        o = Ret (io_cfg', ret') /\
        transport_of io_cfg' = Some (select acc a) /\
        io_cb io_cfg' = io_cb io_cfg
  end.
Proof.
  intros Ha Hacc. rewrite (parse_option_tests a io_cfg ret Ha).
  unfold stops, select, selector.
  destruct (is_help a) eqn:Hh.
  { unfold_M. answer. finish. }
  destruct (String.eqb_spec a "--stdio") as [->|Hs].
  { unfold_M. finish. }
  unfold has_prefix.
  destruct (strip_prefix "--pipe=" a) as [path|] eqn:Hpipe.
  { pose proof (strip_prefix_advance "--pipe=" a path eq_refl Hpipe) as Hadv.
    change (strlen "--pipe=") with 7%nat in Hadv. rewrite Hadv.
    assert (Hnp : strip_prefix "--port=" a = None)
      by (apply strip_prefix_append in Hpipe; subst a; reflexivity).
    rewrite Hnp. unfold_M. finish. }
  destruct (strip_prefix "--port=" a) as [v|] eqn:Hport.
  { pose proof (strip_prefix_advance "--port=" a v eq_refl Hport) as Hadv.
    change (strlen "--port=") with 7%nat in Hadv. rewrite Hadv. cbv zeta.
    destruct (sscanf_d_ret v ret 0) as [Hn Hv].
    destruct (sscanf_d v ret) as [n ret'] eqn:Hsc. cbn [fst snd] in Hn, Hv.
    rewrite <- Hn.
    destruct (n =? 1) eqn:Hn1; cbn [negb].
    - apply Z.eqb_eq in Hn1. rewrite <- (Hv Hn1).
      unfold_M. finish.
    - unfold_M. answer. finish. }
  destruct (strip_prefix "--logdir=" a) as [d|] eqn:Hdir.
  { unfold_M. cbn.
    destruct (config_logdir (g_tags st) =? NULL); cbn; answer;
      finish. }
  destruct (strip_prefix "--logfile=" a) as [f|] eqn:Hfile.
  { unfold_M. cbn.
    destruct (config_logfile (g_tags st) =? NULL); cbn; answer;
      finish. }
  unfold_M. finish.
Qed.

(** The whole loop: it stops at the first argument that ends the process,
    and otherwise the last selector has it. *)
Lemma parse_options_run (argv : list string) :
  Forall (fun a => no_nul a = true) argv ->
  forall io_cfg ret st acc,
    transport_of io_cfg = Some acc ->
    let '(o, st', t) := parse_options argv io_cfg ret st in
    atexit_fns st' = atexit_fns st /\
    match first_stop argv with
    | Some s =>
        o = Exit (status_of s) /\
        exists t0 r,
          t = t0 ++ [(c_fprintf_stderr (message_of s), r)] /\
          Forall (fun e => parsing_call (fst e) = true) t0
    | None =>
        Forall (fun e => parsing_call (fst e) = true) t /\
        exists io_cfg' ret',
          o = Ret (io_cfg', ret') /\
          transport_of io_cfg' = Some (fold_left select argv acc) /\
          io_cb io_cfg' = io_cb io_cfg
    end.
Proof.
  induction 1 as [|a argv Ha _ IH]; intros io_cfg ret st acc Hacc.
  - cbn. finish.
  - cbn [parse_options first_stop fold_left]. unfold bind at 1.
    pose proof (parse_option_step a io_cfg ret st acc Ha Hacc) as Hs.
    destruct (parse_option a io_cfg ret st) as [[o1 st1] t1].
    destruct Hs as (Hf & Hat & Hs).
    destruct (stops a) as [s|].
    + destruct Hs as [-> [r ->]]. split; [exact Hat|]. split; [reflexivity|].
      exists [], r. split; [reflexivity|constructor].
    + destruct Hs as (cfg' & ret' & -> & Htr & Hcb). cbn [fst snd].
      specialize (IH cfg' ret' st1 (select acc a) Htr).
      destruct (parse_options argv cfg' ret' st1) as [[o2 st2] t2].
      destruct IH as [Hat2 IH]. split; [congruence|].
      destruct (first_stop argv) as [s|].
      * destruct IH as [-> (t0 & r & -> & Hf0)]. split; [reflexivity|].
        exists (t1 ++ t0), r. rewrite app_assoc. split; [reflexivity|].
        apply Forall_app. now split.
      * destruct IH as [Hf2 (cfg'' & ret'' & -> & Htr2 & Hcb2)].
        split; [apply Forall_app; now split|].
        exists cfg'', ret''. repeat split; congruence.
Qed.


Lemma last_selector_snoc (argv : list string) (a : string)
    (t : TransportConfig) :
  selector a = Some t -> last_selector (argv ++ [a]) = t.
Proof.
  intros Ha. unfold last_selector. rewrite fold_left_app. cbn.
  unfold select. now rewrite Ha.
Qed.

Lemma last_selector_skip (argv : list string) (a : string) :
  selector a = None -> last_selector (argv ++ [a]) = last_selector argv.
Proof.
  intros Ha. unfold last_selector. rewrite fold_left_app. cbn.
  unfold select at 1. now rewrite Ha.
Qed.

Lemma unrecognized_step (a : string) :
  no_nul a = true -> recognized a = false ->
  forall io_cfg ret st,
    parse_option a io_cfg ret st = (Ret (io_cfg, ret), st, []).
Proof.
  intros Ha Hun io_cfg ret st. rewrite (parse_option_tests a io_cfg ret Ha).
  unfold recognized in Hun.
  repeat (apply orb_false_iff in Hun; destruct Hun as [Hun ?]).
  unfold is_help. rewrite Hun, H, H0, H1, H2, H3, H4. reflexivity.
Qed.

Lemma parse_options_skip (a : string) (before after : list string) :
  (forall io_cfg ret st,
      parse_option a io_cfg ret st = (Ret (io_cfg, ret), st, [])) ->
  forall io_cfg ret st,
    parse_options (before ++ a :: after) io_cfg ret st =
    parse_options (before ++ after) io_cfg ret st.
Proof.
  intros Hskip. induction before as [|b before IH]; intros io_cfg ret st.
  - cbn [app parse_options]. unfold bind. rewrite Hskip. cbn [fst snd].
    now destruct (parse_options after io_cfg ret st) as [[o s] t].
  - cbn [app parse_options]. unfold bind.
    destruct (parse_option b io_cfg ret st) as [[[r| | | ] s] t]; try reflexivity.
    now rewrite IH.
Qed.

End OptionFacts.



(** C10: an argument that is a C string and none of the recognized options
    is passed over: the turn of the loop that reads it returns at once with
    [io_cfg], [ret], [g_tags] and the world as they were and without a call,
    and parsing the vector with it gives what parsing the vector without it
    gives. *)
Theorem unrecognized_argument_ignored `{E : Externals} (a : string) :
  no_nul a = true ->
  Options.recognized a = false ->
  (forall io_cfg ret st,
      parse_option a io_cfg ret st = (Ret (io_cfg, ret), st, [])) /\
  (forall before after st,
      _parser_command_line_options (before ++ a :: after) st =
      _parser_command_line_options (before ++ after) st).
Proof.
  intros Ha Hun.
  pose proof (unrecognized_step a Ha Hun) as Hstep.
  split; [exact Hstep|].
  intros before after st. unfold _parser_command_line_options, bind.
  now rewrite (parse_options_skip a before after Hstep).
Qed.

Lemma unrecognized_argument_ignored_witness :
  no_nul "--verbose" = true /\
  Options.recognized "--verbose" = false /\
  _parser_command_line_options (E := Sim.sim_externals)
    (["tags-lsp"; "--port=7"] ++ "--verbose" :: ["--logdir=/var"])
    (Sim.start 0) =
  _parser_command_line_options (E := Sim.sim_externals)
    (["tags-lsp"; "--port=7"] ++ ["--logdir=/var"]) (Sim.start 0).
Proof.
  split; [reflexivity|]. split; [reflexivity|].
  apply (unrecognized_argument_ignored (E := Sim.sim_externals) "--verbose"
           eq_refl eq_refl).
Defined.

(** ** Running a function one statement at a time *)

Section MonadFacts.

Context `{E : Externals}.

Lemma bind_pure {A B} (a : A) (k : A -> M B) (st : state) :
  bind (pure a) k st = k a st.
Proof. unfold bind, pure. now destruct (k a st) as [[o s] t]. Qed.

Lemma bind_read {A B} (f : g_tags_t -> A) (k : A -> M B) (st : state) :
  bind (read f) k st = k (f (g_tags st)) st.
Proof. unfold bind, read. now destruct (k _ st) as [[o s] t]. Qed.

Lemma bind_write {B} (upd : g_tags_t -> g_tags_t) (k : unit -> M B)
    (st : state) :
  bind (write upd) k st =
  k tt (mk_state (upd (g_tags st)) (env st) (atexit_fns st)).
Proof. unfold bind, write. now destruct (k tt _) as [[o s] t]. Qed.

Lemma bind_ext {B} (c : call) (k : Z -> M B) (st : state) :
  bind (ext c) k st =
  let (w', r) := respond c (env st) in
  let '(o, st2, t2) := k r (mk_state (g_tags st) w' (atexit_fns st)) in
  (o, st2, (c, r) :: t2).
Proof.
  unfold bind, ext. destruct (respond c (env st)) as [w' r].
  now destruct (k r _) as [[o s] t].
Qed.

Lemma bind_abort {A B} (k : A -> M B) (st : state) :
  bind abort k st = (Abort, st, []).
Proof. reflexivity. Qed.

Lemma bind_exit {A B} (status : Z) (k : A -> M B) (st : state) :
  bind (exit status) k st = (Exit status, st, []).
Proof. reflexivity. Qed.

Lemma bind_assoc {A B C} (m : M A) (f : A -> M B) (g : B -> M C)
    (st : state) :
  bind (bind m f) g st = bind m (fun x => bind (f x) g) st.
Proof.
  unfold bind. destruct (m st) as [[[a| | | ] s1] t1]; try reflexivity.
  destruct (f a s1) as [[[b| | | ] s2] t2]; try reflexivity.
  destruct (g b s2) as [[o s3] t3]. now rewrite app_assoc.
Qed.

Lemma bind_when {B} (b : bool) (m : M unit) (k : unit -> M B) (st : state) :
  bind (when b m) k st = if b then bind m k st else k tt st.
Proof. destruct b; [reflexivity|]. apply bind_pure. Qed.

Lemma run_pure {A} (a : A) (st : state) : pure a st = (Ret a, st, []).
Proof. reflexivity. Qed.

Lemma run_write (upd : g_tags_t -> g_tags_t) (st : state) :
  write upd st =
  (Ret tt, mk_state (upd (g_tags st)) (env st) (atexit_fns st), []).
Proof. reflexivity. Qed.

End MonadFacts.

Ltac simpl_state :=
  cbv beta;
  cbn [g_tags env atexit_fns loop sigint exit_notifier parser config_logdir
       config_logfile config_lsp_log_level flags_shutdown set_loop set_parser
       set_config_logdir set_config_logfile set_sigint set_exit_notifier
       set_flags_shutdown set_config_lsp_log_level].

Ltac exec1 :=
  first
    [ rewrite bind_assoc
    | rewrite bind_pure
    | rewrite bind_read
    | rewrite bind_write
    | rewrite bind_abort
    | rewrite bind_exit
    | rewrite run_pure
    | rewrite run_write
    | rewrite bind_ext; simpl_state;
      match goal with
      | |- context [let (_, _) := respond ?c ?w in _] =>
          let w' := fresh "w" in
          let r := fresh "r" in
          destruct (respond c w) as [w' r]
      end ];
  simpl_state.

Ltac exec := repeat exec1.

(** A test [r != 0] on an answer: the two ways on. *)
Ltac branch H :=
  match goal with
  | |- context [if negb (?r =? 0) then _ else _] =>
      destruct (r =? 0) eqn:H; cbn [negb];
      [apply Z.eqb_eq in H; subst r | apply Z.eqb_neq in H]
  end.

(** ** Shutdown *)

Section ShutdownFacts.

Context `{E : Externals}.

Lemma drain_turns_app (l : ptr) (t1 t2 : list event) :
  drain_turns l t1 -> drain_turns l t2 -> drain_turns l (t1 ++ t2).
Proof.
  revert t1. fix IH 1. intros [|[c n] [|[c' r] t1]]; cbn; intros H1 H2;
    try assumption; try (now destruct c).
  destruct c; try contradiction. destruct c'; try contradiction.
  destruct mode; try contradiction.
  destruct H1 as (Hn & Hl & H1). repeat split; try assumption.
  now apply IH.
Qed.

Lemma drain_turns_no_teardown (l : ptr) (t : list event) :
  drain_turns l t -> Forall (fun e => teardown_call (fst e) = false) t.
Proof.
  revert t. fix IH 1. intros [|[c n] [|[c' r] t]]; cbn; intros H;
    try (constructor; fail); try (now destruct c).
  destruct c; try contradiction. destruct c'; try contradiction.
  destruct mode; try contradiction.
  destruct H as (_ & _ & H). repeat constructor. now apply IH.
Qed.

(** The wait loop touches nothing but the world; it runs whole turns and
    returns on reading a zero queue size, or runs out of fuel. *)
Lemma wait_shape (fuel : nat) (st : state) :
  let '(o, st', t) := _wait_for_pending_task fuel st in
  g_tags st' = g_tags st /\ atexit_fns st' = atexit_fns st /\
  exists turns,
    drain_turns (loop (g_tags st)) turns /\
    ((o = Timeout /\ t = turns) \/
     (o = Ret tt /\ t = turns ++ [(c_lsp_work_queue_size, 0)])).
Proof.
  revert st. induction fuel as [|fuel IH]; intros st.
  - cbn. repeat split. exists []. split; [exact I|]. now left.
  - cbn [_wait_for_pending_task]. unfold_M. answer.
    destruct (r =? 0) eqn:Hr0; cbn [negb].
    + apply Z.eqb_eq in Hr0. subst r. repeat split.
      exists []. split; [exact I|]. now right.
    + apply Z.eqb_neq in Hr0. cbn [g_tags env atexit_fns]. answer.
      match goal with
      | |- context [_wait_for_pending_task fuel ?s] =>
          specialize (IH s); destruct (_wait_for_pending_task fuel s)
            as [[o st'] t]
      end.
      cbn [g_tags] in IH. destruct IH as (Hg & Hf & turns & Hturns & Hend).
      assert (Hstep : drain_turns (loop (g_tags st))
                        ((c_lsp_work_queue_size, r)
                           :: (c_uv_run (loop (g_tags st)) UV_RUN_ONCE, r0)
                           :: turns))
        by (cbn; auto).
      destruct Hend as [[-> ->]|[-> ->]]; repeat split; try assumption;
        eexists; (split; [exact Hstep|]); [now left|now right].
Qed.

(** If the work source drains in [n] iterations, more than [n] units of
    fuel let the loop return, after exactly [n] turns. *)
Lemma wait_terminates (n : nat) :
  forall st fuel,
    drains_in n (loop (g_tags st)) (env st) -> (n < fuel)%nat ->
    let '(o, _, t) := _wait_for_pending_task fuel st in
    o = Ret tt /\ List.length t = (2 * n + 1)%nat.
Proof.
  induction n as [|n IH]; intros st [|fuel] Hd Hlt; try lia.
  - cbn in Hd. cbn [_wait_for_pending_task]. unfold_M. answer.
    cbn in Hd. subst r. cbn. split; reflexivity.
  - cbn [drains_in] in Hd. destruct Hd as [Hq Hd].
    cbn [_wait_for_pending_task]. unfold_M. answer.
    cbn in Hq. apply Z.eqb_neq in Hq. rewrite Hq. cbn [negb].
    cbn [g_tags env atexit_fns]. cbn [fst] in Hd. answer. cbn [fst] in Hd.
    match goal with
    | |- context [_wait_for_pending_task fuel ?s] =>
        specialize (IH s fuel Hd ltac:(lia));
          destruct (_wait_for_pending_task fuel s) as [[o st'] t]
    end.
    destruct IH as [-> Hlen]. split; [reflexivity|].
    cbn [List.length List.app]. lia.
Qed.

Lemma answers_calls (cs : list call) (w : world) :
  map fst (snd (answers cs w)) = cs.
Proof.
  revert w. induction cs as [|c cs IH]; intros w; cbn; [reflexivity|].
  destruct (respond c w) as [w1 r]. specialize (IH w1).
  destruct (answers cs w1) as [w2 t]. cbn in *. now f_equal.
Qed.

Lemma answers_app (cs1 cs2 : list call) (w : world) :
  answers (cs1 ++ cs2) w =
  let (w1, t1) := answers cs1 w in
  let (w2, t2) := answers cs2 w1 in
  (w2, t1 ++ t2).
Proof.
  revert w. induction cs1 as [|c cs1 IH]; intros w; cbn.
  - now destruct (answers cs2 w).
  - destruct (respond c w) as [w1 r]. rewrite IH.
    destruct (answers cs1 w1) as [w2 t1].
    now destruct (answers cs2 w2).
Qed.

(** [_cleanup_loop], statement by statement. *)
Lemma cleanup_loop_run (st : state) :
  _cleanup_loop st =
  let l := loop (g_tags st) in
  if l =? NULL then (Ret tt, st, []) else
  let (w1, r1) := respond (c_uv_run l UV_RUN_DEFAULT) (env st) in
  if negb (r1 =? 0) then
    (Abort, mk_state (g_tags st) w1 (atexit_fns st),
     [(c_uv_run l UV_RUN_DEFAULT, r1)])
  else
  let (w2, r2) := respond (c_uv_loop_close l) w1 in
  if negb (r2 =? 0) then
    (Abort, mk_state (g_tags st) w2 (atexit_fns st),
     [(c_uv_run l UV_RUN_DEFAULT, r1); (c_uv_loop_close l, r2)])
  else
  let (w3, r3) := respond (c_lsp_free l) w2 in
  (Ret tt, mk_state (set_loop NULL (g_tags st)) w3 (atexit_fns st),
   [(c_uv_run l UV_RUN_DEFAULT, r1); (c_uv_loop_close l, r2);
    (c_lsp_free l, r3)]).
Proof.
  unfold _cleanup_loop. cbv zeta. exec.
  destruct (loop (g_tags st) =? NULL); [reflexivity|]. exec.
  destruct (r =? 0); cbn [negb]; [|reflexivity]. exec.
  destruct (r0 =? 0); cbn [negb]; [|reflexivity]. exec. reflexivity.
Qed.

(** [_at_exit_stage_1] and the call before it. *)
Lemma closing_run (st : state) :
  (ext c_lsp_method_cleanup ;;; _at_exit_stage_1) st =
  let (w, t) := answers (closing_calls (g_tags st)) (env st) in
  (Ret tt, mk_state (g_tags st) w (atexit_fns st), t).
Proof.
  unfold _at_exit_stage_1, closing_calls. cbn [answers].
  repeat (exec; cbn [answers]). reflexivity.
Qed.

Ltac guards :=
  repeat (exec; cbn [answers List.app];
          match goal with
          | |- context [when (negb (?p =? NULL))] =>
              let H := fresh "Hnull" in
              destruct (p =? NULL) eqn:H; cbn [negb answers List.app];
              rewrite bind_when; [apply Z.eqb_eq in H; subst p|]
          end).

(** [_at_exit_stage_2]: the guarded calls, and every owned slot but [loop]
    cleared. *)
Lemma stage_2_run (st : state) :
  _at_exit_stage_2 st =
  let g := g_tags st in
  let (w, t) := answers (release_calls g) (env st) in
  (Ret tt,
   mk_state (mk_g_tags (loop g) NULL NULL NULL NULL NULL
               (config_lsp_log_level g) (flags_shutdown g))
            w (atexit_fns st),
   t).
Proof.
  destruct st as [[l s n p d f lv fl] w fns].
  unfold _at_exit_stage_2, release_calls, guard. cbv zeta. simpl_state.
  guards; repeat (exec; cbn [answers List.app]); reflexivity.
Qed.

Lemma release_calls_set_loop (v : ptr) (g : g_tags_t) :
  release_calls (set_loop v g) = release_calls g.
Proof. reflexivity. Qed.

(** Tear-down: the close requests; then the reactor is destroyed, or found
    active; then what is left is released. *)
Lemma teardown_cases (st : state) :
  let g := g_tags st in
  let '(o, st', t) := teardown st in
  atexit_fns st' = atexit_fns st /\
  exists t1,
    map fst t1 = closing_calls g /\
    ((exists t2,
         o = Abort /\ t = t1 ++ t2 /\ loop g <> NULL /\
         aborting (loop g) t2 /\ g_tags st' = g) \/
     (exists t2 t3 r,
         o = Ret tt /\ t = t1 ++ t2 ++ t3 ++ [(c_uv_library_shutdown, r)] /\
         map fst t2 = reactor_calls g /\
         (forall l m r', In (c_uv_run l m, r') t2 -> r' = 0) /\
         (forall l r', In (c_uv_loop_close l, r') t2 -> r' = 0) /\
         map fst t3 = release_calls g /\
         g_tags st' = released g)).
Proof.
  cbv zeta. unfold teardown. rewrite <- bind_assoc. unfold bind at 1.
  rewrite closing_run.
  pose proof (answers_calls (closing_calls (g_tags st)) (env st)) as Hc.
  destruct (answers (closing_calls (g_tags st)) (env st)) as [w1 t1].
  cbn [snd] in Hc. unfold bind at 1. rewrite cleanup_loop_run.
  cbv zeta. simpl_state. unfold reactor_calls.
  destruct (loop (g_tags st) =? NULL) eqn:Hl.
  - (* no reactor *)
    apply Z.eqb_eq in Hl. unfold bind at 1. rewrite stage_2_run.
    cbv zeta. simpl_state.
    pose proof (answers_calls (release_calls (g_tags st)) w1) as Hr.
    destruct (answers (release_calls (g_tags st)) w1) as [w3 t3].
    cbn [snd] in Hr. exec. split; [reflexivity|].
    exists t1. split; [exact Hc|]. right. exists [], t3, r.
    repeat split; try assumption; try (intros; contradiction).
    unfold released. now rewrite Hl.
  - apply Z.eqb_neq in Hl.
    destruct (respond (c_uv_run _ _) w1) as [w2 r2].
    destruct (r2 =? 0) eqn:Hr2; cbn [negb].
    2:{ apply Z.eqb_neq in Hr2. split; [reflexivity|].
        exists t1. split; [exact Hc|]. left. eexists.
        repeat split; try assumption. left. now exists r2. }
    apply Z.eqb_eq in Hr2. subst r2.
    destruct (respond (c_uv_loop_close _) w2) as [w3 r3].
    destruct (r3 =? 0) eqn:Hr3; cbn [negb].
    2:{ apply Z.eqb_neq in Hr3. split; [reflexivity|].
        exists t1. split; [exact Hc|]. left. eexists.
        repeat split; try assumption. right. now exists r3. }
    apply Z.eqb_eq in Hr3. subst r3.
    destruct (respond (c_lsp_free _) w3) as [w4 r4].
    unfold bind at 1. rewrite stage_2_run. cbv zeta. simpl_state.
    rewrite release_calls_set_loop.
    pose proof (answers_calls (release_calls (g_tags st)) w4) as Hr.
    destruct (answers (release_calls (g_tags st)) w4) as [w5 t5].
    cbn [snd] in Hr. exec. split; [reflexivity|].
    exists t1. split; [exact Hc|]. right.
    eexists _, t5, r.
    split; [reflexivity|]. split; [reflexivity|]. split; [reflexivity|].
    split; [|split; [|split; [exact Hr|reflexivity]]].
    + intros l m r' [H|[H|[H|[]]]]; congruence.
    + intros l r' [H|[H|[H|[]]]]; congruence.
Qed.

(** [_at_exit] is: set the flag, log, cancel, wait, tear down. *)
Lemma at_exit_run (fuel : nat) (st : state) :
  exists r1 r2,
    _at_exit fuel st =
    let '(o, st2, t2) :=
      (_wait_for_pending_task fuel ;;; teardown)
        (mk_state (set_flags_shutdown 1 (g_tags st)) (at_drain_start st)
           (atexit_fns st)) in
    (o, st2,
     (c_LSP_LOG LSP_MSG_DEBUG "cleanup..." [], r1)
       :: (c_lsp_msg_cancel_all_pending_request, r2) :: t2).
Proof.
  unfold _at_exit, at_drain_start, teardown.
  rewrite bind_write, bind_ext. simpl_state.
  destruct (respond (c_LSP_LOG _ _ _) (env st)) as [w r]. cbn [fst].
  rewrite bind_ext. simpl_state.
  destruct (respond c_lsp_msg_cancel_all_pending_request w) as [w0 r0].
  cbn [fst]. exists r, r0.
  now destruct (bind (_wait_for_pending_task fuel) _ _) as [[o s] t].
Qed.

(** The two ways [_at_exit] goes: the wait runs out of fuel, or it returns
    on a zero queue size and tear-down follows. *)
Lemma at_exit_cases (fuel : nat) (st : state) :
  let g1 := set_flags_shutdown 1 (g_tags st) in
  let st1 := mk_state g1 (at_drain_start st) (atexit_fns st) in
  let '(o, st', t) := _at_exit fuel st in
  exists r1 r2 turns,
    drain_turns (loop (g_tags st)) turns /\
    ((o = Timeout /\ g_tags st' = g1 /\ atexit_fns st' = atexit_fns st /\
      fst (fst (_wait_for_pending_task fuel st1)) = Timeout /\
      t = (c_LSP_LOG LSP_MSG_DEBUG "cleanup..." [], r1)
            :: (c_lsp_msg_cancel_all_pending_request, r2) :: turns) \/
     (exists s1 td,
         _wait_for_pending_task fuel st1 =
           (Ret tt, s1, turns ++ [(c_lsp_work_queue_size, 0)]) /\
         g_tags s1 = g1 /\ atexit_fns s1 = atexit_fns st /\
         teardown s1 = (o, st', td) /\
         t = (c_LSP_LOG LSP_MSG_DEBUG "cleanup..." [], r1)
               :: (c_lsp_msg_cancel_all_pending_request, r2)
               :: turns ++ (c_lsp_work_queue_size, 0) :: td)).
Proof.
  cbv zeta. destruct (at_exit_run fuel st) as (r1 & r2 & ->).
  unfold bind.
  pose proof (wait_shape fuel
                (mk_state (set_flags_shutdown 1 (g_tags st))
                   (at_drain_start st) (atexit_fns st))) as Hw.
  destruct (_wait_for_pending_task fuel _) as [[o1 s1] t1].
  cbn [g_tags atexit_fns] in Hw.
  destruct Hw as (Hg & Hf & turns & Hturns & [[-> ->]|[-> ->]]).
  - exists r1, r2, turns. split; [exact Hturns|]. left. now repeat split.
  - destruct (teardown s1) as [[o st'] td] eqn:Htd.
    exists r1, r2, turns. split; [exact Hturns|]. right. exists s1, td.
    repeat split; try assumption. now rewrite <- app_assoc.
Qed.

Lemma split_after_prefix {A} (P : A -> bool) (a b t1 t2 : list A) (e : A) :
  a ++ b = t1 ++ e :: t2 ->
  Forall (fun x => P x = false) a -> P e = true ->
  exists b1, t1 = a ++ b1 /\ b = b1 ++ e :: t2.
Proof.
  revert t1. induction a as [|x a IH]; intros t1 Heq Ha He.
  - now exists t1.
  - inversion Ha as [|? ? Hx Ha']; subst. destruct t1 as [|y t1].
    + cbn in Heq. injection Heq as -> _. congruence.
    + cbn in Heq. injection Heq as -> Heq.
      destruct (IH t1 Heq Ha' He) as (b1 & -> & ->). now exists b1.
Qed.

End ShutdownFacts.

(** C1: in every run of [_at_exit], the events after the log line and the
    cancellation are whole turns of the wait loop (the queue size read and
    not zero, then one single reactor iteration), followed - unless the fuel
    ran out inside the loop - by a read of the queue size that gave zero;
    every tear-down call, the handle closes among them, comes after that
    read; and when the work source drains in [n] iterations, more than [n]
    units of fuel are enough for the loop to be left, after exactly [n]
    turns. *)
Theorem drain_before_teardown `{E : Externals} (fuel : nat) (st : state) :
  let l := loop (g_tags st) in
  let '(o, _, t) := _at_exit fuel st in
  (exists r1 r2 turns rest,
      t = (c_LSP_LOG LSP_MSG_DEBUG "cleanup..." [], r1)
            :: (c_lsp_msg_cancel_all_pending_request, r2) :: turns ++ rest /\
      drain_turns l turns /\
      ((o = Timeout /\ rest = []) \/
       (o <> Timeout /\
        exists rest', rest = (c_lsp_work_queue_size, 0) :: rest'))) /\
  (forall t1 e t2,
      t = t1 ++ e :: t2 -> teardown_call (fst e) = true ->
      In (c_lsp_work_queue_size, 0) t1) /\
  (forall n,
      drains_in n l (at_drain_start st) -> (n < fuel)%nat ->
      o <> Timeout /\
      exists r1 r2 turns rest',
        t = (c_LSP_LOG LSP_MSG_DEBUG "cleanup..." [], r1)
              :: (c_lsp_msg_cancel_all_pending_request, r2)
              :: turns ++ (c_lsp_work_queue_size, 0) :: rest' /\
        drain_turns l turns /\ List.length turns = (2 * n)%nat).
Proof.
  cbv zeta. pose proof (at_exit_cases fuel st) as Hc. cbv zeta in Hc.
  destruct (_at_exit fuel st) as [[o st'] t].
  destruct Hc as (r1 & r2 & turns & Hturns & Hc).
  assert (Hshape :
    exists rest,
      t = (c_LSP_LOG LSP_MSG_DEBUG "cleanup..." [], r1)
            :: (c_lsp_msg_cancel_all_pending_request, r2) :: turns ++ rest /\
      ((o = Timeout /\ rest = []) \/
       (o <> Timeout /\
        exists rest', rest = (c_lsp_work_queue_size, 0) :: rest'))).
  { destruct Hc as [(-> & _ & _ & _ & ->)|(s1 & td & Hw & Hg & Hf & Htd & ->)].
    - exists []. rewrite app_nil_r. split; [reflexivity|]. now left.
    - exists ((c_lsp_work_queue_size, 0) :: td). split; [reflexivity|].
      right. split; [|now exists td].
      pose proof (teardown_cases s1) as Hcases. cbv zeta in Hcases.
      rewrite Htd in Hcases.
      destruct Hcases as (_ & t1 & _ & [(t2 & -> & _)|(t2 & t3 & r & -> & _)]);
        discriminate. }
  destruct Hshape as (rest & Ht & Hrest).
  split; [|split].
  - exists r1, r2, turns, rest. now repeat split.
  - intros t1 e t2 Hsplit He.
    assert (Hpre : Forall (fun x => teardown_call (fst x) = false)
                     ((c_LSP_LOG LSP_MSG_DEBUG "cleanup..." [], r1)
                        :: (c_lsp_msg_cancel_all_pending_request, r2)
                        :: turns)).
    { repeat constructor. now apply drain_turns_no_teardown with (l := loop (g_tags st)). }
    rewrite Ht in Hsplit.
    change (((c_LSP_LOG LSP_MSG_DEBUG "cleanup..." [], r1)
               :: (c_lsp_msg_cancel_all_pending_request, r2) :: turns) ++ rest
            = t1 ++ e :: t2) in Hsplit.
    destruct (split_after_prefix (fun x => teardown_call (fst x)) _ _ _ _ _
                Hsplit Hpre He) as (b1 & -> & Hb).
    destruct Hrest as [[_ ->]|[_ [rest' ->]]].
    + now destruct b1.
    + destruct b1 as [|x b1].
      * cbn in Hb. injection Hb as <- _. discriminate.
      * cbn in Hb. injection Hb as <- _. apply in_or_app. right. now left.
  - intros n Hd Hlt.
    pose proof (wait_terminates n
                  (mk_state (set_flags_shutdown 1 (g_tags st))
                     (at_drain_start st) (atexit_fns st)) fuel Hd Hlt) as Hw.
    destruct Hc as [(_ & _ & _ & Hto & _)|(s1 & td & Hrun & _ & _ & _ & ->)].
    + destruct (_wait_for_pending_task fuel _) as [[o1 s1] t1].
      cbn in Hto. destruct Hw as [-> _]. discriminate.
    + rewrite Hrun in Hw. destruct Hw as [_ Hlen].
      destruct Hrest as [[_ ->]|[Ho _]].
      * rewrite app_nil_r in Ht. injection Ht as Ht.
        apply (f_equal (@List.length _)) in Ht.
        rewrite length_app in Ht. cbn in Ht. unfold event in *. lia.
      * split; [exact Ho|]. exists r1, r2, turns, td.
        split; [reflexivity|]. split; [exact Hturns|].
        rewrite length_app in Hlen. cbn in Hlen. unfold event in *. lia.
Qed.

Lemma drain_before_teardown_witness :
  let st := Sim.running 3 in
  drains_in (E := Sim.sim_externals) 3 (loop (g_tags st)) (at_drain_start st) /\
  (3 < 10)%nat /\
  fst (fst (_at_exit (E := Sim.sim_externals) 10 st)) <> Timeout.
Proof.
  cbv zeta.
  assert (Hd : drains_in (E := Sim.sim_externals) 3
                 (loop (g_tags (Sim.running 3)))
                 (at_drain_start (Sim.running 3)))
    by (vm_compute; repeat split; discriminate).
  assert (Hlt : (3 < 10)%nat) by lia.
  split; [exact Hd|]. split; [exact Hlt|].
  pose proof (drain_before_teardown (E := Sim.sim_externals) 10
                (Sim.running 3)) as H.
  cbv zeta in H.
  destruct (_at_exit 10 (Sim.running 3)) as [[o st'] t].
  destruct H as (_ & _ & H). exact (proj1 (H 3%nat Hd Hlt)).
Defined.

Section OrderFacts.

Context `{E : Externals}.

Lemma drain_turns_calls (l : ptr) (t : list event) :
  drain_turns l t ->
  Forall (fun e => fst e = c_lsp_work_queue_size \/
                   fst e = c_uv_run l UV_RUN_ONCE) t.
Proof.
  revert t. fix IH 1. intros [|[c n] [|[c' r] t]]; cbn; intros H;
    try (constructor; fail); try (now destruct c).
  destruct c; try contradiction. destruct c'; try contradiction.
  destruct mode; try contradiction.
  destruct H as (_ & -> & H).
  constructor; [now left|]. constructor; [now right|]. now apply IH.
Qed.

Lemma drain_turns_release_nothing (l : ptr) (t : list event) :
  drain_turns l t ->
  Forall (fun e => releasing_call (fst e) = false /\ freed_by (fst e) = [] /\
                   closed_by (fst e) = []) t.
Proof.
  intros H. apply drain_turns_calls in H.
  eapply Forall_impl; [|exact H]. intros [c r] [Hc|Hc]; cbn in Hc; subst c;
    now repeat split.
Qed.

Lemma calls_forall (P : call -> Prop) (t : list event) (cs : list call) :
  map fst t = cs -> Forall P cs -> Forall (fun e => P (fst e)) t.
Proof.
  intros <- H. induction t as [|e t IH]; [constructor|].
  cbn in H. inversion H; subst. constructor; auto.
Qed.

Lemma closing_calls_release_nothing (g : g_tags_t) :
  Forall (fun c => releasing_call c = false /\ freed_by c = [])
    (closing_calls g).
Proof. unfold closing_calls. repeat constructor. Qed.

End OrderFacts.

(** C7: when [_at_exit] returns, its events are: first events that give
    nothing back; then the destruction of the reactor (the final run and the
    loop close, both answering 0, and the free of the loop), if there is a
    loop; then the releases in this order - the parser, the two
    configuration strings, the storage of the signal handle and of the
    notifier, each if it is there - and the library shutdown.  When
    [_at_exit] does not return, nothing was freed. *)
Theorem release_in_dependency_order `{E : Externals} (fuel : nat)
    (st : state) :
  let g := g_tags st in
  let '(o, _, t) := _at_exit fuel st in
  (o = Ret tt ->
   exists t0 t2 t3,
     t = t0 ++ t2 ++ t3 /\
     Forall (fun e => releasing_call (fst e) = false) t0 /\
     map fst t2 = reactor_calls g /\
     (forall l r, In (c_uv_loop_close l, r) t2 -> r = 0) /\
     map fst t3 = release_calls g ++ [c_uv_library_shutdown]) /\
  (o <> Ret tt -> Forall (fun e => freed_by (fst e) = []) t).
Proof.
  cbv zeta. pose proof (at_exit_cases fuel st) as Hc. cbv zeta in Hc.
  destruct (_at_exit fuel st) as [[o st'] t].
  destruct Hc as (r1 & r2 & turns & Hturns & Hc).
  pose proof (drain_turns_release_nothing _ _ Hturns) as Hnone.
  destruct Hc as [(-> & _ & _ & _ & ->)|(s1 & td & _ & Hg & _ & Htd & ->)].
  - split; [discriminate|]. intros _. repeat constructor.
    eapply Forall_impl; [|exact Hnone]. now intros e (_ & H & _).
  - pose proof (teardown_cases s1) as Hcases. cbv zeta in Hcases.
    rewrite Htd, Hg in Hcases.
    destruct Hcases as (_ & t1 & Ht1 & Hcases).
    change (closing_calls (set_flags_shutdown 1 (g_tags st)))
      with (closing_calls (g_tags st)) in Ht1.
    pose proof (calls_forall _ t1 _ Ht1 (closing_calls_release_nothing _))
      as Hclosing.
    destruct Hcases as [(t2 & -> & -> & _ & Hab & _)
                       |(t2 & t3 & r & -> & -> & Ht2 & _ & Hz & Ht3 & _)].
    + split; [discriminate|]. intros _. repeat constructor.
      apply Forall_app. split.
      { eapply Forall_impl; [|exact Hnone]. now intros e (_ & H & _). }
      constructor; [reflexivity|]. apply Forall_app. split.
      { eapply Forall_impl; [|exact Hclosing]. now intros e (_ & H). }
      destruct Hab as [(r & _ & ->)|(r & _ & ->)]; repeat constructor.
    + split; [|congruence]. intros _.
      exists ((c_LSP_LOG LSP_MSG_DEBUG "cleanup..." [], r1)
                :: (c_lsp_msg_cancel_all_pending_request, r2)
                :: turns ++ (c_lsp_work_queue_size, 0) :: t1),
        t2, (t3 ++ [(c_uv_library_shutdown, r)]).
      split.
      { cbn [List.app]. do 2 f_equal. rewrite <- app_assoc. reflexivity. }
      split.
      { repeat constructor. apply Forall_app. split.
        - eapply Forall_impl; [|exact Hnone]. now intros e (H & _).
        - constructor; [reflexivity|].
          eapply Forall_impl; [|exact Hclosing]. now intros e (H & _). }
      split; [exact Ht2|]. split; [exact Hz|].
      rewrite map_app, Ht3. reflexivity.
Qed.

(** C4: with a loop to destroy, [_cleanup_loop] aborts when the final
    reactor run returns non-zero, and when that run returns zero but closing
    the loop fails; [g_tags] is then as it was and the failing call is the
    last event.  When the reactor reports no activity (both calls answer
    zero) no abort branch is taken: the loop is freed and its slot cleared.
    That is the case whenever every handle has been closed or asked to
    close, for a reactor that then runs to completion with nothing left to
    do and lets a drained loop be closed. *)
Theorem cleanup_loop_aborts_on_activity `{E : Externals} (st : state) :
  loop (g_tags st) <> NULL ->
  let l := loop (g_tags st) in
  let (w1, r1) := respond (c_uv_run l UV_RUN_DEFAULT) (env st) in
  let (_, r2) := respond (c_uv_loop_close l) w1 in
  let '(o, st', t) := _cleanup_loop st in
  (r1 <> 0 ->
   o = Abort /\ g_tags st' = g_tags st /\
   t = [(c_uv_run l UV_RUN_DEFAULT, r1)]) /\
  (r1 = 0 -> r2 <> 0 ->
   o = Abort /\ g_tags st' = g_tags st /\
   t = [(c_uv_run l UV_RUN_DEFAULT, 0); (c_uv_loop_close l, r2)]) /\
  (r1 = 0 -> r2 = 0 ->
   o = Ret tt /\ g_tags st' = set_loop NULL (g_tags st) /\
   map fst t = [c_uv_run l UV_RUN_DEFAULT; c_uv_loop_close l; c_lsp_free l]) /\
  (forall all_closing drained : world -> Prop,
      (forall l w,
          all_closing w ->
          snd (respond (c_uv_run l UV_RUN_DEFAULT) w) = 0 /\
          drained (fst (respond (c_uv_run l UV_RUN_DEFAULT) w))) ->
      (forall l w, drained w -> snd (respond (c_uv_loop_close l) w) = 0) ->
      all_closing (env st) ->
      o = Ret tt).
Proof.
  intros Hl. cbv zeta. rewrite cleanup_loop_run. cbv zeta.
  apply Z.eqb_neq in Hl. rewrite Hl.
  destruct (respond (c_uv_run _ _) (env st)) as [w1 r1] eqn:Hrun.
  destruct (respond (c_uv_loop_close _) w1) as [w2 r2] eqn:Hclose.
  assert (Hcontract :
    forall all_closing drained : world -> Prop,
      (forall l w,
          all_closing w ->
          snd (respond (c_uv_run l UV_RUN_DEFAULT) w) = 0 /\
          drained (fst (respond (c_uv_run l UV_RUN_DEFAULT) w))) ->
      (forall l w, drained w -> snd (respond (c_uv_loop_close l) w) = 0) ->
      all_closing (env st) -> r1 = 0 /\ r2 = 0).
  { intros all_closing drained Hr Hc Hst.
    destruct (Hr (loop (g_tags st)) (env st) Hst) as [H1 Hd].
    rewrite Hrun in H1, Hd. cbn [fst snd] in H1, Hd.
    specialize (Hc (loop (g_tags st)) w1 Hd). rewrite Hclose in Hc.
    now split. }
  destruct (r1 =? 0) eqn:H1; cbn [negb].
  - apply Z.eqb_eq in H1. subst r1.
    destruct (r2 =? 0) eqn:H2; cbn [negb].
    + apply Z.eqb_eq in H2. subst r2.
      destruct (respond (c_lsp_free _) w2) as [w3 r3].
      repeat split; intros; congruence.
    + apply Z.eqb_neq in H2.
      split; [|split; [|split]]; try (intros; repeat split; congruence).
      intros ac dr Hr Hc Hst. destruct (Hcontract ac dr Hr Hc Hst).
      congruence.
  - apply Z.eqb_neq in H1.
    split; [|split; [|split]]; try (intros; repeat split; congruence).
    intros ac dr Hr Hc Hst. destruct (Hcontract ac dr Hr Hc Hst).
    congruence.
Qed.

Lemma cleanup_loop_aborts_on_activity_witness :
  loop (g_tags Sim.closing_down) <> NULL /\
  Sim.open_handles (env Sim.closing_down) = [] /\
  fst (fst (_cleanup_loop (E := Sim.sim_externals) Sim.closing_down)) = Ret tt.
Proof.
  assert (Hl : loop (g_tags Sim.closing_down) <> NULL)
    by (vm_compute; discriminate).
  assert (Hopen : Sim.open_handles (env Sim.closing_down) = [])
    by (vm_compute; reflexivity).
  split; [exact Hl|]. split; [exact Hopen|].
  pose proof (cleanup_loop_aborts_on_activity (E := Sim.sim_externals)
                Sim.closing_down Hl) as H.
  cbv zeta in H.
  destruct (respond (c_uv_run _ _) (env Sim.closing_down)) as [w1 r1].
  destruct (respond (c_uv_loop_close _) w1) as [w2 r2].
  destruct (_cleanup_loop Sim.closing_down) as [[o st'] t].
  destruct H as (_ & _ & _ & H).
  apply (H (fun w => Sim.open_handles w = [])
           (fun w => Sim.open_handles w = [] /\ Sim.closing w = [])).
  - intros l w Hw. destruct w as [q b op cl]. cbn in Hw. subst op.
    cbn. repeat split.
  - intros l w [Hw Hc]. destruct w as [q b op cl]. cbn in Hw, Hc.
    subst op cl. reflexivity.
  - exact Hopen.
Defined.

(** A leak in the simulated reactor: a handle nobody closed.  The final run
    reports it and the process aborts. *)
Example cleanup_loop_leak :
  fst (fst (_cleanup_loop (E := Sim.sim_externals) (Sim.running 0))) = Abort.
Proof. vm_compute. reflexivity. Qed.

(** ** Start-up and the process *)

Section StartupFacts.

Import Options.

Context `{E : Externals}.

Lemma keeps_hooks_pure {A} (a : A) : keeps_hooks (pure a).
Proof. now intros st. Qed.

Lemma keeps_hooks_ext (c : call) : keeps_hooks (ext c).
Proof. intros st. unfold ext. now destruct (respond c (env st)). Qed.

Lemma keeps_hooks_read {A} (f : g_tags_t -> A) : keeps_hooks (read f).
Proof. now intros st. Qed.

Lemma keeps_hooks_write (upd : g_tags_t -> g_tags_t) :
  keeps_hooks (write upd).
Proof. now intros st. Qed.

Lemma keeps_hooks_abort {A} : keeps_hooks (@abort E A).
Proof. now intros st. Qed.

Lemma keeps_hooks_exit {A} (status : Z) : keeps_hooks (@exit E A status).
Proof. now intros st. Qed.

Lemma keeps_hooks_timeout {A} : keeps_hooks (@timeout E A).
Proof. now intros st. Qed.

Lemma keeps_hooks_bind {A B} (m : M A) (k : A -> M B) :
  keeps_hooks m -> (forall a, keeps_hooks (k a)) -> keeps_hooks (bind m k).
Proof.
  intros Hm Hk st. unfold bind. specialize (Hm st).
  destruct (m st) as [[[a| | | ] s1] t1]; cbn in *; try assumption.
  specialize (Hk a s1). destruct (k a s1) as [[o s2] t2]. cbn in *.
  congruence.
Qed.

Lemma keeps_g_tags_pure {A} (a : A) : keeps_g_tags (pure a).
Proof. now intros st. Qed.

Lemma keeps_g_tags_ext (c : call) : keeps_g_tags (ext c).
Proof. intros st. unfold ext. now destruct (respond c (env st)). Qed.

Lemma keeps_g_tags_read {A} (f : g_tags_t -> A) : keeps_g_tags (read f).
Proof. now intros st. Qed.

Lemma keeps_g_tags_bind {A B} (m : M A) (k : A -> M B) :
  keeps_g_tags m -> (forall a, keeps_g_tags (k a)) -> keeps_g_tags (bind m k).
Proof.
  intros Hm Hk st. unfold bind. specialize (Hm st).
  destruct (m st) as [[[a| | | ] s1] t1]; cbn in *; try assumption.
  specialize (Hk a s1). destruct (k a s1) as [[o s2] t2]. cbn in *.
  congruence.
Qed.

Ltac keeps :=
  repeat first
    [ apply keeps_hooks_bind; [|intros ?]
    | apply keeps_hooks_pure | apply keeps_hooks_ext | apply keeps_hooks_read
    | apply keeps_hooks_write | apply keeps_hooks_abort
    | apply keeps_hooks_exit | apply keeps_hooks_timeout
    | apply keeps_g_tags_bind; [|intros ?]
    | apply keeps_g_tags_pure | apply keeps_g_tags_ext
    | apply keeps_g_tags_read
    | match goal with
      | |- keeps_hooks (when ?b _) => unfold when; destruct b
      | |- keeps_hooks (if ?b then _ else _) => destruct b
      | |- keeps_hooks (let (_, _) := ?x in _) => destruct x
      | |- keeps_g_tags (if ?b then _ else _) => destruct b
      end ].

Lemma parse_option_keeps_hooks (a : string) (io_cfg : tag_lsp_io_cfg_t)
    (ret : Z) : keeps_hooks (parse_option a io_cfg ret).
Proof. unfold parse_option. keeps. Qed.

Lemma parse_options_keeps_hooks (argv : list string) :
  forall io_cfg ret, keeps_hooks (parse_options argv io_cfg ret).
Proof.
  induction argv as [|a argv IH]; intros io_cfg ret; cbn [parse_options].
  - keeps.
  - apply keeps_hooks_bind; [apply parse_option_keeps_hooks|].
    intros [c r]. apply IH.
Qed.

Lemma initialize_keeps_hooks (argc : Z) (argv : list string) :
  keeps_hooks (_initialize argc argv).
Proof.
  unfold _initialize, _signal_sigint_init, _init_exit_notifier,
    _show_welecome, _parser_command_line_options.
  keeps. apply parse_options_keeps_hooks.
Qed.

Lemma at_exit_keeps_hooks (fuel : nat) : keeps_hooks (_at_exit fuel).
Proof.
  intros st. pose proof (at_exit_cases fuel st) as H. cbv zeta in H.
  destruct (_at_exit fuel st) as [[o st'] t]. cbn.
  destruct H as (r1 & r2 & turns & _ & [H|H]).
  - now destruct H as (_ & _ & H & _).
  - destruct H as (s1 & td & _ & _ & Hf & Htd & _).
    pose proof (teardown_cases s1) as Hc. cbv zeta in Hc. rewrite Htd in Hc.
    destruct Hc as [Hc _]. congruence.
Qed.


Lemma bind_atexit {B} (f : fn) (k : unit -> M B) (st : state) :
  bind (atexit f) k st =
  k tt (mk_state (g_tags st) (env st) (f :: atexit_fns st)).
Proof. unfold bind, atexit. now destruct (k tt _) as [[o s] t]. Qed.

Lemma parsing_is_startup (t : list event) :
  Forall (fun e => parsing_call (fst e) = true) t ->
  Forall (fun e => startup_call (fst e) = true) t.
Proof.
  apply Forall_impl. intros [c r]. cbn. now destruct c.
Qed.

(** [_initialize] on a vector with an argument that ends the process: the
    reactor is set up first (or the set-up fails and the process aborts),
    then parsing prints the message of that argument and calls [exit]. *)
Lemma initialize_stops (argc : Z) (argv : list string) (s : stop)
    (st : state) :
  Forall (fun a => no_nul a = true) argv ->
  first_stop argv = Some s ->
  let '(o, _, t) := _initialize argc argv st in
  Forall (fun e => startup_call (fst e) = true) t /\
  (o = Abort \/
   (o = Exit (status_of s) /\
    exists t0 r,
      t = t0 ++ [(c_fprintf_stderr (message_of s), r)] /\
      reactor_set_up t0)).
Proof.
  intros Hwf Hstop. unfold _initialize. exec.
  branch Hloop.
  2:{ exec. split; [repeat constructor|now left]. }
  unfold _signal_sigint_init. exec.
  branch Hsig.
  2:{ exec. split; [repeat constructor|now left]. }
  exec. unfold _init_exit_notifier. exec.
  unfold _parser_command_line_options. exec. unfold bind at 1.
  match goal with
  | |- context [parse_options argv ?c ?z ?s0] =>
      pose proof (parse_options_run argv Hwf c z s0 Stdio eq_refl) as Hrun;
        destruct (parse_options argv c z s0) as [[o st'] t]
  end.
  rewrite Hstop in Hrun. destruct Hrun as (_ & -> & t0 & r' & -> & Hpar).
  apply parsing_is_startup in Hpar. split.
  - repeat constructor. apply Forall_app. split; [exact Hpar|].
    repeat constructor.
  - right. split; [reflexivity|]. rewrite !app_comm_cons.
    eexists _, r'. split; [reflexivity|].
    unfold reactor_set_up. do 4 eexists. cbn [In].
    split; [do 3 right; left; reflexivity|].
    split; [do 5 right; left; reflexivity|].
    do 8 right; left; reflexivity.
Qed.

Lemma main_hooks (argc : Z) (argv : list string) (st : state) :
  atexit_fns (snd (fst (main argc argv st))) = fn_at_exit :: atexit_fns st.
Proof.
  unfold main. rewrite bind_ext. simpl_state.
  destruct (respond (c_signal_ignore SIGPIPE) (env st)) as [w r].
  rewrite bind_atexit.
  match goal with
  | |- context [bind (_initialize argc argv) ?k ?s] =>
      assert (Hk : keeps_hooks (bind (_initialize argc argv) k))
        by (apply keeps_hooks_bind;
            [apply initialize_keeps_hooks|intros ?; keeps]);
        specialize (Hk s); destruct (bind (_initialize argc argv) k s)
          as [[o st'] t]
  end.
  exact Hk.
Qed.

(** [main] on a vector with an argument that ends the process. *)
Lemma main_stops (argc : Z) (argv : list string) (s : stop) (st : state) :
  Forall (fun a => no_nul a = true) argv ->
  first_stop argv = Some s ->
  let '(o, _, t) := main argc argv st in
  Forall (fun e => startup_call (fst e) = true) t /\
  (o = Abort \/
   (o = Exit (status_of s) /\
    exists t0 r,
      t = t0 ++ [(c_fprintf_stderr (message_of s), r)] /\
      reactor_set_up t0)).
Proof.
  intros Hwf Hstop. unfold main. rewrite bind_ext. simpl_state.
  destruct (respond (c_signal_ignore SIGPIPE) (env st)) as [w r].
  rewrite bind_atexit. unfold bind at 1.
  match goal with
  | |- context [_initialize argc argv ?s0] =>
      pose proof (initialize_stops argc argv s s0 Hwf Hstop) as Hi;
        destruct (_initialize argc argv s0) as [[o st'] t]
  end.
  destruct Hi as [Hall [->|[-> (t0 & r' & -> & Hset)]]].
  - split; [now constructor|now left].
  - split; [now constructor|]. right. split; [reflexivity|].
    exists ((c_signal_ignore SIGPIPE, r) :: t0), r'. split; [reflexivity|].
    destruct Hset as (l & h1 & h2 & r2 & H1 & H2 & H3).
    exists l, h1, h2, r2. cbn [In]. auto.
Qed.

Lemma at_exit_outcome (fuel : nat) (st : state) :
  let o := fst (fst (_at_exit fuel st)) in
  o = Ret tt \/ o = Abort \/ o = Timeout.
Proof.
  cbv zeta. pose proof (at_exit_cases fuel st) as H. cbv zeta in H.
  destruct (_at_exit fuel st) as [[o st'] t]. cbn.
  destruct H as (r1 & r2 & turns & _ & [H|H]).
  - destruct H as (-> & _). auto.
  - destruct H as (s1 & td & _ & _ & _ & Htd & _).
    pose proof (teardown_cases s1) as Hc. cbv zeta in Hc. rewrite Htd in Hc.
    destruct Hc as (_ & t1 & _ & [(t2 & -> & _)|(t2 & t3 & r & -> & _)]); auto.
Qed.

(** The process: [main], and then the exit hook unless [main] aborted. *)
Lemma process_run (fuel : nat) (argc : Z) (argv : list string) (st : state) :
  atexit_fns st = [] ->
  process fuel argc argv st =
  match main argc argv st with
  | (Ret status, st1, t1) | (Exit status, st1, t1) =>
      let '(o, st2, t2) := _at_exit fuel st1 in
      (term_of o status, st2, t1 ++ t2)
  | (Abort, st1, t1) => (Aborted, st1, t1)
  | (Timeout, st1, t1) => (Hung, st1, t1)
  end.
Proof.
  intros Hfns. unfold process, at_process_exit.
  pose proof (main_hooks argc argv st) as Hh. rewrite Hfns in Hh.
  destruct (main argc argv st) as [[[status|status| | ] st1] t1];
    cbn in Hh; try reflexivity;
    rewrite Hh; cbn [run_atexit]; unfold bind, pure;
    destruct (_at_exit fuel st1) as [[[u|c| | ] st2] t2]; cbn [term_of];
    rewrite ?app_nil_r; reflexivity.
Qed.

Lemma process_stops (fuel : nat) (argc : Z) (argv : list string) (s : stop)
    (st : state) :
  Forall (fun a => no_nul a = true) argv ->
  first_stop argv = Some s ->
  atexit_fns st = [] ->
  let term := fst (fst (process fuel argc argv st)) in
  term = Exited (status_of s) \/ term = Aborted \/ term = Hung.
Proof.
  intros Hwf Hstop Hfns. cbv zeta. rewrite (process_run _ _ _ _ Hfns).
  pose proof (main_stops argc argv s st Hwf Hstop) as Hm.
  destruct (main argc argv st) as [[o st1] t1].
  destruct Hm as [_ [->|[-> _]]]; [cbn; auto|].
  pose proof (at_exit_outcome fuel st1) as Ho. cbv zeta in Ho.
  destruct (_at_exit fuel st1) as [[o2 st2] t2]. cbn in *.
  destruct Ho as [-> | [-> | ->]]; cbn; auto.
Qed.

End StartupFacts.

(** C6, as in the design document, fails: with [--port=abc] the process
    does exit with a non-zero status, but the reactor has been initialised
    before the options are read; and with [-h] in front of it the process
    exits with status 0. *)
Lemma bad_port_after_reactor_init :
  let run := main (E := Sim.sim_externals) 2 ["tags-lsp"; "--port=abc"]
               (Sim.start 0) in
  fst (fst run) = Exit EXIT_FAILURE /\
  In (c_uv_loop_init 4096, 0) (snd run) /\
  fst (fst (process (E := Sim.sim_externals) 10 2 ["tags-lsp"; "--port=abc"]
              (Sim.start 0))) = Exited EXIT_FAILURE /\
  fst (fst (process (E := Sim.sim_externals) 10 3
              ["tags-lsp"; "-h"; "--port=abc"] (Sim.start 0))) =
  Exited EXIT_SUCCESS.
Proof.
  cbv zeta. split; [vm_compute; reflexivity|]. split; [|split].
  - vm_compute. repeat (first [left; reflexivity | right]).
  - vm_compute. reflexivity.
  - vm_compute. reflexivity.
Qed.

(** What [%d] makes of [--port=12abc]: the port 12. *)
Example port_with_trailing_text :
  fst (fst (_parser_command_line_options (E := Sim.sim_externals)
              ["tags-lsp"; "--port=12abc"] (Sim.start 0))) =
  Ret (mk_io_cfg TAG_LSP_IO_PORT (data_port 12) fn_on_io_in).
Proof. vm_compute. reflexivity. Qed.

(** C6, amended: on a vector of C strings in which the first argument that
    ends the process is a [--port=] whose value [%d] cannot read, [main]
    sets up the reactor, the signal watcher and the exit notifier (and
    aborts if that fails), then prints the complaint about the value and
    calls [exit(EXIT_FAILURE)]; no call before that initialises the I/O
    layer or the log or runs the reactor.  The exit hook then runs, and the
    process ends with status 1 unless the hook aborts or does not return. *)
Theorem bad_port_exits_before_transport `{E : Externals} (fuel : nat)
    (argc : Z) (argv : list string) (v : string) (st : state) :
  Forall (fun a => no_nul a = true) argv ->
  Options.first_stop argv = Some (Options.StopBadPort v) ->
  atexit_fns st = [] ->
  (let '(o, _, t) := main argc argv st in
   Forall (fun e => startup_call (fst e) = true) t /\
   (o = Abort \/
    (o = Exit EXIT_FAILURE /\
     exists t0 r,
       t = t0 ++ [(c_fprintf_stderr
                     ("invalid value for `--port`: " +++ v +++ "." +++ LF),
                   r)] /\
       reactor_set_up t0))) /\
  (let term := fst (fst (process fuel argc argv st)) in
   term = Exited EXIT_FAILURE \/ term = Aborted \/ term = Hung).
Proof.
  intros Hwf Hstop Hfns. split.
  - exact (main_stops argc argv _ st Hwf Hstop).
  - exact (process_stops fuel argc argv _ st Hwf Hstop Hfns).
Qed.

Lemma bad_port_exits_before_transport_witness :
  let argv := ["tags-lsp"; "--stdio"; "--port=abc"] in
  Forall (fun a => no_nul a = true) argv /\
  Options.first_stop argv = Some (Options.StopBadPort "abc") /\
  atexit_fns (Sim.start 0) = [] /\
  fst (fst (process (E := Sim.sim_externals) 10 3 argv (Sim.start 0))) =
  Exited EXIT_FAILURE.
Proof.
  cbv zeta.
  assert (Hwf : Forall (fun a => no_nul a = true)
                  ["tags-lsp"; "--stdio"; "--port=abc"])
    by (repeat constructor).
  split; [exact Hwf|]. split; [reflexivity|]. split; [reflexivity|].
  destruct (bad_port_exits_before_transport (E := Sim.sim_externals) 10 3
              ["tags-lsp"; "--stdio"; "--port=abc"] "abc" (Sim.start 0)
              Hwf eq_refl eq_refl) as [_ [H|[H|H]]].
  - exact H.
  - vm_compute in H. discriminate H.
  - vm_compute in H. discriminate H.
Defined.

(** C8, as in the design document, fails: a vector can hold [-h] and still
    end with status 1 and no usage text, when an unreadable [--port=] comes
    first; and with [-h] alone the reactor has been initialised before the
    usage text is printed, and the exit hook runs it. *)
Lemma help_after_bad_port :
  let argv := ["tags-lsp"; "--port=abc"; "-h"] in
  let run := process (E := Sim.sim_externals) 10 3 argv (Sim.start 0) in
  let help := process (E := Sim.sim_externals) 10 2 ["tags-lsp"; "-h"]
                (Sim.start 0) in
  In "-h" argv /\
  fst (fst run) = Exited EXIT_FAILURE /\
  stderr_text (snd run) = ["invalid value for `--port`: abc." +++ LF] /\
  fst (fst help) = Exited EXIT_SUCCESS /\
  In (c_uv_loop_init 4096, 0) (snd help) /\
  In (c_uv_run 4096 UV_RUN_DEFAULT, 0) (snd help).
Proof.
  cbv zeta. split; [cbn; auto|].
  split; [vm_compute; reflexivity|]. split; [vm_compute; reflexivity|].
  split; [vm_compute; reflexivity|].
  split; vm_compute; repeat (first [left; reflexivity | right]).
Qed.

(** C8, amended: on a vector of C strings in which the first argument that
    ends the process is [-h] or [--help], [main] sets up the reactor, the
    signal watcher and the exit notifier (and aborts if that fails), then
    prints the usage text to [stderr] and calls [exit(EXIT_SUCCESS)]; no call
    before that initialises the I/O layer or the log or runs the reactor.
    The exit hook then runs (it runs the reactor to close the handles), and
    the process ends with status 0 unless the hook aborts or does not
    return. *)
Theorem help_exits_before_transport `{E : Externals} (fuel : nat)
    (argc : Z) (argv : list string) (st : state) :
  Forall (fun a => no_nul a = true) argv ->
  Options.first_stop argv = Some Options.StopHelp ->
  atexit_fns st = [] ->
  (let '(o, _, t) := main argc argv st in
   Forall (fun e => startup_call (fst e) = true) t /\
   (o = Abort \/
    (o = Exit EXIT_SUCCESS /\
     exists t0 r,
       t = t0 ++ [(c_fprintf_stderr s_help, r)] /\ reactor_set_up t0))) /\
  (let term := fst (fst (process fuel argc argv st)) in
   term = Exited EXIT_SUCCESS \/ term = Aborted \/ term = Hung).
Proof.
  intros Hwf Hstop Hfns. split.
  - exact (main_stops argc argv _ st Hwf Hstop).
  - exact (process_stops fuel argc argv _ st Hwf Hstop Hfns).
Qed.

Lemma help_exits_before_transport_witness :
  let argv := ["tags-lsp"; "--port=80"; "--help"; "--port=abc"] in
  Forall (fun a => no_nul a = true) argv /\
  Options.first_stop argv = Some Options.StopHelp /\
  atexit_fns (Sim.start 0) = [] /\
  fst (fst (process (E := Sim.sim_externals) 10 4 argv (Sim.start 0))) =
  Exited EXIT_SUCCESS.
Proof.
  cbv zeta.
  assert (Hwf : Forall (fun a => no_nul a = true)
                  ["tags-lsp"; "--port=80"; "--help"; "--port=abc"])
    by (repeat constructor).
  split; [exact Hwf|]. split; [reflexivity|]. split; [reflexivity|].
  destruct (help_exits_before_transport (E := Sim.sim_externals) 10 4
              ["tags-lsp"; "--port=80"; "--help"; "--port=abc"] (Sim.start 0)
              Hwf eq_refl eq_refl) as [_ [H|[H|H]]].
  - exact H.
  - vm_compute in H. discriminate H.
  - vm_compute in H. discriminate H.
Defined.

Section FlagFacts.

Context `{E : Externals}.

Lemma on_exit_notify_run (handle : ptr) (st : state) :
  _on_exit_notify handle st =
  let (w, r) := respond (c_uv_stop (loop (g_tags st))) (env st) in
  (Ret tt, mk_state (g_tags st) w (atexit_fns st),
   [(c_uv_stop (loop (g_tags st)), r)]).
Proof. unfold _on_exit_notify. exec. reflexivity. Qed.

Lemma bind_on_exit_notify {B} (handle : ptr) (k : unit -> M B) (st : state) :
  bind (_on_exit_notify handle) k st =
  let (w, r) := respond (c_uv_stop (loop (g_tags st))) (env st) in
  let '(o, s, t) := k tt (mk_state (g_tags st) w (atexit_fns st)) in
  (o, s, (c_uv_stop (loop (g_tags st)), r) :: t).
Proof.
  unfold bind. rewrite on_exit_notify_run.
  destruct (respond (c_uv_stop _) (env st)) as [w r].
  now destruct (k tt _) as [[o s] t].
Qed.

Lemma at_exit_sets_flag (fuel : nat) (st : state) :
  flags_shutdown (g_tags (snd (fst (_at_exit fuel st)))) = 1.
Proof.
  pose proof (at_exit_cases fuel st) as H. cbv zeta in H.
  destruct (_at_exit fuel st) as [[o st'] t]. cbn.
  destruct H as (r1 & r2 & turns & _ & [H|H]).
  - destruct H as (_ & -> & _). reflexivity.
  - destruct H as (s1 & td & _ & Hg & _ & Htd & _).
    pose proof (teardown_cases s1) as Hc. cbv zeta in Hc.
    rewrite Htd, Hg in Hc.
    destruct Hc as (_ & t1 & _ & [(t2 & _ & _ & _ & _ & ->)
                                 |(t2 & t3 & r & _ & _ & _ & _ & _ & _ & ->)]);
      reflexivity.
Qed.

(** When [main] returns, its last two events are the reactor run and the
    log line, and the status is 0. *)
Lemma main_returns (argc : Z) (argv : list string) (st st1 : state)
    (status : Z) (t1 : list event) :
  main argc argv st = (Ret status, st1, t1) ->
  status = 0 /\
  exists t0 r1 r2,
    t1 = t0 ++ [(c_uv_run (loop (g_tags st1)) UV_RUN_DEFAULT, r1);
                (c_LSP_LOG LSP_MSG_INFO "program about to exit." [], r2)].
Proof.
  unfold main. rewrite bind_ext. simpl_state.
  destruct (respond (c_signal_ignore SIGPIPE) (env st)) as [w r].
  rewrite bind_atexit. unfold bind at 1.
  destruct (_initialize argc argv _) as [[[a| | | ] s] t]; try discriminate.
  exec. intros [= <- <- <-]. split; [reflexivity|].
  exists ((c_signal_ignore SIGPIPE, r) :: t), r0, r1. cbn [g_tags].
  cbn [List.app]. f_equal.
Qed.

End FlagFacts.

(** C5, as in the design document, fails: the callback of the exit notifier
    leaves the shutdown flag clear and starts no tear-down; all it does is
    stop the reactor. *)
Lemma exit_notify_leaves_flag_clear :
  let st := Sim.serving 2 in
  let run := _on_exit_notify (E := Sim.sim_externals)
               (exit_notifier (g_tags st)) st in
  flags_shutdown (g_tags st) = 0 /\
  flags_shutdown (g_tags (snd (fst run))) = 0 /\
  snd run = [(c_uv_stop 4096, 0)].
Proof. cbv zeta. repeat split; vm_compute; reflexivity. Qed.

(** C5, amended: the callback of the exit notifier calls [uv_stop] on the
    loop and does nothing else: [g_tags], the shutdown flag in it, is as it
    was.  The flag is set by [_at_exit], whatever way [_at_exit] ends, and
    [_at_exit] is run by the process once [main] has returned, which it does
    right after its reactor run has returned. *)
Theorem exit_notify_only_stops_reactor `{E : Externals} (handle : ptr)
    (st : state) :
  (let '(o, st', t) := _on_exit_notify handle st in
   o = Ret tt /\ g_tags st' = g_tags st /\ atexit_fns st' = atexit_fns st /\
   map fst t = [c_uv_stop (loop (g_tags st))]) /\
  (forall fuel,
      flags_shutdown (g_tags (snd (fst (_at_exit fuel st)))) = 1) /\
  (forall fuel argc argv status st1 t1,
      atexit_fns st = [] ->
      main argc argv st = (Ret status, st1, t1) ->
      (exists t0 r1 r2,
          t1 = t0 ++ [(c_uv_run (loop (g_tags st1)) UV_RUN_DEFAULT, r1);
                      (c_LSP_LOG LSP_MSG_INFO "program about to exit." [],
                       r2)]) /\
      process fuel argc argv st =
      let '(o, st2, t2) := _at_exit fuel st1 in
      (term_of o status, st2, t1 ++ t2)).
Proof.
  split; [|split].
  - rewrite on_exit_notify_run.
    destruct (respond (c_uv_stop _) (env st)) as [w r]. now repeat split.
  - intros fuel. apply at_exit_sets_flag.
  - intros fuel argc argv status st1 t1 Hfns Hmain. split.
    + exact (proj2 (main_returns _ _ _ _ _ _ Hmain)).
    + rewrite (process_run _ _ _ _ Hfns), Hmain. reflexivity.
Qed.

Lemma exit_notify_only_stops_reactor_witness :
  let run := main (E := Sim.sim_externals) 1 ["tags-lsp"] (Sim.start 2) in
  atexit_fns (Sim.start 2) = [] /\
  run = (Ret 0, snd (fst run), snd run) /\
  fst (fst (process (E := Sim.sim_externals) 10 1 ["tags-lsp"]
              (Sim.start 2))) = Exited 0.
Proof.
  cbv zeta.
  assert (Hmain : main (E := Sim.sim_externals) 1 ["tags-lsp"] (Sim.start 2)
                  = (Ret 0,
                     snd (fst (main (E := Sim.sim_externals) 1 ["tags-lsp"]
                                 (Sim.start 2))),
                     snd (main (E := Sim.sim_externals) 1 ["tags-lsp"]
                            (Sim.start 2))))
    by (vm_compute; reflexivity).
  split; [reflexivity|]. split; [exact Hmain|].
  destruct (exit_notify_only_stops_reactor (E := Sim.sim_externals) 0
              (Sim.start 2)) as (_ & _ & H).
  destruct (H 10%nat 1 ["tags-lsp"] 0 _ _ eq_refl Hmain) as [_ ->].
  vm_compute. reflexivity.
Defined.

Section ResourceFacts.

Context `{E : Externals}.

Lemma freed_calls (t : list event) :
  freed t = flat_map freed_by (map fst t).
Proof.
  unfold freed. induction t as [|e t IH]; cbn; [reflexivity|].
  now rewrite IH.
Qed.

Lemma closed_calls (t : list event) :
  closed t = flat_map closed_by (map fst t).
Proof.
  unfold closed. induction t as [|e t IH]; cbn; [reflexivity|].
  now rewrite IH.
Qed.

Lemma freed_app (t1 t2 : list event) : freed (t1 ++ t2) = freed t1 ++ freed t2.
Proof. apply flat_map_app. Qed.

Lemma closed_app (t1 t2 : list event) :
  closed (t1 ++ t2) = closed t1 ++ closed t2.
Proof. apply flat_map_app. Qed.

Lemma drain_turns_resources (l : ptr) (t : list event) :
  drain_turns l t -> freed t = [] /\ closed t = [].
Proof.
  intros H. apply drain_turns_release_nothing in H.
  unfold freed, closed. induction H as [|e t (_ & Hf & Hc) _ [IHf IHc]].
  - now split.
  - cbn. now rewrite Hf, Hc, IHf, IHc.
Qed.

Lemma closing_resources (g : g_tags_t) (t : list event) :
  map fst t = closing_calls g ->
  freed t = [] /\ closed t = [sigint g; exit_notifier g].
Proof.
  intros H. rewrite freed_calls, closed_calls. unfold event in *.
  now rewrite H.
Qed.

Lemma aborting_resources (l : ptr) (t : list event) :
  aborting l t -> freed t = [] /\ closed t = [].
Proof. intros [(r & _ & ->)|(r & _ & ->)]; now split. Qed.

(** What a whole tear-down frees: the blocks [g_tags] owns, once each. *)
Lemma release_resources (g : g_tags_t) (t2 t3 : list event) :
  map fst t2 = reactor_calls g -> map fst t3 = release_calls g ->
  freed (t2 ++ t3) = owned g /\ closed (t2 ++ t3) = [].
Proof.
  intros H2 H3. rewrite freed_calls, closed_calls, map_app.
  unfold event in *. rewrite H2, H3.
  unfold reactor_calls, release_calls, guard, owned.
  cbn [filter].
  destruct (loop g =? NULL), (parser g =? NULL), (config_logdir g =? NULL),
    (config_logfile g =? NULL), (sigint g =? NULL),
    (exit_notifier g =? NULL); now split.
Qed.

Lemma freed_cons (e : event) (t : list event) :
  freed (e :: t) = freed_by (fst e) ++ freed t.
Proof. reflexivity. Qed.

Lemma closed_cons (e : event) (t : list event) :
  closed (e :: t) = closed_by (fst e) ++ closed t.
Proof. reflexivity. Qed.

Ltac resources :=
  rewrite ?freed_cons, ?closed_cons, ?freed_app, ?closed_app;
  cbn [fst freed_by closed_by List.app].

(** What a run of [_at_exit] closes and frees. *)
Lemma at_exit_resources (fuel : nat) (st : state) :
  let g := g_tags st in
  let '(o, st', t) := _at_exit fuel st in
  (closed t = [] \/ closed t = [sigint g; exit_notifier g]) /\
  (freed t = [] \/ freed t = owned g) /\
  (o = Ret tt ->
   closed t = [sigint g; exit_notifier g] /\ freed t = owned g /\
   g_tags st' = released (set_flags_shutdown 1 g)).
Proof.
  cbv zeta. pose proof (at_exit_cases fuel st) as Hc. cbv zeta in Hc.
  destruct (_at_exit fuel st) as [[o st'] t].
  destruct Hc as (r1 & r2 & turns & Hturns & Hc).
  destruct (drain_turns_resources _ _ Hturns) as [Hft Hct].
  destruct Hc as [(-> & _ & _ & _ & ->)|(s1 & td & _ & Hg & _ & Htd & ->)].
  - resources. rewrite Hft, Hct. repeat split; auto; discriminate.
  - pose proof (teardown_cases s1) as Hcases. cbv zeta in Hcases.
    rewrite Htd, Hg in Hcases. destruct Hcases as (_ & t1 & Ht1 & Hcases).
    change (closing_calls (set_flags_shutdown 1 (g_tags st)))
      with (closing_calls (g_tags st)) in Ht1.
    destruct (closing_resources _ _ Ht1) as [Hf1 Hc1].
    destruct Hcases as [(t2 & -> & -> & _ & Hab & _)
                       |(t2 & t3 & r & -> & -> & Ht2 & _ & _ & Ht3 & Hg')].
    + destruct (aborting_resources _ _ Hab) as [Hf2 Hc2].
      resources. resources. rewrite Hft, Hct, Hf1, Hc1, Hf2, Hc2.
      repeat split; auto; discriminate.
    + change (reactor_calls (set_flags_shutdown 1 (g_tags st)))
        with (reactor_calls (g_tags st)) in Ht2.
      change (release_calls (set_flags_shutdown 1 (g_tags st)))
        with (release_calls (g_tags st)) in Ht3.
      destruct (release_resources _ _ _ Ht2 Ht3) as [Hf Hc].
      rewrite freed_app in Hf. rewrite closed_app in Hc.
      resources. resources. resources.
      rewrite Hft, Hct, Hf1, Hc1. cbn [List.app].
      rewrite !app_assoc, Hf. rewrite <- !app_assoc, !(app_assoc (closed t2)), Hc.
      cbn. rewrite !app_nil_r. repeat split; auto.
Qed.

Lemma released_rerun (st : state) (g : g_tags_t) :
  g_tags st = released g ->
  _cleanup_loop st = (Ret tt, st, []) /\
  freed (snd (_at_exit_stage_2 st)) = [].
Proof.
  intros Hg. split.
  - rewrite cleanup_loop_run. cbv zeta. now rewrite Hg.
  - rewrite stage_2_run. cbv zeta. rewrite Hg.
    change (release_calls (released g))
      with [c_tag_lsp_cleanup_workspace_folders;
            c_tag_lsp_cleanup_client_capabilities].
    cbn [answers].
    destruct (respond c_tag_lsp_cleanup_workspace_folders (env st)) as [w1 r1].
    now destruct (respond c_tag_lsp_cleanup_client_capabilities w1)
      as [w2 r2].
Qed.

End ResourceFacts.

(** C2: a shutdown trigger reaches [main.c] as a run of the notifier's
    callback, and that run only stops the reactor: [g_tags] is as it was and
    nothing is closed or freed.  Where [uv_stop] on a stopped loop changes
    nothing, two triggers before the exit hook leave the same outcome, the
    same state and the same closes and frees as one.  The exit hook itself,
    on sound [g_tags], closes no handle twice and frees no block twice; when
    it returns it has closed the two handles once each, freed exactly the
    blocks [g_tags] owned, and cleared every slot, so that the guarded stages
    run again would free nothing. *)
Theorem second_trigger_is_noop `{E : Externals} (handle : ptr) (fuel : nat)
    (st : state) :
  (let '(o, st', t) := _on_exit_notify handle st in
   o = Ret tt /\ g_tags st' = g_tags st /\ closed t = [] /\ freed t = []) /\
  ((forall l w,
       fst (respond (c_uv_stop l) (fst (respond (c_uv_stop l) w))) =
       fst (respond (c_uv_stop l) w)) ->
   let once := (_on_exit_notify handle ;;; _at_exit fuel) st in
   let twice :=
     (_on_exit_notify handle ;;; _on_exit_notify handle ;;; _at_exit fuel) st in
   fst twice = fst once /\
   closed (snd twice) = closed (snd once) /\
   freed (snd twice) = freed (snd once)) /\
  (sound (g_tags st) ->
   let '(o, st', t) := _at_exit fuel st in
   NoDup (closed t) /\ NoDup (freed t) /\
   (o = Ret tt ->
    closed t = [sigint (g_tags st); exit_notifier (g_tags st)] /\
    freed t = owned (g_tags st) /\
    g_tags st' = released (set_flags_shutdown 1 (g_tags st)) /\
    _cleanup_loop st' = (Ret tt, st', []) /\
    freed (snd (_at_exit_stage_2 st')) = [])).
Proof.
  split; [|split].
  - rewrite on_exit_notify_run.
    destruct (respond (c_uv_stop _) (env st)) as [w r]. now repeat split.
  - intros Hstop. cbv zeta. rewrite !bind_on_exit_notify. simpl_state.
    specialize (Hstop (loop (g_tags st)) (env st)).
    destruct (respond (c_uv_stop _) (env st)) as [w1 r1]. cbn [fst] in Hstop.
    rewrite !bind_on_exit_notify. simpl_state.
    destruct (respond (c_uv_stop _) w1) as [w2 r2]. cbn [fst] in Hstop.
    subst w2.
    destruct (_at_exit fuel _) as [[o st'] t]. now repeat split.
  - intros [Hown Hhandles].
    pose proof (at_exit_resources fuel st) as Hres. cbv zeta in Hres.
    destruct (_at_exit fuel st) as [[o st'] t].
    destruct Hres as (Hc & Hf & Hret).
    assert (Hndc : NoDup (closed t)).
    { destruct Hc as [-> | ->]; [constructor|].
      constructor; [intros [H|[]]; now apply Hhandles|].
      constructor; [intros []|constructor]. }
    assert (Hndf : NoDup (freed t))
      by (destruct Hf as [-> | ->]; [constructor|exact Hown]).
    split; [exact Hndc|]. split; [exact Hndf|].
    intros Ho. destruct (Hret Ho) as (Hc' & Hf' & Hg).
    destruct (released_rerun st' _ Hg) as [Hrun Hfree].
    repeat split; assumption.
Qed.

Lemma second_trigger_is_noop_witness :
  let st := Sim.running 2 in
  let h := exit_notifier (g_tags st) in
  (forall l w,
      fst (respond (Externals := Sim.sim_externals) (c_uv_stop l)
             (fst (respond (c_uv_stop l) w))) =
      fst (respond (c_uv_stop l) w)) /\
  sound (g_tags st) /\
  fst ((_on_exit_notify (E := Sim.sim_externals) h ;;;
        _on_exit_notify h ;;; _at_exit 10) st) =
  fst ((_on_exit_notify (E := Sim.sim_externals) h ;;; _at_exit 10) st) /\
  NoDup (freed (snd (_at_exit (E := Sim.sim_externals) 10 st))).
Proof.
  cbv zeta.
  assert (Hstop : forall l w,
             fst (respond (Externals := Sim.sim_externals) (c_uv_stop l)
                    (fst (respond (c_uv_stop l) w))) =
             fst (respond (c_uv_stop l) w)) by reflexivity.
  assert (Hsound : sound (g_tags (Sim.running 2))).
  { split; vm_compute; [|discriminate].
    repeat (constructor; [cbn; intuition discriminate|]). constructor. }
  split; [exact Hstop|]. split; [exact Hsound|].
  destruct (second_trigger_is_noop (E := Sim.sim_externals)
              (exit_notifier (g_tags (Sim.running 2))) 10 (Sim.running 2))
    as (_ & Htwice & Hhook).
  split; [exact (proj1 (Htwice Hstop))|].
  specialize (Hhook Hsound).
  destruct (_at_exit 10 (Sim.running 2)) as [[o st'] t].
  exact (proj1 (proj2 Hhook)).
Defined.

Lemma release_in_dependency_order_witness :
  let st := Sim.running 2 in
  let run := _at_exit (E := Sim.sim_externals) 10 st in
  fst (fst run) = Ret tt /\
  exists t0 t2 t3,
    snd run = t0 ++ t2 ++ t3 /\
    map fst t2 = reactor_calls (g_tags st) /\
    map fst t3 = release_calls (g_tags st) ++ [c_uv_library_shutdown].
Proof.
  cbv zeta.
  assert (Ho : fst (fst (_at_exit (E := Sim.sim_externals) 10
                           (Sim.running 2))) = Ret tt)
    by (vm_compute; reflexivity).
  pose proof (release_in_dependency_order (E := Sim.sim_externals) 10
                (Sim.running 2)) as H.
  cbv zeta in H.
  destruct (_at_exit 10 (Sim.running 2)) as [[o st'] t].
  cbn [fst snd] in *. split; [exact Ho|].
  destruct (proj1 H Ho) as (t0 & t2 & t3 & Ht & _ & H2 & _ & H3).
  exists t0, t2, t3. repeat split; assumption.
Defined.

(** ** The frame decoder *)

Section FrameFacts.

Import FrameDecoder.

Lemma feed_app (d : decoder) (a b : bytes) :
  feed d (a ++ b) =
  let (d1, out1) := feed d a in
  let (d2, out2) := feed d1 b in
  (d2, out1 ++ out2).
Proof.
  revert d. induction a as [|x a IH]; intros d; cbn [feed List.app].
  - now destruct (feed d b).
  - destruct (deliver (step d x)) as [d1 out1]. rewrite IH.
    destruct (feed d1 a) as [d2 out2]. destruct (feed d2 b) as [d3 out3].
    now rewrite app_assoc.
Qed.

(** Feeding chunk after chunk is feeding their concatenation. *)
Lemma feed_all_concat (d : decoder) (chunks : list bytes) :
  feed_all d chunks = feed d (List.concat chunks).
Proof.
  revert d. induction chunks as [|c chunks IH]; intros d; cbn; [reflexivity|].
  rewrite feed_app. destruct (feed d c) as [d1 out1]. now rewrite IH.
Qed.

Lemma byte_eqb_refl (b : byte) : Byte.eqb b b = true.
Proof. now apply Byte.byte_dec_lb. Qed.

Lemma byte_eqb_neq (a b : byte) : a <> b -> Byte.eqb a b = false.
Proof.
  intros H. destruct (Byte.eqb a b) eqn:Hab; [|reflexivity].
  now apply Byte.byte_dec_bl in Hab.
Qed.

(** Bytes other than LF pile up in the line. *)
Lemma feed_line_bytes (l : bytes) :
  ~ In NL l ->
  forall declared line,
    feed (AccumulatingHeaders declared line) l =
    (AccumulatingHeaders declared (line ++ l), []).
Proof.
  induction l as [|b l IH]; intros Hnl declared line.
  - cbn. now rewrite app_nil_r.
  - cbn [feed step]. unfold header_byte.
    rewrite byte_eqb_neq by (intros ->; apply Hnl; now left).
    cbn [deliver]. rewrite IH by (intros H; apply Hnl; now right).
    now rewrite <- app_assoc.
Qed.

Lemma strip_cr_snoc (l : bytes) : strip_cr (l ++ [CR]) = Some l.
Proof.
  unfold strip_cr. rewrite rev_app_distr. cbn.
  now rewrite rev_involutive.
Qed.

(** A complete line, CR LF and all, from the start of a line. *)
Lemma feed_line (line : bytes) (declared : option nat) :
  ~ In NL line ->
  feed (AccumulatingHeaders declared []) (line ++ [CR; NL]) =
  deliver (header_line declared line).
Proof.
  intros Hnl.
  change (line ++ [CR; NL]) with (line ++ [CR] ++ [NL]).
  rewrite app_assoc, feed_app, feed_line_bytes.
  - cbn [List.app feed step]. unfold header_byte. rewrite byte_eqb_refl.
    rewrite strip_cr_snoc. destruct (deliver _) as [d out].
    now rewrite app_nil_r.
  - intros H. apply in_app_or in H as [H|[H|[]]]; [now apply Hnl|].
    discriminate H.
Qed.

(** The body: the message is emitted when its last byte arrives, and the
    decoder awaits the next frame. *)
Lemma feed_body (body : bytes) :
  forall n buf,
    body <> [] -> (List.length buf + List.length body)%nat = n ->
    feed (AwaitingBody n buf) body = (AwaitingHeaderLine, [buf ++ body]).
Proof.
  induction body as [|b body IH]; intros n buf Hne Hlen; [contradiction|].
  cbn [feed step]. destruct body as [|b' body].
  - cbn in Hlen. rewrite length_app. cbn [List.length].
    replace (List.length buf + 1)%nat with n by lia.
    rewrite Nat.eqb_refl. reflexivity.
  - rewrite length_app. cbn [List.length] in *.
    replace (Nat.eqb (List.length buf + 1) n) with false
      by (symmetry; apply Nat.eqb_neq; lia).
    cbn [deliver]. rewrite IH; [|discriminate|rewrite length_app; cbn; lia].
    now rewrite <- app_assoc.
Qed.

Lemma feed_first_byte (l : bytes) :
  l <> [] ->
  feed AwaitingHeaderLine l = feed (AccumulatingHeaders None []) l.
Proof. destruct l; [contradiction|reflexivity]. Qed.

Lemma bytes_eqb_eq (a b : bytes) : bytes_eqb a b = true <-> a = b.
Proof.
  revert b. induction a as [|x a IH]; intros [|y b]; cbn; split;
    try discriminate; try reflexivity.
  - intros H. apply andb_prop in H as [Hxy Hab].
    apply Byte.byte_dec_bl in Hxy. apply IH in Hab. now subst.
  - intros [= -> ->]. rewrite byte_eqb_refl. now apply IH.
Qed.

Lemma list_byte_of_string_inj (s1 s2 : string) :
  list_byte_of_string s1 = list_byte_of_string s2 -> s1 = s2.
Proof.
  intros H. rewrite <- (string_of_list_byte_of_string s1),
    <- (string_of_list_byte_of_string s2). now rewrite H.
Qed.

Lemma is_content_length (k : string) :
  bytes_eqb (list_byte_of_string k) content_length =
  String.eqb k "Content-Length".
Proof.
  destruct (String.eqb_spec k "Content-Length") as [->|Hne].
  - now apply bytes_eqb_eq.
  - destruct (bytes_eqb _ _) eqn:H; [|reflexivity].
    apply bytes_eqb_eq, list_byte_of_string_inj in H. contradiction.
Qed.

Lemma split_colon_key (k rest : bytes) :
  ~ In COLON k -> split_colon (k ++ COLON :: rest) = Some (k, rest).
Proof.
  induction k as [|b k IH]; intros Hk; cbn.
  - reflexivity.
  - rewrite byte_eqb_neq by (intros ->; apply Hk; now left).
    rewrite IH; [reflexivity|]. intros H. apply Hk. now right.
Qed.

Lemma header_line_nonempty (declared : option nat) (line : bytes) :
  line <> [] ->
  header_line declared line =
  match split_colon line with
  | Some (key, value) =>
      if bytes_eqb key content_length then
        match parse_length (skip_spaces value) with
        | Some n => AccumulatingHeaders (Some n) []
        | None => Failed
        end
      else AccumulatingHeaders declared []
  | None => Failed
  end.
Proof. destruct line; [contradiction|reflexivity]. Qed.

(** A length field reads as the number it denotes. *)
Lemma parse_length_denotes (v : string) (n : nat) :
  denotes v n ->
  parse_length (skip_spaces (SPACE :: list_byte_of_string v)) = Some n.
Proof.
  intros (d & -> & <-).
  change (skip_spaces (SPACE :: ?l)) with (skip_spaces l).
  assert (Hskip : skip_spaces
                    (list_byte_of_string (DecimalString.NilZero.string_of_uint d))
                  = list_byte_of_string (DecimalString.NilZero.string_of_uint d))
    by (destruct d; reflexivity).
  rewrite Hskip. unfold parse_length.
  rewrite string_of_list_byte_of_string.
  destruct d; try reflexivity;
    now rewrite DecimalString.NilZero.usu by discriminate.
Qed.

(** One header line of a valid block. *)
Lemma feed_header (h : header) (n : nat) (declared : option nat) :
  header_ok h ->
  (key h = "Content-Length" -> denotes (value h) n) ->
  feed (AccumulatingHeaders declared []) (render_header h) =
  (AccumulatingHeaders
     (if String.eqb (key h) "Content-Length" then Some n else declared) [],
   []).
Proof.
  intros (Hcolon & Hkcr & Hknl & Hvcr & Hvnl) Hlen. unfold render_header.
  rewrite !app_assoc, <- (app_assoc _ [COLON; SPACE]).
  rewrite feed_line.
  2:{ intros H. apply in_app_or in H as [H|H]; [now apply Hknl|].
      destruct H as [H|[H|H]]; try discriminate H. now apply Hvnl. }
  rewrite header_line_nonempty by (now destruct (list_byte_of_string (key h))).
  change ([COLON; SPACE] ++ list_byte_of_string (value h))
    with (COLON :: SPACE :: list_byte_of_string (value h)).
  rewrite split_colon_key by exact Hcolon.
  rewrite is_content_length.
  destruct (String.eqb_spec (key h) "Content-Length") as [Hk|Hk].
  - now rewrite (parse_length_denotes _ _ (Hlen Hk)).
  - reflexivity.
Qed.

(** A valid header block: the declared length is the one the block gives. *)
Lemma feed_headers (hs : list header) (n : nat) :
  Forall header_ok hs ->
  (forall h, In h hs -> key h = "Content-Length" -> denotes (value h) n) ->
  forall declared,
    feed (AccumulatingHeaders declared [])
      (List.concat (map render_header hs)) =
    (AccumulatingHeaders
       (if existsb (fun h => String.eqb (key h) "Content-Length") hs
        then Some n else declared) [],
     []).
Proof.
  induction 1 as [|h hs Hh _ IH]; intros Hlen declared; cbn [map List.concat].
  - reflexivity.
  - rewrite feed_app, (feed_header h n declared Hh)
      by (intros Hk; apply Hlen; [now left|exact Hk]).
    rewrite IH by (intros h' Hin; apply Hlen; now right).
    cbn [existsb List.app].
    now destruct (String.eqb (key h) "Content-Length"), (existsb _ hs).
Qed.

End FrameFacts.

(** C3: for every valid header block and body, and every way to cut the
    bytes of the frame into chunks (one byte per chunk is one of them),
    feeding the chunks in order to a decoder that awaits a frame emits one
    message, the body, and leaves the decoder awaiting the next frame. *)
Theorem decoder_reassembles_any_chunking (hs : list FrameDecoder.header)
    (body : FrameDecoder.bytes) (chunks : list FrameDecoder.bytes) :
  FrameDecoder.valid_frame hs body ->
  List.concat chunks = FrameDecoder.render_frame hs body ->
  FrameDecoder.feed_all FrameDecoder.AwaitingHeaderLine chunks =
  (FrameDecoder.AwaitingHeaderLine, [body]).
Proof.
  intros [Hok [(h0 & Hin & Hk0) Hlen]] Hcut.
  rewrite feed_all_concat, Hcut. unfold FrameDecoder.render_frame.
  rewrite feed_first_byte
    by (now destruct (List.concat (map FrameDecoder.render_header hs))).
  rewrite feed_app, (feed_headers hs _ Hok Hlen).
  assert (Hex : existsb (fun h => String.eqb (FrameDecoder.key h)
                                    "Content-Length") hs = true).
  { apply existsb_exists. exists h0. split; [exact Hin|].
    now apply String.eqb_eq. }
  rewrite Hex, feed_app.
  pose proof (feed_line [] (Some (List.length body)) (fun H => H)) as Hblank.
  cbn [List.app] in Hblank. rewrite Hblank.
  cbn [FrameDecoder.header_line].
  destruct body as [|b body].
  - reflexivity.
  - cbn [List.length Nat.eqb FrameDecoder.deliver].
    rewrite feed_body by (discriminate || reflexivity). reflexivity.
Qed.

Lemma decoder_reassembles_any_chunking_witness :
  let hs := [FrameDecoder.mk_header "Content-Length" "5"] in
  let body := list_byte_of_string "HELLO" in
  let frame := FrameDecoder.render_frame hs body in
  let chunks := [firstn 10 frame; skipn 10 frame] in
  FrameDecoder.valid_frame hs body /\
  List.concat chunks = frame /\
  FrameDecoder.feed_all FrameDecoder.AwaitingHeaderLine chunks =
  (FrameDecoder.AwaitingHeaderLine, [body]).
Proof.
  cbv zeta.
  assert (Hvalid : FrameDecoder.valid_frame
                     [FrameDecoder.mk_header "Content-Length" "5"]
                     (list_byte_of_string "HELLO")).
  { split; [|split].
    - constructor; [|constructor].
      unfold FrameDecoder.header_ok, FrameDecoder.free_of. cbn.
      repeat split; intros H;
        repeat (destruct H as [H|H]; [discriminate H|]); exact H.
    - eexists. split; [now left|reflexivity].
    - intros h [<-|[]] _. exists (Decimal.D5 Decimal.Nil). now split. }
  split; [exact Hvalid|]. split; [reflexivity|].
  apply (decoder_reassembles_any_chunking _ _ _ Hvalid). reflexivity.
Defined.

(** The same frame, one byte per call. *)
Example decoder_byte_by_byte :
  let frame := FrameDecoder.render_frame
                 [FrameDecoder.mk_header "Content-Type" "text";
                  FrameDecoder.mk_header "Content-Length" "5"]
                 (list_byte_of_string "HELLO") in
  FrameDecoder.feed_all FrameDecoder.AwaitingHeaderLine
    (map (fun b => [b]) frame) =
  (FrameDecoder.AwaitingHeaderLine, [list_byte_of_string "HELLO"]).
Proof. vm_compute. reflexivity. Qed.

(** Two frames in one call give two messages, in order. *)
Example decoder_two_frames_one_call :
  let one := FrameDecoder.render_frame
               [FrameDecoder.mk_header "Content-Length" "2"]
               (list_byte_of_string "ab") in
  let two := FrameDecoder.render_frame
               [FrameDecoder.mk_header "Content-Length" "03"]
               (list_byte_of_string "cde") in
  FrameDecoder.feed FrameDecoder.AwaitingHeaderLine (one ++ two) =
  (FrameDecoder.AwaitingHeaderLine,
   [list_byte_of_string "ab"; list_byte_of_string "cde"]).
Proof. vm_compute. reflexivity. Qed.

(** A header block without a length is a fatal protocol error. *)
Example decoder_missing_length :
  fst (FrameDecoder.feed FrameDecoder.AwaitingHeaderLine
         (FrameDecoder.render_frame
            [FrameDecoder.mk_header "Content-Type" "text"] [])) =
  FrameDecoder.Failed.
Proof. vm_compute. reflexivity. Qed.

(** ** [%d], equality and prefixes on examples *)

Example sscanf_d_8080 : sscanf_d "8080" 0 = (1, 8080).
Proof. reflexivity. Qed.

Example sscanf_d_abc : sscanf_d "abc" 0 = (0, 0).
Proof. reflexivity. Qed.

Example sscanf_d_12abc : sscanf_d "12abc" 0 = (1, 12).
Proof. reflexivity. Qed.

Example sscanf_d_negative : sscanf_d " -7" 0 = (1, -7).
Proof. reflexivity. Qed.

Example sscanf_d_empty : sscanf_d "" 7 = (EOF, 7).
Proof. reflexivity. Qed.

(** A sign with nothing after it is no number, and the input has not ended
    before the sign: 0, not [EOF]. *)
Example sscanf_d_lone_sign : sscanf_d "-" 7 = (0, 7).
Proof. reflexivity. Qed.

(** Beyond [int]: the low 32 bits; beyond [long]: those of [LONG_MAX]. *)
Example sscanf_d_beyond_int : sscanf_d "2147483648" 0 = (1, -2147483648).
Proof. reflexivity. Qed.

Example sscanf_d_beyond_long :
  sscanf_d "99999999999999999999" 0 = (1, -1).
Proof. reflexivity. Qed.

Example strncmp_port : strncmp "--port=80" "--port=" (strlen "--port=") = 0.
Proof. reflexivity. Qed.

Example strcmp_help : strcmp "--help" "--help" = 0 /\ strcmp "--helpx" "--help" <> 0.
Proof. split; [reflexivity|discriminate]. Qed.

(** * Further properties of [main.c] *)

(** ** What [--port=] reads *)

Section PortFacts.

Import Options.

Context `{E : Externals}.

Lemma no_nul_append (a b : string) :
  no_nul a = true -> no_nul b = true -> no_nul (a +++ b) = true.
Proof.
  induction a as [|c a IH]; intros Ha Hb; [exact Hb|].
  change (String c a +++ b) with (String c (a +++ b)).
  cbn [no_nul] in *. apply andb_prop in Ha as [Hc Ha].
  rewrite Hc. now apply IH.
Qed.

Lemma digits_no_nul (d : Decimal.uint) :
  no_nul (DecimalString.NilEmpty.string_of_uint d) = true.
Proof. induction d; cbn [DecimalString.NilEmpty.string_of_uint no_nul]; auto. Qed.

Lemma decimal_digits (n : nat) :
  exists d, d <> Decimal.Nil /\
            decimal n = DecimalString.NilEmpty.string_of_uint d /\
            Nat.of_uint d = n.
Proof.
  unfold decimal. destruct (Nat.to_uint n) as [|d|d|d|d|d|d|d|d|d|d] eqn:Hn;
    try (eexists; split; [|split; [reflexivity|]];
         [discriminate|rewrite <- Hn; apply DecimalNat.Unsigned.of_to]).
  exists (Decimal.D0 Decimal.Nil). split; [discriminate|]. split; [reflexivity|].
  rewrite <- (DecimalNat.Unsigned.of_to n), Hn. reflexivity.
Qed.

Lemma scan_digits_stop (rest : string) (acc : Z) :
  starts_with_digit rest = false -> scan_digits rest acc = acc.
Proof. destruct rest as [|c rest]; cbn; [reflexivity|]. now intros ->. Qed.

Ltac digit_step IH :=
  match goal with
  | |- scan_digits (DecimalString.NilEmpty.string_of_uint (?D ?d) +++ ?rest)
         (Z.of_nat ?acc) = _ =>
      cbn [DecimalString.NilEmpty.string_of_uint Nat.of_uint_acc];
      match goal with
      | |- scan_digits (String ?c ?s +++ rest) _ = Z.of_nat (Nat.of_uint_acc d ?acc') =>
          change (String c s +++ rest) with (String c (s +++ rest));
          cbn [scan_digits];
          change (isdigit c) with true; cbv iota;
          rewrite <- (IH acc');
          f_equal; rewrite Nat.tail_mul_spec;
          change (uchar c - 48) with (Z.of_nat (Nat.of_uint (D Decimal.Nil)));
          cbn [Nat.of_uint Nat.of_uint_acc Nat.tail_mul Nat.tail_addmul
                 Nat.tail_add]; lia
      end
  end.

(** The digits read as the number they write, whatever follows them. *)
Lemma scan_digits_uint (rest : string) :
  starts_with_digit rest = false ->
  forall d acc,
    scan_digits (DecimalString.NilEmpty.string_of_uint d +++ rest)
      (Z.of_nat acc) =
    Z.of_nat (Nat.of_uint_acc d acc).
Proof.
  intros Hrest. induction d as [|d IH|d IH|d IH|d IH|d IH|d IH|d IH|d IH|d IH|d IH];
    intros acc; try digit_step IH.
  cbn. now apply scan_digits_stop.
Qed.

Lemma digit_not_space (c : ascii) :
  isdigit c = true ->
  isspace c = false /\ (uchar c =? 45) = false /\ (uchar c =? 43) = false.
Proof.
  unfold isdigit, isspace. intros H. apply andb_prop in H as [Hlo Hhi].
  apply Z.leb_le in Hlo, Hhi.
  repeat split; rewrite ?orb_false_iff, ?andb_false_iff;
    repeat split; try (apply Z.eqb_neq; lia).
  right. apply Z.leb_gt. lia.
Qed.

Lemma sscanf_d_digit (c : ascii) (s : string) (ret : Z) :
  isdigit c = true ->
  sscanf_d (String c s) ret =
  (1, int_of_long (strtol_value (scan_digits (String c s) 0))).
Proof.
  intros Hc. destruct (digit_not_space c Hc) as (Hsp & H45 & H43).
  unfold sscanf_d. cbn [skip_space]. rewrite Hsp, H45, H43.
  unfold scan_unsigned. rewrite Hc. now rewrite Z.mul_1_l.
Qed.

Lemma sscanf_d_minus_digit (c : ascii) (s : string) (ret : Z) :
  isdigit c = true ->
  sscanf_d (String "-" (String c s)) ret =
  (1, int_of_long (strtol_value (- scan_digits (String c s) 0))).
Proof.
  intros Hc. unfold sscanf_d. cbn [skip_space].
  change (isspace "-") with false. cbv iota.
  change (uchar "-" =? 45) with true. cbv iota.
  unfold scan_unsigned. rewrite Hc.
  now replace (-1 * scan_digits (String c s) 0)
    with (- scan_digits (String c s) 0) by lia.
Qed.

Lemma digits_head (d : Decimal.uint) (rest : string) :
  d <> Decimal.Nil ->
  exists c s,
    DecimalString.NilEmpty.string_of_uint d +++ rest = String c s /\
    isdigit c = true.
Proof.
  destruct d; intros Hd; [contradiction| ..];
    cbn [DecimalString.NilEmpty.string_of_uint];
    eexists _, _; (split; [reflexivity|reflexivity]).
Qed.

(** [%d] on a number in decimal digits, with or without a minus sign and
    whatever text follows it: the number. *)
Lemma sscanf_d_decimal (negative : bool) (n : nat) (rest : string) (ret : Z) :
  starts_with_digit rest = false ->
  sscanf_d ((if negative then "-" else "") +++ decimal n +++ rest) ret =
  (1, int_of_long
        (strtol_value (if negative then - Z.of_nat n else Z.of_nat n))).
Proof.
  intros Hrest. destruct (decimal_digits n) as (d & Hd & -> & <-).
  pose proof (scan_digits_uint rest Hrest d 0%nat) as Hval.
  change (Z.of_nat 0) with 0 in Hval. fold (Nat.of_uint d) in Hval.
  destruct (digits_head d rest Hd) as (c & s & Heq & Hc).
  rewrite Heq in Hval |- *. destruct negative.
  - change ("-" +++ String c s) with (String "-" (String c s)).
    now rewrite sscanf_d_minus_digit, Hval.
  - change ("" +++ String c s) with (String c s).
    now rewrite sscanf_d_digit, Hval.
Qed.

End PortFacts.

(** X1: [--port=] followed by a number in decimal digits, with or without a
    minus sign, selects as the port the [int] that [%d] stores for it,
    whatever text that does not start with a digit follows the number: the
    turn of the loop makes no call, leaves [g_tags] alone, and no range is
    checked.  The port is the number the digits spell when that fits an
    [int]; beyond [int] it is the low 32 bits of that number, cut at the
    bounds of [long] first, and so still within [int]. *)
Theorem port_is_leading_number `{E : Externals} (negative : bool) (n : nat)
    (rest : string) (io_cfg : tag_lsp_io_cfg_t) (ret : Z) (st : state) :
  starts_with_digit rest = false ->
  no_nul rest = true ->
  let v := if negative then - Z.of_nat n else Z.of_nat n in
  let port := int_of_long (strtol_value v) in
  parse_option
    ("--port=" +++ (if negative then "-" else "") +++ decimal n +++ rest)
    io_cfg ret st =
  (Ret (mk_io_cfg TAG_LSP_IO_PORT (data_port port) (io_cb io_cfg), port),
   st, []) /\
  INT_MIN <= port <= INT_MAX /\
  (INT_MIN <= v <= INT_MAX -> port = v).
Proof.
  intros Hrest Hnul. cbv zeta.
  split; [|split; [apply int_of_long_range|apply int_of_long_fits]].
  set (x := (if negative then "-" else "") +++ decimal n +++ rest).
  assert (Hx : no_nul x = true).
  { unfold x. apply no_nul_append; [now destruct negative|].
    apply no_nul_append; [|exact Hnul].
    destruct (decimal_digits n) as (d & _ & -> & _). apply digits_no_nul. }
  rewrite parse_option_tests
    by (change ("--port=" +++ x) with
          (String "-" (String "-" (String "p" (String "o" (String "r"
             (String "t" (String "=" x)))))));
        cbn [no_nul]; now rewrite Hx).
  change (Options.is_help ("--port=" +++ x)) with false.
  change (String.eqb ("--port=" +++ x) "--stdio") with false.
  change (Options.has_prefix "--pipe=" ("--port=" +++ x)) with false.
  change (Options.has_prefix "--port=" ("--port=" +++ x)) with true.
  change (advance ("--port=" +++ x) 7) with x. cbv iota zeta.
  unfold x. rewrite (sscanf_d_decimal negative n rest ret Hrest).
  reflexivity.
Qed.

Lemma port_is_leading_number_witness :
  starts_with_digit "abc" = false /\
  no_nul "abc" = true /\
  fst (fst (parse_option (E := Sim.sim_externals) "--port=-12abc"
              (mk_io_cfg TAG_LSP_IO_STDIO data_unset fn_on_io_in) 0
              (Sim.start 0))) =
  Ret (mk_io_cfg TAG_LSP_IO_PORT (data_port (-12)) fn_on_io_in, -12).
Proof.
  split; [reflexivity|]. split; [reflexivity|].
  pose proof (port_is_leading_number (E := Sim.sim_externals) true 12 "abc"
                (mk_io_cfg TAG_LSP_IO_STDIO data_unset fn_on_io_in) 0
                (Sim.start 0) eq_refl eq_refl) as H.
  exact (f_equal (fun x => fst (fst x)) (proj1 H)).
Defined.

(** Beyond [int] the port is not the number written: [int ret] holds the
    low 32 bits. *)
Example port_beyond_int :
  fst (fst (_parser_command_line_options (E := Sim.sim_externals)
              ["tags-lsp"; "--port=2147483648"] (Sim.start 0))) =
  Ret (mk_io_cfg TAG_LSP_IO_PORT (data_port (-2147483648)) fn_on_io_in).
Proof. vm_compute. reflexivity. Qed.

(** ** What option parsing touches *)

Section ParsingFacts.

Import Options.

Context `{E : Externals}.

Lemma kept_refl (g : g_tags_t) : kept_by_parsing g g.
Proof. now repeat split. Qed.

Lemma kept_trans (g1 g2 g3 : g_tags_t) :
  kept_by_parsing g1 g2 -> kept_by_parsing g2 g3 -> kept_by_parsing g1 g3.
Proof. unfold kept_by_parsing. intuition congruence. Qed.

Lemma logs_only_bind {A B} (m : M A) (k : A -> M B) :
  writes_logs_only m -> (forall a, writes_logs_only (k a)) ->
  writes_logs_only (bind m k).
Proof.
  intros Hm Hk st. unfold bind. specialize (Hm st).
  destruct (m st) as [[[a| | | ] s1] t1]; cbn in *; try assumption.
  specialize (Hk a s1). destruct (k a s1) as [[o s2] t2]. cbn in *.
  eapply kept_trans; eassumption.
Qed.

Lemma logs_only_ext (c : call) : writes_logs_only (ext c).
Proof.
  intros st. unfold ext. destruct (respond c (env st)). apply kept_refl.
Qed.

Lemma parse_option_logs_only (a : string) (io_cfg : tag_lsp_io_cfg_t)
    (ret : Z) : writes_logs_only (parse_option a io_cfg ret).
Proof.
  unfold parse_option.
  repeat first
    [ apply logs_only_bind; [|intros ?]
    | apply logs_only_ext
    | match goal with
      | |- writes_logs_only (when ?b _) => unfold when; destruct b
      | |- writes_logs_only (if ?b then _ else _) => destruct b
      | |- writes_logs_only (let (_, _) := ?x in _) => destruct x
      end
    | (intros ?; now repeat split) ].
Qed.

Lemma parse_options_logs_only (argv : list string) :
  forall io_cfg ret, writes_logs_only (parse_options argv io_cfg ret).
Proof.
  induction argv as [|a argv IH]; intros io_cfg ret; cbn [parse_options].
  - intros st. apply kept_refl.
  - apply logs_only_bind; [apply parse_option_logs_only|].
    intros [c r]. apply IH.
Qed.

(** An argument that ends the process does so whatever the locals hold. *)
Lemma stop_exits (a : string) (s : stop) :
  no_nul a = true -> stops a = Some s ->
  forall io_cfg ret st,
    exists st' t,
      parse_option a io_cfg ret st = (Exit (status_of s), st', t).
Proof.
  intros Ha Hs io_cfg ret st. rewrite (parse_option_tests a io_cfg ret Ha).
  unfold stops in Hs. destruct (is_help a).
  - injection Hs as <-. exec. unfold exit. cbn. eauto.
  - destruct (strip_prefix "--port=" a) as [v|] eqn:Hport; [|discriminate].
    pose proof (strip_prefix_advance "--port=" a v eq_refl Hport) as Hadv.
    change (strlen "--port=") with 7%nat in Hadv.
    assert (Htests : String.eqb a "--stdio" = false /\
                     has_prefix "--pipe=" a = false /\
                     has_prefix "--port=" a = true).
    { unfold has_prefix. rewrite Hport.
      apply strip_prefix_append in Hport. subst a. now repeat split. }
    destruct Htests as (-> & -> & ->). rewrite Hadv. cbv zeta.
    destruct (sscanf_d_ret v ret 0) as [Hn _].
    destruct (sscanf_d v ret) as [n ret'] eqn:Hsc. cbn [fst] in Hn.
    rewrite <- Hn in Hs. destruct (n =? 1); [discriminate|].
    injection Hs as <-. cbn [negb]. exec. unfold exit. cbn. eauto.
Qed.

Lemma parse_options_stop (a : string) (s : stop) (after : list string) :
  no_nul a = true -> stops a = Some s ->
  forall io_cfg ret st,
    parse_options (a :: after) io_cfg ret st = parse_options [a] io_cfg ret st.
Proof.
  intros Ha Hs io_cfg ret st. cbn [parse_options]. unfold bind.
  destruct (stop_exits a s Ha Hs io_cfg ret st) as (st' & t & ->).
  reflexivity.
Qed.

Lemma parse_options_prefix (before l1 l2 : list string) :
  (forall io_cfg ret st,
      parse_options l1 io_cfg ret st = parse_options l2 io_cfg ret st) ->
  forall io_cfg ret st,
    parse_options (before ++ l1) io_cfg ret st =
    parse_options (before ++ l2) io_cfg ret st.
Proof.
  intros H. induction before as [|b before IH]; intros io_cfg ret st.
  - apply H.
  - cbn [List.app parse_options]. unfold bind.
    destruct (parse_option b io_cfg ret st) as [[[r| | | ] s] t];
      try reflexivity.
    now rewrite IH.
Qed.

End ParsingFacts.

(** X2: the arguments that follow one that ends the process ([-h],
    [--help], or a [--port=] whose value [%d] cannot read) are never looked
    at: parsing the vector gives what parsing it cut after that argument
    gives - the same exit, the same state, the same calls. *)
Theorem nothing_after_a_stop `{E : Externals} (a : string) (s : Options.stop)
    (before after : list string) (st : state) :
  no_nul a = true ->
  Options.stops a = Some s ->
  _parser_command_line_options (before ++ a :: after) st =
  _parser_command_line_options (before ++ [a]) st.
Proof.
  intros Ha Hs. unfold _parser_command_line_options, bind.
  now rewrite (parse_options_prefix before (a :: after) [a]
                 (parse_options_stop a s after Ha Hs)).
Qed.

Lemma nothing_after_a_stop_witness :
  no_nul "--help" = true /\
  Options.stops "--help" = Some Options.StopHelp /\
  snd (_parser_command_line_options (E := Sim.sim_externals)
         (["tags-lsp"; "--logdir=/var"] ++ "--help" :: ["--logfile=/tmp/l"])
         (Sim.start 0)) =
  snd (_parser_command_line_options (E := Sim.sim_externals)
         (["tags-lsp"; "--logdir=/var"] ++ ["--help"]) (Sim.start 0)).
Proof.
  split; [reflexivity|]. split; [reflexivity|].
  now rewrite (nothing_after_a_stop (E := Sim.sim_externals) "--help"
                 Options.StopHelp ["tags-lsp"; "--logdir=/var"]
                 ["--logfile=/tmp/l"] (Sim.start 0) eq_refl eq_refl).
Defined.

(** ** The log strings during option parsing *)

Section LogStringFacts.

Context `{E : Externals}.

Lemma strdup_answers_app (t1 t2 : list event) :
  strdup_answers (t1 ++ t2) = strdup_answers t1 ++ strdup_answers t2.
Proof. apply flat_map_app. Qed.

Lemma non_null_app (l1 l2 : list ptr) :
  non_null (l1 ++ l2) = non_null l1 ++ non_null l2.
Proof. apply filter_app. Qed.

Lemma conserves_bind {A B} (m : M A) (k : A -> M B) :
  conserves m -> (forall a, conserves (k a)) -> conserves (bind m k).
Proof.
  intros Hm Hk st. unfold bind. specialize (Hm st).
  destruct (m st) as [[[a| | | ] s1] t1]; try assumption.
  specialize (Hk a s1). destruct (k a s1) as [[o s2] t2].
  rewrite strdup_answers_app, non_null_app, freed_app.
  rewrite List.app_assoc, <- !List.app_assoc.
  eapply Permutation.Permutation_trans;
    [rewrite List.app_assoc; apply Permutation.Permutation_app_tail, Hm|].
  rewrite <- List.app_assoc.
  now apply Permutation.Permutation_app_head.
Qed.

Lemma parse_option_conserves (a : string) (io_cfg : tag_lsp_io_cfg_t)
    (ret : Z) : conserves (parse_option a io_cfg ret).
Proof.
  intros [[l si en pa ld lf lv fl] w h]. unfold parse_option.
  repeat match goal with
         | |- context [if ?b then _ else _] =>
             lazymatch b with
             | context [strcmp] => destruct b
             | context [strncmp] => destruct b
             end
         end;
    cbv zeta;
    try match goal with
        | |- context [sscanf_d ?o ?r] => destruct (sscanf_d o r) as [n r']
        end;
    try match goal with
        | |- context [if negb (?n =? 1) then _ else _] => destruct (n =? 1)
        end;
    unfold when; unfold_M;
    cbn [negb g_tags env atexit_fns config_logdir config_logfile];
    try (destruct (ld =? NULL) eqn:Hld); try (destruct (lf =? NULL) eqn:Hlf);
    cbn [negb g_tags env atexit_fns config_logdir config_logfile]; answer;
    cbn [List.app freed strdup_answers flat_map fst snd freed_by g_tags
         log_strings non_null filter config_logdir config_logfile
         set_config_logdir set_config_logfile negb];
    unfold NULL in *;
    repeat match goal with
           | H : (_ =? _) = _ |- _ => rewrite ?H; clear H
           | |- context [?r =? 0] => destruct (r =? 0)
           end;
    cbn [negb List.app];
    auto using Permutation.Permutation_refl, Permutation.perm_swap,
      Permutation.perm_skip.
Qed.

Lemma parse_options_conserves (argv : list string) :
  forall io_cfg ret, conserves (parse_options argv io_cfg ret).
Proof.
  induction argv as [|a argv IH]; intros io_cfg ret; cbn [parse_options].
  - intros st. cbn. rewrite List.app_nil_r. apply Permutation.Permutation_refl.
  - apply conserves_bind; [apply parse_option_conserves|].
    intros [c r]. apply IH.
Qed.

End LogStringFacts.


Section LogStringUse.

Context `{E : Externals}.

Lemma non_null_In (l : list ptr) (p : ptr) : In p (non_null l) -> p <> NULL.
Proof.
  unfold non_null. rewrite filter_In. intros [_ H] ->. discriminate.
Qed.

Lemma parser_conserves (argv : list string) :
  conserves (_parser_command_line_options argv).
Proof.
  unfold _parser_command_line_options. apply conserves_bind.
  - apply parse_options_conserves.
  - intros r st. cbn. rewrite List.app_nil_r.
    apply Permutation.Permutation_refl.
Qed.

Lemma parser_logs_only (argv : list string) :
  writes_logs_only (_parser_command_line_options argv).
Proof.
  unfold _parser_command_line_options. apply logs_only_bind.
  - apply parse_options_logs_only.
  - intros r st. apply kept_refl.
Qed.

End LogStringUse.

(** X3: option parsing neither loses nor frees twice a log string.  Over a
    whole run of [_parser_command_line_options], whatever the arguments and
    however it ends, the strings held at the start together with the
    non-NULL strings [lsp_strdup] returned are, counted with multiplicity,
    exactly the blocks freed together with the strings held at the end; in
    particular NULL is never freed.  No other field of [g_tags] changes. *)
Theorem log_strings_accounted `{E : Externals} (argv : list string)
    (st : state) :
  let '(_, st', t) := _parser_command_line_options argv st in
  Permutation.Permutation
    (log_strings (g_tags st) ++ non_null (strdup_answers t))
    (freed t ++ log_strings (g_tags st')) /\
  Forall (fun p => p <> NULL) (freed t) /\
  kept_by_parsing (g_tags st) (g_tags st').
Proof.
  pose proof (parser_conserves argv st) as Hc.
  pose proof (parser_logs_only argv st) as Hk.
  destruct (_parser_command_line_options argv st) as [[o st'] t].
  cbn [fst snd] in Hk. repeat split; try apply Hk; try exact Hc.
  apply Forall_forall. intros p Hp.
  assert (Hin : In p (log_strings (g_tags st) ++ non_null (strdup_answers t))).
  { eapply Permutation.Permutation_in;
      [apply Permutation.Permutation_sym, Hc|].
    apply in_or_app. now left. }
  apply in_app_or in Hin as [Hin|Hin]; eapply non_null_In; exact Hin.
Qed.


(** ** A work queue that never empties *)

Section StalledFacts.

Context `{E : Externals}.

Lemma wait_stalls (fuel : nat) :
  forall st,
    (forall n, ~ drains_in n (loop (g_tags st)) (env st)) ->
    let '(o, st', t) := _wait_for_pending_task fuel st in
    o = Timeout /\ g_tags st' = g_tags st /\
    List.length t = (2 * fuel)%nat /\
    Forall (fun e => teardown_call (fst e) = false) t.
Proof.
  induction fuel as [|fuel IH]; intros st Hnever.
  - cbn. repeat split; constructor.
  - cbn [_wait_for_pending_task]. rewrite bind_ext.
    pose proof (Hnever 0%nat) as H0. cbn [drains_in] in H0.
    pose proof (fun n => Hnever (S n)) as HS. cbn [drains_in] in HS.
    destruct (respond c_lsp_work_queue_size (env st)) as [w1 r1] eqn:Hq.
    cbn [fst snd] in H0, HS.
    destruct (r1 =? 0) eqn:Hr1; [apply Z.eqb_eq in Hr1; contradiction|].
    cbn [negb]. rewrite bind_read. rewrite bind_ext. simpl_state.
    destruct (respond (c_uv_run (loop (g_tags st)) UV_RUN_ONCE) w1)
      as [w2 r2] eqn:Hrun.
    cbn [fst] in HS.
    specialize (IH (mk_state (g_tags st) w2 (atexit_fns st))).
    cbn [g_tags env] in IH.
    assert (Hnext : forall n, ~ drains_in n (loop (g_tags st)) w2).
    { intros n Hn. apply (HS n). split; [|exact Hn].
      now apply Z.eqb_neq. }
    specialize (IH Hnext).
    destruct (_wait_for_pending_task fuel _) as [[o st'] t].
    destruct IH as (-> & Hg & Hlen & Hall).
    repeat split; try assumption.
    + cbn [List.length]. rewrite Hlen. lia.
    + repeat constructor. exact Hall.
Qed.

End StalledFacts.

Lemma stalled_never_drains (l : ptr) (n : nat) :
  forall w, ~ drains_in (E := Stalled.stalled_externals) n l w.
Proof.
  induction n as [|n IH]; intros w; cbn.
  - discriminate.
  - intros [_ H]. exact (IH _ H).
Qed.

(** X4: the wait loop of [_at_exit] has no way out but an empty queue.  If
    the work source never lets the queue size read zero, then however many
    turns the loop is given it is still inside it: every turn is spent (two
    calls each, after the log line and the cancellation), the shutdown flag
    is set, and no tear-down call - no close, no free, no reactor
    destruction - has been made. *)
Theorem stalled_queue_blocks_exit `{E : Externals} (fuel : nat) (st : state) :
  (forall n, ~ drains_in n (loop (g_tags st)) (at_drain_start st)) ->
  let '(o, st', t) := _at_exit fuel st in
  o = Timeout /\
  List.length t = (2 + 2 * fuel)%nat /\
  Forall (fun e => teardown_call (fst e) = false) t /\
  g_tags st' = set_flags_shutdown 1 (g_tags st).
Proof.
  intros Hnever. destruct (at_exit_run fuel st) as (r1 & r2 & ->).
  unfold bind at 1.
  match goal with
  | |- context [_wait_for_pending_task fuel ?s] =>
      pose proof (wait_stalls fuel s) as Hw;
        destruct (_wait_for_pending_task fuel s) as [[o st'] t]
  end.
  cbn [g_tags env loop set_flags_shutdown] in Hw.
  destruct (Hw Hnever) as (-> & Hg & Hlen & Hall).
  repeat split.
  - cbn [List.length]. rewrite Hlen. lia.
  - repeat constructor. exact Hall.
  - exact Hg.
Qed.

Lemma stalled_queue_blocks_exit_witness :
  (forall n, ~ drains_in (E := Stalled.stalled_externals) n
                 (loop (g_tags Stalled.start))
                 (at_drain_start Stalled.start)) /\
  fst (fst (_at_exit (E := Stalled.stalled_externals) 5 Stalled.start)) =
  Timeout.
Proof.
  split; [intros n; apply stalled_never_drains|].
  pose proof (stalled_queue_blocks_exit (E := Stalled.stalled_externals) 5
                Stalled.start
                (fun n => stalled_never_drains _ n _)) as H.
  destruct (_at_exit 5 Stalled.start) as [[o st'] t]. exact (proj1 H).
Defined.


(** ** Whole runs of [main] *)

Section RunFacts.

Import Options.

Context `{E : Externals}.

(** Name the parts of a finished run, and the loop block in its events. *)
Ltac grab :=
  let Ho := fresh "Ho" in
  let Hst := fresh "Hst" in
  let Ht := fresh "Ht" in
  intros [= Ho Hst Ht];
  match type of Ht with
  | context [(c_lsp_malloc uv_loop_t, ?p)] => pose (l := p)
  end;
  match type of Ht with
  | ?t = _ => pose (tr := t)
  end;
  rewrite <- ?Ho, <- ?Hst, <- ?Ht; clear Ho Hst Ht.

Ltac handles :=
  match goal with
  | x := context [(c_lsp_malloc uv_loop_t, ?p)] |- _ =>
      match goal with
      | _ := context [(c_lsp_malloc uv_signal_t, ?h1)] |- _ =>
          match goal with
          | _ := context [(c_lsp_malloc uv_async_t, ?h2)] |- _ =>
              exists p, h1, h2, (firstn 10 x)
          end
      end
  end.

Lemma parser_run (argv : list string) (st : state) :
  Forall (fun a => no_nul a = true) argv ->
  let '(o, _, t) := _parser_command_line_options argv st in
  Forall (fun e => parsing_call (fst e) = true) t /\
  match first_stop argv with
  | Some s => o = Exit (status_of s)
  | None =>
      exists cfg,
        o = Ret cfg /\ transport_of cfg = Some (last_selector argv) /\
        io_cb cfg = fn_on_io_in
  end.
Proof.
  intros Hwf. unfold _parser_command_line_options. cbv zeta. unfold bind.
  match goal with
  | |- context [parse_options argv ?c ?z st] =>
      pose proof (parse_options_run argv Hwf c z st Stdio eq_refl) as Hrun;
        destruct (parse_options argv c z st) as [[o st'] t]
  end.
  destruct Hrun as [_ Hrun]. destruct (first_stop argv) as [s|].
  - destruct Hrun as (-> & t0 & r & -> & Hall). split; [|reflexivity].
    apply Forall_app. split; [exact Hall|]. now repeat constructor.
  - destruct Hrun as (Hall & cfg & ret & -> & Ht & Hcb). cbn.
    rewrite List.app_nil_r. split; [exact Hall|]. now exists cfg.
Qed.

(** The runs of [main]: the loop cannot be initialised; the signal watcher
    cannot; an argument ends the process; or the server starts and the
    reactor is run. *)
Lemma main_cases (argc : Z) (argv : list string) (st : state) :
  Forall (fun a => no_nul a = true) argv ->
  let '(o, st', t) := main argc argv st in
  atexit_fns st' = fn_at_exit :: atexit_fns st /\
  exists l h1 h2 t0,
    (o = Abort /\
     g_tags st' = set_loop l (set_config_lsp_log_level LSP_MSG_INFO (g_tags st)) /\
     exists r r',
       r <> 0 /\ map fst t0 = entry_calls argc argv /\ allocated t0 = [l] /\
       t = t0 ++ [(c_uv_loop_init l, r);
                  (c_fprintf_stderr
                     ("initialize main event loop failed." +++ LF), r')]) \/
    (o = Abort /\
     g_tags st' =
       set_sigint h1
         (set_loop l (set_config_lsp_log_level LSP_MSG_INFO (g_tags st))) /\
     exists r r',
       r <> 0 /\
       map fst t0 =
         entry_calls argc argv ++ [c_uv_loop_init l; c_lsp_malloc uv_signal_t] /\
       allocated t0 = [l; h1] /\
       t = t0 ++ [(c_uv_signal_init l h1, r);
                  (c_fprintf_stderr ("initialize sigint failed." +++ LF), r')]) \/
    (map fst t0 = setup_calls argc argv l h1 h2 /\
     allocated t0 = [l; h1; h2] /\
     In (c_uv_loop_init l, 0) t0 /\ In (c_uv_signal_init l h1, 0) t0 /\
     exists s0 op s1 tp,
       g_tags s0 = set_up l h1 h2 (g_tags st) /\
       _parser_command_line_options argv s0 = (op, s1, tp) /\
       Forall (fun e => parsing_call (fst e) = true) tp /\
       match first_stop argv with
       | Some s => o = Exit (status_of s) /\ st' = s1 /\ t = t0 ++ tp
       | None =>
           exists cfg pid ppid p ts,
             transport_of cfg = Some (last_selector argv) /\
             io_cb cfg = fn_on_io_in /\
             o = Ret 0 /\ g_tags st' = set_parser p (g_tags s1) /\
             t = t0 ++ tp ++ ts /\
             map fst ts = service_calls cfg pid ppid l /\
             allocated ts = [p] /\
             In (c_uv_os_getpid, pid) ts /\ In (c_uv_os_getppid, ppid) ts
       end).
Proof.
  intros Hwf. pose proof (main_hooks argc argv st) as Hh.
  destruct (main argc argv st) as [[o st'] t] eqn:Hmain. cbn [fst snd] in Hh.
  split; [exact Hh|]. clear Hh.
  revert Hmain. unfold main. rewrite bind_ext. simpl_state.
  destruct (respond (c_signal_ignore SIGPIPE) (env st)) as [w r1].
  rewrite bind_atexit. unfold _initialize. exec.
  branch Hloop.
  2:{ exec. grab.
      exists l, 0, 0, (firstn 4 tr). left. split; [reflexivity|].
      split; [reflexivity|]. do 2 eexists. split; [exact Hloop|].
      now repeat split. }
  unfold _signal_sigint_init. exec.
  branch Hsig.
  2:{ exec. grab.
      match goal with
      | _ := context [(c_lsp_malloc uv_signal_t, ?h)] |- _ =>
          exists l, h, 0, (firstn 6 tr)
      end.
      right. left. split; [reflexivity|].
      split; [reflexivity|]. do 2 eexists. split; [exact Hsig|].
      now repeat split. }
  exec. unfold _init_exit_notifier. exec. unfold bind at 1.
  match goal with
  | |- context [_parser_command_line_options argv ?s] =>
      pose proof (parser_run argv s Hwf) as Hp; pose (s0 := s);
        destruct (_parser_command_line_options argv s) as [[op s1] tp] eqn:Hpar
  end.
  destruct Hp as [Hall Hp]. destruct (first_stop argv) as [s|].
  - subst op. grab.
    handles.
    right. right. repeat (split; [now cbn; auto 10|]).
    exists s0, (Exit (status_of s)), s1, tp. now repeat split.
  - destruct Hp as (cfg & -> & Hcfg & Hcb).
    unfold _show_welecome, service_calls, id_calls.
    destruct args_left_to_right; exec; cbn [fst snd];
      pose proof (parser_logs_only argv s0) as Hk; unfold s0 in Hk;
      rewrite Hpar in Hk; destruct Hk as (Hl & _); cbn in Hl; rewrite Hl;
      grab; handles;
      right; right; repeat (split; [now cbn; auto 10|]);
      exists s0, (Ret cfg), s1, tp; repeat (split; [easy|]);
      match goal with
      | _ := context [tp ++ ?ts] |- _ =>
          match ts with
          | context [(c_uv_os_getpid, ?pid)] =>
              match ts with
              | context [(c_uv_os_getppid, ?ppid)] =>
                  match ts with
                  | context [(c_lsp_parser_create fn_handle_request, ?p)] =>
                      exists cfg, pid, ppid, p, ts
                  end
              end
          end
      end;
      repeat (split; [now cbn; auto 10|]); cbn; auto 10.
Qed.

End RunFacts.


(** X5: a start-up that meets no stopping argument ends in the reactor run,
    unless the reactor could not be set up.  [main] then returns 0, and its
    calls are, in this order: the set-up of the loop, the signal watcher and
    the exit notifier; those of option parsing; then [lsp_log_init], the
    welcome text, [uv_os_getpid] and [uv_os_getppid] in the order the
    compiler gave the arguments of [LSP_LOG], the two answers in one log
    line, [tag_lsp_io_init] with the transport the last selector chose (a
    port being the [int] that [%d] stored) and [_on_io_in] as callback,
    [lsp_msg_init], [lsp_work_init], [lsp_parser_create], the reactor run
    and the last log line.  [g_tags] holds the four blocks obtained, the
    log level is [LSP_MSG_INFO] and the shutdown flag is as it was. *)
Theorem server_start `{E : Externals} (argc : Z) (argv : list string)
    (st : state) :
  Forall (fun a => no_nul a = true) argv ->
  Options.first_stop argv = None ->
  let '(o, st', t) := main argc argv st in
  let g' := g_tags st' in
  o = Abort \/
  (o = Ret 0 /\
   exists cfg pid ppid t0 tp ts,
     t = t0 ++ tp ++ ts /\
     map fst t0 =
       setup_calls argc argv (loop g') (sigint g') (exit_notifier g') /\
     allocated t0 = [loop g'; sigint g'; exit_notifier g'] /\
     Forall (fun e => parsing_call (fst e) = true) tp /\
     map fst ts = service_calls cfg pid ppid (loop g') /\
     In (c_uv_os_getpid, pid) ts /\ In (c_uv_os_getppid, ppid) ts /\
     allocated ts = [parser g'] /\
     Options.transport_of cfg = Some (Options.last_selector argv) /\
     io_cb cfg = fn_on_io_in /\
     config_lsp_log_level g' = LSP_MSG_INFO /\
     flags_shutdown g' = flags_shutdown (g_tags st)).
Proof.
  intros Hwf Hgo. pose proof (main_cases argc argv st Hwf) as H.
  destruct (main argc argv st) as [[o st'] t]. cbv zeta.
  destruct H as (_ & l & h1 & h2 & t0 & [H|[H|H]]);
    [left; apply H|left; apply H|].
  destruct H as (Ht0 & Ha0 & _ & _ & s0 & op & s1 & tp & Hg0 & Hpar & Hall & H).
  rewrite Hgo in H.
  destruct H as (cfg & pid & ppid & p & ts & Hcfg & Hcb & -> & Hg & -> & Hts
                 & Hats & Hpid & Hppid).
  pose proof (parser_logs_only argv s0) as Hk. rewrite Hpar in Hk.
  cbn [fst snd] in Hk. rewrite Hg0 in Hk.
  destruct Hk as (Hl & Hs & Hn & _ & Hlv & Hfl). cbn in Hl, Hs, Hn, Hlv, Hfl.
  right. split; [reflexivity|]. exists cfg, pid, ppid, t0, tp, ts.
  rewrite Hg. simpl_state. rewrite Hl, Hs, Hn, Hlv, Hfl.
  now repeat split.
Qed.

Lemma server_start_witness :
  let argv := ["tags-lsp"; "--pipe=/tmp/s"; "--port=7"] in
  Forall (fun a => no_nul a = true) argv /\
  Options.first_stop argv = None /\
  fst (fst (main (E := Sim.sim_externals) 3 argv (Sim.start 0))) = Ret 0.
Proof.
  cbv zeta.
  assert (Hwf : Forall (fun a => no_nul a = true)
                  ["tags-lsp"; "--pipe=/tmp/s"; "--port=7"])
    by (repeat constructor).
  split; [exact Hwf|]. split; [reflexivity|].
  pose proof (server_start (E := Sim.sim_externals) 3
                ["tags-lsp"; "--pipe=/tmp/s"; "--port=7"] (Sim.start 0)
                Hwf eq_refl) as H.
  destruct (main 3 ["tags-lsp"; "--pipe=/tmp/s"; "--port=7"] (Sim.start 0))
    as [[o st'] t] eqn:Hm.
  destruct H as [H|[H _]]; [|exact H].
  vm_compute in Hm. rewrite H in Hm. discriminate Hm.
Defined.


(** ** Blocks obtained and blocks freed *)

Section BalanceFacts.

Import Options.
Import Permutation.

Context `{E : Externals}.

Lemma allocated_app (t1 t2 : list event) :
  allocated (t1 ++ t2) = allocated t1 ++ allocated t2.
Proof. apply flat_map_app. Qed.

Lemma allocated_none (t : list event) :
  Forall (fun e => allocating (fst e) = false) t -> allocated t = [].
Proof.
  induction 1 as [|[c r] t Hc _ IH]; [reflexivity|].
  unfold allocated in *. cbn [flat_map fst snd] in *. rewrite IH.
  now destruct c.
Qed.

Lemma allocated_parsing (t : list event) :
  Forall (fun e => parsing_call (fst e) = true) t ->
  allocated t = strdup_answers t.
Proof.
  induction 1 as [|[c r] t Hc _ IH]; [reflexivity|].
  unfold allocated, strdup_answers in *. cbn [flat_map fst snd] in *.
  rewrite IH. now destruct c.
Qed.

Lemma freed_none (t : list event) (cs : list call) :
  map fst t = cs -> Forall (fun c => freed_by c = []) cs -> freed t = [].
Proof.
  intros <-. induction t as [|e t IH]; [reflexivity|].
  cbn [map]. intros H. inversion H as [|? ? He Ht]; subst.
  rewrite freed_cons, He. now apply IH.
Qed.

Lemma non_null_perm (l l' : list ptr) :
  Permutation l l' -> Permutation (non_null l) (non_null l').
Proof.
  unfold non_null. induction 1 as [|x l l' _ IH|x y l|l l' l'' _ IH1 _ IH2].
  - constructor.
  - cbn. destruct (negb (x =? NULL)); [now constructor|exact IH].
  - cbn. destruct (negb (x =? NULL)), (negb (y =? NULL));
      try apply Permutation_refl; try apply perm_swap.
  - eapply Permutation_trans; eassumption.
Qed.

Lemma owned_blocks (g : g_tags_t) :
  Permutation
    (non_null [loop g; sigint g; exit_notifier g] ++ log_strings g ++
     non_null [parser g])
    (owned g).
Proof.
  unfold log_strings, owned. rewrite <- !non_null_app.
  apply non_null_perm. cbn [List.app]. apply perm_skip.
  change (Permutation
            ([sigint g; exit_notifier g] ++
             [config_logdir g; config_logfile g] ++ [parser g])
            ([parser g] ++ [config_logdir g; config_logfile g] ++
             [sigint g; exit_notifier g])).
  eapply Permutation_trans; [apply Permutation_app_comm|].
  rewrite (List.app_assoc [parser g]). apply Permutation_app_tail.
  apply Permutation_app_comm.
Qed.

Lemma owned_nothing (g : g_tags_t) :
  owned g = [] ->
  log_strings g = [] /\ parser g = NULL.
Proof.
  unfold owned, log_strings, non_null. cbn [filter].
  destruct (loop g =? NULL), (parser g =? NULL) eqn:Hp,
    (config_logdir g =? NULL), (config_logfile g =? NULL),
    (sigint g =? NULL), (exit_notifier g =? NULL); cbn; try discriminate.
  intros _. split; [reflexivity|]. now apply Z.eqb_eq.
Qed.

(** What [main] obtained and did not free, [g_tags] holds. *)
Lemma main_balance (argc : Z) (argv : list string) (st : state) :
  Forall (fun a => no_nul a = true) argv ->
  owned (g_tags st) = [] ->
  let '(o, st', t) := main argc argv st in
  o <> Abort ->
  Permutation (non_null (allocated t)) (freed t ++ owned (g_tags st')).
Proof.
  intros Hwf Hown. apply owned_nothing in Hown as [Hlogs Hparser].
  pose proof (main_cases argc argv st Hwf) as H.
  destruct (main argc argv st) as [[o st'] t].
  destruct H as (_ & l & h1 & h2 & t0 & [H|[H|H]]);
    [intros Ho; now destruct H|intros Ho; now destruct H|].
  intros _.
  destruct H as (Ht0 & Ha0 & _ & _ & s0 & op & s1 & tp & Hg0 & Hpar & Hall & H).
  pose proof (parser_logs_only argv s0) as Hk.
  pose proof (parser_conserves argv s0) as Hc.
  rewrite Hpar in Hk, Hc. cbn [fst snd] in Hk. rewrite Hg0 in Hk.
  destruct Hk as (Hl & Hs & Hn & Hp & _). cbn in Hl, Hs, Hn, Hp.
  assert (Hlogs0 : log_strings (g_tags s0) = [])
    by (rewrite Hg0; exact Hlogs).
  rewrite Hlogs0 in Hc. cbn [List.app] in Hc.
  rewrite <- (allocated_parsing tp Hall) in Hc.
  assert (Hf0 : freed t0 = []).
  { apply (freed_none t0 _ Ht0). unfold setup_calls, entry_calls.
    repeat constructor. }
  assert (Hgoal : forall g' ts,
             loop g' = l -> sigint g' = h1 -> exit_notifier g' = h2 ->
             log_strings g' = log_strings (g_tags s1) ->
             freed ts = [] ->
             non_null (allocated ts) = non_null [parser g'] ->
             Permutation (non_null (allocated (t0 ++ tp ++ ts)))
                         (freed (t0 ++ tp ++ ts) ++ owned g')).
  { intros g' ts Hl' Hs' Hn' Hlog' Hfs Has.
    rewrite !allocated_app, !non_null_app, !freed_app, Hf0, Hfs, Ha0, Has.
    rewrite List.app_nil_r. cbn [List.app].
    eapply Permutation_trans;
      [|apply Permutation_app_head, owned_blocks].
    rewrite Hl', Hs', Hn', Hlog'.
    eapply Permutation_trans;
      [apply Permutation_app_head, Permutation_app_tail, Hc|].
    rewrite <- !List.app_assoc.
    apply (Permutation_app_swap_app
             (non_null [l; h1; h2]) (freed tp)). }
  destruct (first_stop argv) as [s|].
  - destruct H as (_ & -> & ->).
    replace (t0 ++ tp) with (t0 ++ tp ++ [])
      by now rewrite List.app_nil_r.
    apply Hgoal; try assumption; try reflexivity.
    rewrite Hp, Hparser. reflexivity.
  - destruct H as (cfg & pid & ppid & p & ts & _ & _ & _ & Hg & -> & Hts
                   & Hats & _).
    rewrite Hg. apply Hgoal; try assumption; try reflexivity.
    + apply (freed_none ts _ Hts). unfold service_calls, id_calls.
      destruct args_left_to_right; repeat constructor.
    + now rewrite Hats.
Qed.

(** The exit hook obtains no block. *)
Lemma at_exit_allocates_nothing (fuel : nat) (st : state) :
  allocated (snd (_at_exit fuel st)) = [].
Proof.
  pose proof (at_exit_cases fuel st) as H. cbv zeta in H.
  destruct (_at_exit fuel st) as [[o st'] t]. cbn [snd].
  destruct H as (r1 & r2 & turns & Hturns & H).
  assert (Hturns' : allocated turns = []).
  { apply allocated_none. apply drain_turns_calls in Hturns.
    revert Hturns. apply Forall_impl. now intros [c r] [->| ->]. }
  destruct H as [(_ & _ & _ & _ & ->)|(s1 & td & _ & Hg & _ & Htd & ->)].
  - exact Hturns'.
  - change (allocated (turns ++ (c_lsp_work_queue_size, 0) :: td) = []).
    rewrite allocated_app, Hturns'. change (allocated td = []).
    pose proof (teardown_cases s1) as Hc. cbv zeta in Hc. rewrite Htd in Hc.
    destruct Hc as (_ & t1 & Ht1 & Hc).
    assert (H1 : allocated t1 = []).
    { apply allocated_none.
      apply (calls_forall (fun c => allocating c = false) _ _ Ht1).
      unfold closing_calls. repeat constructor. }
    destruct Hc as [(t2 & _ & -> & _ & Hab & _)
                   |(t2 & t3 & r & _ & -> & Ht2 & _ & _ & Ht3 & _)].
    + rewrite allocated_app, H1.
      destruct Hab as [(r & _ & ->)|(r & _ & ->)]; reflexivity.
    + rewrite !allocated_app, H1.
      assert (H2 : allocated t2 = []).
      { apply allocated_none.
        apply (calls_forall (fun c => allocating c = false) _ _ Ht2).
        unfold reactor_calls. destruct (loop (g_tags s1) =? NULL);
          repeat constructor. }
      assert (H3 : allocated t3 = []).
      { apply allocated_none.
        apply (calls_forall (fun c => allocating c = false) _ _ Ht3).
        unfold release_calls, guard.
        destruct (parser (g_tags s1) =? NULL),
          (config_logdir (g_tags s1) =? NULL),
          (config_logfile (g_tags s1) =? NULL),
          (sigint (g_tags s1) =? NULL),
          (exit_notifier (g_tags s1) =? NULL); repeat constructor. }
      now rewrite H2, H3.
Qed.

End BalanceFacts.


Section ExitFacts.

Import Options.

Context `{E : Externals}.

(** The process after [main] returned or called [exit]: the hook ran to its
    end exactly when the process exits. *)
Lemma exited_hook (o : outcome unit) (status status' : Z) :
  (o = Ret tt \/ o = Abort \/ o = Timeout) ->
  term_of o status = Exited status' -> o = Ret tt /\ status' = status.
Proof.
  intros [->|[->| ->]]; cbn; [|discriminate|discriminate].
  now intros [= ->].
Qed.

End ExitFacts.

(** X6: a process that exits - neither aborted nor stuck in the wait loop -
    gives back, counted with multiplicity, exactly the blocks it obtained.
    Started with no block held, the non-NULL answers of [lsp_malloc],
    [lsp_strdup] and [lsp_parser_create] over the whole run are a
    permutation of the blocks passed to [free], [lsp_free] and
    [lsp_parser_destroy]; this holds for a usage exit as for a server that
    ran, and whatever log options were given, repeated or not. *)
Theorem exit_frees_what_was_obtained `{E : Externals} (fuel : nat) (argc : Z)
    (argv : list string) (st : state) (status : Z) :
  Forall (fun a => no_nul a = true) argv ->
  atexit_fns st = [] ->
  owned (g_tags st) = [] ->
  let '(term, _, t) := process fuel argc argv st in
  term = Exited status ->
  Permutation.Permutation (non_null (allocated t)) (freed t).
Proof.
  intros Hwf Hfns Hown. rewrite (process_run fuel argc argv st Hfns).
  pose proof (main_balance argc argv st Hwf Hown) as Hb.
  destruct (main argc argv st) as [[[s|s| | ] st1] t1];
    try discriminate;
    pose proof (at_exit_resources fuel st1) as Hr;
    pose proof (at_exit_outcome fuel st1) as Ho;
    pose proof (at_exit_allocates_nothing fuel st1) as Ha;
    cbv zeta in Hr, Ho;
    destruct (_at_exit fuel st1) as [[o st2] t2]; cbn [fst snd] in Ho, Ha;
    intros Hterm; destruct (exited_hook o s status Ho Hterm) as [-> _];
    destruct Hr as (_ & _ & Hr); destruct (Hr eq_refl) as (_ & Hf & _);
    rewrite allocated_app, freed_app, Ha, Hf, List.app_nil_r;
    apply Hb; discriminate.
Qed.

Lemma exit_frees_what_was_obtained_witness :
  let argv := ["tags-lsp"; "--logdir=/a"; "--logfile=/f"; "--logdir=/b"] in
  Forall (fun a => no_nul a = true) argv /\
  atexit_fns (Sim.start 2) = [] /\
  owned (g_tags (Sim.start 2)) = [] /\
  fst (fst (process (E := Sim.sim_externals) 10 4 argv (Sim.start 2))) =
  Exited 0 /\
  Permutation.Permutation
    (non_null
       (allocated (snd (process (E := Sim.sim_externals) 10 4 argv
                          (Sim.start 2)))))
    (freed (snd (process (E := Sim.sim_externals) 10 4 argv (Sim.start 2)))).
Proof.
  cbv zeta.
  assert (Hwf : Forall (fun a => no_nul a = true)
                  ["tags-lsp"; "--logdir=/a"; "--logfile=/f"; "--logdir=/b"])
    by (repeat constructor).
  split; [exact Hwf|]. split; [reflexivity|]. split; [reflexivity|].
  assert (Hterm : fst (fst (process (E := Sim.sim_externals) 10 4
                              ["tags-lsp"; "--logdir=/a"; "--logfile=/f";
                               "--logdir=/b"] (Sim.start 2))) = Exited 0)
    by (vm_compute; reflexivity).
  split; [exact Hterm|].
  pose proof (exit_frees_what_was_obtained (E := Sim.sim_externals) 10 4
                ["tags-lsp"; "--logdir=/a"; "--logfile=/f"; "--logdir=/b"]
                (Sim.start 2) 0 Hwf eq_refl eq_refl) as H.
  destruct (process 10 4 _ (Sim.start 2)) as [[term st'] t].
  exact (H Hterm).
Defined.


Section StatusFacts.

Import Options.

Context `{E : Externals}.

(** What holds of every call of the exit hook holds of its events. *)
Lemma at_exit_forall (P : call -> Prop) (fuel : nat) (st : state) :
  let g := g_tags st in
  P (c_LSP_LOG LSP_MSG_DEBUG "cleanup..." []) ->
  P c_lsp_msg_cancel_all_pending_request ->
  P c_lsp_work_queue_size ->
  P (c_uv_run (loop g) UV_RUN_ONCE) ->
  Forall P (closing_calls g) ->
  P (c_uv_run (loop g) UV_RUN_DEFAULT) ->
  P (c_uv_loop_close (loop g)) ->
  P (c_lsp_free (loop g)) ->
  Forall P (release_calls g) ->
  P c_uv_library_shutdown ->
  Forall (fun e => P (fst e)) (snd (_at_exit fuel st)).
Proof.
  intros g Hlog Hcancel Hsize Honce Hclosing Hrun Hclose Hfree Hrelease Hshut.
  pose proof (at_exit_cases fuel st) as H. cbv zeta in H.
  destruct (_at_exit fuel st) as [[o st'] t]. cbn [snd].
  destruct H as (r1 & r2 & turns & Hturns & H).
  assert (Hturns' : Forall (fun e => P (fst e)) turns).
  { apply drain_turns_calls in Hturns. revert Hturns. apply Forall_impl.
    now intros [c r] [->| ->]. }
  destruct H as [(_ & _ & _ & _ & ->)|(s1 & td & _ & Hg & _ & Htd & ->)].
  - repeat constructor; assumption.
  - constructor; [exact Hlog|]. constructor; [exact Hcancel|].
    apply Forall_app.
    split; [exact Hturns'|]. constructor; [exact Hsize|].
    pose proof (teardown_cases s1) as Hc. cbv zeta in Hc. rewrite Htd in Hc.
    rewrite Hg in Hc. subst g.
    unfold closing_calls, reactor_calls, release_calls in *.
    cbn [loop sigint exit_notifier parser config_logdir config_logfile
         set_flags_shutdown] in Hc.
    destruct Hc as (_ & t1 & Ht1 & Hc).
    assert (H1 : Forall (fun e => P (fst e)) t1)
      by (apply (calls_forall P _ _ Ht1); exact Hclosing).
    destruct Hc as [(t2 & _ & -> & _ & Hab & _)
                   |(t2 & t3 & r & _ & -> & Ht2 & _ & _ & Ht3 & _)].
    + apply Forall_app. split; [exact H1|].
      destruct Hab as [(r & _ & ->)|(r & _ & ->)]; now repeat constructor.
    + apply Forall_app. split; [exact H1|]. apply Forall_app. split.
      * apply (calls_forall P _ _ Ht2).
        destruct (loop (g_tags st) =? NULL); now repeat constructor.
      * apply Forall_app. split; [|now repeat constructor].
        apply (calls_forall P _ _ Ht3). exact Hrelease.
Qed.

End StatusFacts.

(** X7: the exit status tells how start-up went.  When the process exits,
    its status is [EXIT_FAILURE] if the first argument that ends the process
    is a [--port=] whose value [%d] cannot read, and [EXIT_SUCCESS]
    otherwise - after [-h] or [--help], and after a server that ran; the
    exit hook has then run to its end: every slot of [g_tags] is NULL, the
    log level is [LSP_MSG_INFO] and the shutdown flag is 1. *)
Theorem exit_status_meaning `{E : Externals} (fuel : nat) (argc : Z)
    (argv : list string) (st : state) (status : Z) :
  Forall (fun a => no_nul a = true) argv ->
  atexit_fns st = [] ->
  let '(term, st', _) := process fuel argc argv st in
  term = Exited status ->
  status = match Options.first_stop argv with
           | Some (Options.StopBadPort _) => EXIT_FAILURE
           | _ => EXIT_SUCCESS
           end /\
  g_tags st' = mk_g_tags NULL NULL NULL NULL NULL NULL LSP_MSG_INFO 1.
Proof.
  intros Hwf Hfns. rewrite (process_run fuel argc argv st Hfns).
  pose proof (main_cases argc argv st Hwf) as H.
  destruct (main argc argv st) as [[[s|s| | ] st1] t1];
    try discriminate;
    pose proof (at_exit_resources fuel st1) as Hr;
    pose proof (at_exit_outcome fuel st1) as Ho;
    cbv zeta in Hr, Ho;
    destruct (_at_exit fuel st1) as [[o st2] t2]; cbn [fst snd] in Ho;
    intros Hterm; destruct (exited_hook o s status Ho Hterm) as [-> ->];
    destruct Hr as (_ & _ & Hr); destruct (Hr eq_refl) as (_ & _ & ->);
    destruct H as (_ & l & h1 & h2 & t0 & [H|[H|H]]);
    try (now destruct H);
    destruct H as (_ & _ & _ & _ & s0 & op & s1 & tp & Hg0 & Hpar & _ & H);
    pose proof (parser_logs_only argv s0) as Hk; rewrite Hpar in Hk;
    cbn [fst snd] in Hk; rewrite Hg0 in Hk;
    destruct Hk as (_ & _ & _ & _ & Hlv & _); cbn in Hlv;
    destruct (Options.first_stop argv) as [stop|].
  - now destruct H.
  - destruct H as (cfg & pid & ppid & p & ts & _ & _ & [= ->] & Hg & _).
    split; [reflexivity|]. rewrite Hg. unfold released. simpl_state.
    now rewrite Hlv.
  - destruct H as ([= ->] & -> & _). split; [now destruct stop|].
    unfold released. simpl_state. now rewrite Hlv.
  - now destruct H as (cfg & pid & ppid & p & ts & _ & _ & ? & _).
Qed.

Lemma exit_status_meaning_witness :
  let argv := ["tags-lsp"; "--port=x1"; "--help"] in
  Forall (fun a => no_nul a = true) argv /\
  atexit_fns (Sim.start 1) = [] /\
  fst (fst (process (E := Sim.sim_externals) 10 3 argv (Sim.start 1))) =
  Exited 1 /\
  1 = EXIT_FAILURE.
Proof.
  cbv zeta.
  assert (Hwf : Forall (fun a => no_nul a = true)
                  ["tags-lsp"; "--port=x1"; "--help"])
    by (repeat constructor).
  split; [exact Hwf|]. split; [reflexivity|].
  assert (Hterm : fst (fst (process (E := Sim.sim_externals) 10 3
                              ["tags-lsp"; "--port=x1"; "--help"]
                              (Sim.start 1))) = Exited 1)
    by (vm_compute; reflexivity).
  split; [exact Hterm|].
  pose proof (exit_status_meaning (E := Sim.sim_externals) 10 3
                ["tags-lsp"; "--port=x1"; "--help"] (Sim.start 1) 1
                Hwf eq_refl) as H.
  destruct (process 10 3 _ (Sim.start 1)) as [[term st'] t].
  exact (proj1 (H Hterm)).
Defined.


(** X8: the three ways the process aborts.  Either start-up failed -
    [uv_loop_init] or [uv_signal_init] answered non-zero, its message on
    [stderr] is the last event, and, [abort] running no exit hook, no
    tear-down call was made and the shutdown flag is as it was: the blocks
    obtained so far are not given back - or the exit hook ran and found the
    reactor active when it destroyed it, with the flag set. *)
Theorem abort_causes `{E : Externals} (fuel : nat) (argc : Z)
    (argv : list string) (st : state) :
  Forall (fun a => no_nul a = true) argv ->
  atexit_fns st = [] ->
  let '(term, st', t) := process fuel argc argv st in
  term = Aborted ->
  (exists t0 c r text r',
      t = t0 ++ [(c, r); (c_fprintf_stderr text, r')] /\
      r <> 0 /\ startup_failure c text /\
      Forall (fun e => teardown_call (fst e) = false) t /\
      flags_shutdown (g_tags st') = flags_shutdown (g_tags st)) \/
  (exists t0 t1,
      t = t0 ++ t1 /\ aborting (loop (g_tags st')) t1 /\
      loop (g_tags st') <> NULL /\ flags_shutdown (g_tags st') = 1).
Proof.
  intros Hwf Hfns. rewrite (process_run fuel argc argv st Hfns).
  pose proof (main_cases argc argv st Hwf) as H.
  destruct (main argc argv st) as [[[s|s| | ] st1] t1].
  1,2: pose proof (at_exit_cases fuel st1) as Hc; cbv zeta in Hc;
    destruct (_at_exit fuel st1) as [[o st2] t2];
    destruct Hc as (r1 & r2 & turns & _ & Hc);
    intros Hterm; right;
    (destruct Hc as [(-> & _)|(s1 & td & _ & Hg & _ & Htd & ->)];
     [discriminate|]);
    pose proof (teardown_cases s1) as Hd; cbv zeta in Hd; rewrite Htd in Hd;
    (destruct Hd as (_ & t3 & _ & [(t4 & -> & -> & Hl & Hab & Hg')
                                  |(t4 & t5 & r & -> & _)]);
     [|discriminate]);
    rewrite Hg'; exists (t1 ++ (c_LSP_LOG LSP_MSG_DEBUG "cleanup..." [], r1)
                            :: (c_lsp_msg_cancel_all_pending_request, r2)
                            :: turns ++ (c_lsp_work_queue_size, 0) :: t3), t4;
    (split; [|split; [exact Hab|split; [exact Hl|now rewrite Hg]]]);
    rewrite <- !List.app_assoc; cbn [List.app]; rewrite <- !List.app_assoc;
    reflexivity.
  2: discriminate.
  intros _. left.
  destruct H as (_ & l & h1 & h2 & t0 & [H|[H|H]]).
  - destruct H as (_ & Hg & r & r' & Hr & Ht0 & _ & ->).
    exists t0, (c_uv_loop_init l), r, ("initialize main event loop failed." +++ LF), r'.
    split; [reflexivity|]. split; [exact Hr|].
    split; [left; now exists l|]. split; [|now rewrite Hg].
    apply Forall_app. split; [|now repeat constructor].
    apply (calls_forall (fun c => teardown_call c = false) _ _ Ht0).
    now repeat constructor.
  - destruct H as (_ & Hg & r & r' & Hr & Ht0 & _ & ->).
    exists t0, (c_uv_signal_init l h1), r, ("initialize sigint failed." +++ LF), r'.
    split; [reflexivity|]. split; [exact Hr|].
    split; [right; now exists l, h1|]. split; [|now rewrite Hg].
    apply Forall_app. split; [|now repeat constructor].
    apply (calls_forall (fun c => teardown_call c = false) _ _ Ht0).
    now repeat constructor.
  - destruct H as (_ & _ & _ & _ & s0 & op & s1 & tp & _ & _ & _ & H).
    destruct (Options.first_stop argv).
    + now destruct H.
    + now destruct H as (cfg & pid & ppid & p & ts & _ & _ & ? & _).
Qed.

Lemma abort_causes_witness :
  let argv := ["tags-lsp"; "--stdio"] in
  let run := process (E := Failing.failing_externals) 10 2 argv
               Failing.start in
  Forall (fun a => no_nul a = true) argv /\
  atexit_fns Failing.start = [] /\
  fst (fst run) = Aborted /\
  ((exists t0 c r text r',
       snd run = t0 ++ [(c, r); (c_fprintf_stderr text, r')] /\
       r <> 0 /\ startup_failure c text /\
       Forall (fun e => teardown_call (fst e) = false) (snd run) /\
       flags_shutdown (g_tags (snd (fst run))) =
       flags_shutdown (g_tags Failing.start)) \/
   (exists t0 t1,
       snd run = t0 ++ t1 /\
       aborting (loop (g_tags (snd (fst run)))) t1 /\
       loop (g_tags (snd (fst run))) <> NULL /\
       flags_shutdown (g_tags (snd (fst run))) = 1)).
Proof.
  cbv zeta.
  assert (Hwf : Forall (fun a => no_nul a = true) ["tags-lsp"; "--stdio"])
    by (repeat constructor).
  split; [exact Hwf|]. split; [reflexivity|].
  assert (Hterm : fst (fst (process (E := Failing.failing_externals) 10 2
                              ["tags-lsp"; "--stdio"] Failing.start)) =
                  Aborted)
    by (vm_compute; reflexivity).
  split; [exact Hterm|].
  pose proof (abort_causes (E := Failing.failing_externals) 10 2
                ["tags-lsp"; "--stdio"] Failing.start Hwf eq_refl) as H.
  destruct (process 10 2 _ Failing.start) as [[term st'] t].
  exact (H Hterm).
Defined.


(** ** A usage exit *)

Ltac pick :=
  lazymatch goal with
  | |- _ \/ _ => first [left; pick|right; pick]
  | |- _ = _ => reflexivity
  end.

Ltac quiet_call := split; [reflexivity|intros ?; discriminate].

Ltac quiet_calls := repeat (constructor; [quiet_call|]); constructor.

Section UsageFacts.

Import Options.

Context `{E : Externals}.

Lemma parsing_quiet (t : list event) :
  Forall (fun e => parsing_call (fst e) = true) t ->
  Forall (fun e => quiet (fst e)) t.
Proof.
  apply Forall_impl. intros [c r]. cbn. unfold quiet.
  destruct c; try discriminate; intros _; now split.
Qed.

Lemma at_exit_quiet (fuel : nat) (st : state) :
  parser (g_tags st) = NULL ->
  Forall (fun e => quiet (fst e)) (snd (_at_exit fuel st)).
Proof.
  intros Hp. apply at_exit_forall; try quiet_call.
  - unfold closing_calls. quiet_calls.
  - unfold release_calls, guard. rewrite Hp.
    change (NULL =? NULL) with true. cbn [List.app].
    destruct (config_logdir (g_tags st) =? NULL),
      (config_logfile (g_tags st) =? NULL), (sigint (g_tags st) =? NULL),
      (exit_notifier (g_tags st) =? NULL); quiet_calls.
Qed.

(** A completed run of the hook makes the calls of [hook_calls]. *)
Lemma at_exit_hook_calls (fuel : nat) (st : state) :
  fst (fst (_at_exit fuel st)) = Ret tt ->
  incl hook_calls (map fst (snd (_at_exit fuel st))).
Proof.
  pose proof (at_exit_cases fuel st) as H. cbv zeta in H.
  destruct (_at_exit fuel st) as [[o st'] t]. cbn [fst snd]. intros ->.
  destruct H as (r1 & r2 & turns & _ & H).
  destruct H as [(? & _)|(s1 & td & _ & _ & _ & Htd & ->)]; [discriminate|].
  pose proof (teardown_cases s1) as Hc. cbv zeta in Hc. rewrite Htd in Hc.
  destruct Hc as (_ & t1 & Ht1 & [(t2 & ? & _)
                                 |(t2 & t3 & r & _ & -> & _ & _ & _ & Ht3 & _)]);
    [discriminate|].
  unfold event in *. cbn [map fst].
  rewrite !map_app. cbn [map fst]. rewrite !map_app, Ht1, Ht3.
  unfold closing_calls, release_calls, hook_calls.
  intros c Hc. cbn [In] in Hc. cbn [In]. rewrite !in_app_iff. cbn [In].
  rewrite !in_app_iff. cbn [In].
  cbn [map fst In].
  repeat (destruct Hc as [<-|Hc]; [pick|]). destruct Hc.
Qed.

End UsageFacts.

(** X9: a usage exit still goes through the whole shutdown.  When an
    argument ends the process, no subsystem has been initialised - there is
    no call of [lsp_log_init], [tag_lsp_io_init], [lsp_msg_init],
    [lsp_work_init] or [lsp_parser_create] in the run - and, the parser slot
    being still NULL, [lsp_parser_destroy] is never called; yet when the
    process exits the hook has cancelled the pending requests, called
    [lsp_method_cleanup] and the exit function of each subsystem, the two
    cleanup functions and [uv_library_shutdown]. *)
Theorem usage_exit_tears_down `{E : Externals} (fuel : nat) (argc : Z)
    (argv : list string) (s : Options.stop) (st : state) :
  Forall (fun a => no_nul a = true) argv ->
  Options.first_stop argv = Some s ->
  atexit_fns st = [] ->
  parser (g_tags st) = NULL ->
  let '(term, _, t) := process fuel argc argv st in
  Forall (fun e => init_call (fst e) = false) t /\
  (forall p r, ~ In (c_lsp_parser_destroy p, r) t) /\
  (term = Exited (status_of s) -> incl hook_calls (map fst t)).
Proof.
  intros Hwf Hstop Hfns Hparser.
  assert (Hquiet : forall t : list event,
             Forall (fun e => quiet (fst e)) t ->
             Forall (fun e => init_call (fst e) = false) t /\
             (forall p r, ~ In (c_lsp_parser_destroy p, r) t)).
  { intros t Ht. split.
    - revert Ht. apply Forall_impl. now intros e [He _].
    - intros p r Hin. rewrite Forall_forall in Ht.
      destruct (Ht _ Hin) as [_ Hne]. now apply (Hne p). }
  rewrite (process_run fuel argc argv st Hfns).
  pose proof (main_cases argc argv st Hwf) as H.
  destruct (main argc argv st) as [[o st1] t1].
  destruct H as (_ & l & h1 & h2 & t0 & [H|[H|H]]).
  - destruct H as (-> & _ & r & r' & _ & Ht0 & _ & ->).
    destruct (Hquiet (t0 ++ [(c_uv_loop_init l, r);
                             (c_fprintf_stderr
                                ("initialize main event loop failed." +++ LF),
                              r')])) as [H1 H2].
    { apply Forall_app. split.
      - apply (calls_forall quiet _ _ Ht0). quiet_calls.
      - quiet_calls. }
    split; [exact H1|]. split; [exact H2|discriminate].
  - destruct H as (-> & _ & r & r' & _ & Ht0 & _ & ->).
    destruct (Hquiet (t0 ++ [(c_uv_signal_init l h1, r);
                             (c_fprintf_stderr
                                ("initialize sigint failed." +++ LF), r')]))
      as [H1 H2].
    { apply Forall_app. split.
      - apply (calls_forall quiet _ _ Ht0). quiet_calls.
      - quiet_calls. }
    split; [exact H1|]. split; [exact H2|discriminate].
  - destruct H as (Ht0 & _ & _ & _ & s0 & op & s1 & tp & Hg0 & Hpar & Hall & H).
    rewrite Hstop in H. destruct H as (-> & -> & ->).
    pose proof (parser_logs_only argv s0) as Hk. rewrite Hpar in Hk.
    cbn [fst snd] in Hk. rewrite Hg0 in Hk.
    destruct Hk as (_ & _ & _ & Hp & _). cbn in Hp. rewrite Hparser in Hp.
    pose proof (at_exit_quiet fuel s1 Hp) as Hq.
    pose proof (at_exit_hook_calls fuel s1) as Hh.
    pose proof (at_exit_outcome fuel s1) as Ho. cbv zeta in Ho.
    destruct (_at_exit fuel s1) as [[o2 st2] t2]. cbn [fst snd] in Hq, Hh, Ho.
    destruct (Hquiet ((t0 ++ tp) ++ t2)) as [H1 H2].
    { apply Forall_app. split; [|exact Hq]. apply Forall_app. split.
      - apply (calls_forall quiet _ _ Ht0). quiet_calls.
      - now apply parsing_quiet. }
    split; [exact H1|]. split; [exact H2|]. intros Hterm.
    destruct (exited_hook o2 _ _ Ho Hterm) as [-> _].
    intros c Hc. rewrite map_app. apply in_or_app. right.
    now apply Hh.
Qed.

Lemma usage_exit_tears_down_witness :
  let argv := ["tags-lsp"; "--logfile=/tmp/l"; "-h"] in
  let run := process (E := Sim.sim_externals) 10 3 argv (Sim.start 0) in
  Forall (fun a => no_nul a = true) argv /\
  Options.first_stop argv = Some Options.StopHelp /\
  atexit_fns (Sim.start 0) = [] /\
  parser (g_tags (Sim.start 0)) = NULL /\
  fst (fst run) = Exited 0 /\
  incl hook_calls (map fst (snd run)).
Proof.
  cbv zeta.
  assert (Hwf : Forall (fun a => no_nul a = true)
                  ["tags-lsp"; "--logfile=/tmp/l"; "-h"])
    by (repeat constructor).
  split; [exact Hwf|]. split; [reflexivity|]. split; [reflexivity|].
  split; [reflexivity|].
  assert (Hterm : fst (fst (process (E := Sim.sim_externals) 10 3
                              ["tags-lsp"; "--logfile=/tmp/l"; "-h"]
                              (Sim.start 0))) = Exited 0)
    by (vm_compute; reflexivity).
  split; [exact Hterm|].
  pose proof (usage_exit_tears_down (E := Sim.sim_externals) 10 3
                ["tags-lsp"; "--logfile=/tmp/l"; "-h"] Options.StopHelp
                (Sim.start 0) Hwf eq_refl eq_refl eq_refl) as H.
  destruct (process 10 3 _ (Sim.start 0)) as [[term st'] t].
  exact (proj2 (proj2 H) Hterm).
Defined.


(** ** The shutdown flag before the exit hook *)

Section FlagFrame.

Context `{E : Externals}.

Lemma keeps_field_bind {A B C} (f : g_tags_t -> C) (m : M A) (k : A -> M B) :
  keeps_field f m -> (forall a, keeps_field f (k a)) ->
  keeps_field f (bind m k).
Proof.
  intros Hm Hk st. unfold bind. specialize (Hm st).
  destruct (m st) as [[[a| | | ] s1] t1]; cbn in *; try assumption.
  specialize (Hk a s1). destruct (k a s1) as [[o s2] t2]. cbn in *.
  congruence.
Qed.

Lemma keeps_field_ext {C} (f : g_tags_t -> C) (c : call) :
  keeps_field f (ext c).
Proof. intros st. unfold ext. now destruct (respond c (env st)). Qed.



End FlagFrame.



(** ** The log options *)

Ltac fields :=
  repeat first
    [ apply keeps_field_bind; [|intros ?]
    | apply keeps_field_ext
    | match goal with
      | |- keeps_field _ (when ?b _) => unfold when; destruct b
      | |- keeps_field _ (if ?b then _ else _) => destruct b
      | |- keeps_field _ (let (_, _) := ?x in _) => destruct x
      end
    | (intros ?; reflexivity) ].

Section LogOptionFacts.

Import Options.

Context `{E : Externals}.

Lemma parse_options_app (l1 l2 : list string) :
  forall io_cfg ret st,
    parse_options (l1 ++ l2) io_cfg ret st =
    bind (parse_options l1 io_cfg ret)
         (fun r => parse_options l2 (fst r) (snd r)) st.
Proof.
  induction l1 as [|a l1 IH]; intros io_cfg ret st.
  - cbn [List.app parse_options]. now rewrite bind_pure.
  - cbn [List.app parse_options]. unfold bind.
    destruct (parse_option a io_cfg ret st) as [[[r| | | ] s] t];
      try reflexivity.
    rewrite IH. unfold bind.
    destruct (parse_options l1 (fst r) (snd r) s) as [[[r1| | | ] s1] t1];
      try reflexivity.
    destruct (parse_options l2 (fst r1) (snd r1) s1) as [[o2 s2] t2].
    now rewrite List.app_assoc.
Qed.

Lemma other_option_keeps_logdir (b : string) (io_cfg : tag_lsp_io_cfg_t)
    (ret : Z) :
  no_nul b = true -> has_prefix "--logdir=" b = false ->
  keeps_field config_logdir (parse_option b io_cfg ret).
Proof.
  intros Hb Hpre. rewrite (parse_option_tests b io_cfg ret Hb), Hpre.
  cbv zeta. fields.
Qed.

Lemma other_option_keeps_logfile (b : string) (io_cfg : tag_lsp_io_cfg_t)
    (ret : Z) :
  no_nul b = true -> has_prefix "--logfile=" b = false ->
  keeps_field config_logfile (parse_option b io_cfg ret).
Proof.
  intros Hb Hpre. rewrite (parse_option_tests b io_cfg ret Hb), Hpre.
  cbv zeta. fields.
Qed.

Lemma other_options_keep {C} (f : g_tags_t -> C) (prefix : string)
    (l : list string) :
  (forall b io_cfg ret,
      no_nul b = true -> has_prefix prefix b = false ->
      keeps_field f (parse_option b io_cfg ret)) ->
  Forall (fun b => no_nul b = true) l ->
  Forall (fun b => has_prefix prefix b = false) l ->
  forall io_cfg ret, keeps_field f (parse_options l io_cfg ret).
Proof.
  intros Hstep Hwf Hpre. induction l as [|b l IH]; intros io_cfg ret.
  - now intros st.
  - cbn [parse_options]. inversion Hwf; inversion Hpre; subst.
    apply keeps_field_bind; [now apply Hstep|]. intros r. now apply IH.
Qed.

Lemma logdir_step (path : string) (io_cfg : tag_lsp_io_cfg_t) (ret : Z)
    (st : state) :
  no_nul path = true ->
  exists st' t0 r,
    parse_option ("--logdir=" +++ path) io_cfg ret st =
    (Ret (io_cfg, ret), st', t0 ++ [(c_lsp_strdup path, r)]) /\
    config_logdir (g_tags st') = r.
Proof.
  intros Hp.
  rewrite parse_option_tests
    by (change ("--logdir=" +++ path) with
          (String "-" (String "-" (String "l" (String "o" (String "g"
             (String "d" (String "i" (String "r" (String "=" path)))))))));
        cbn [no_nul]; now rewrite Hp).
  change (is_help ("--logdir=" +++ path)) with false.
  change (String.eqb ("--logdir=" +++ path) "--stdio") with false.
  change (has_prefix "--pipe=" ("--logdir=" +++ path)) with false.
  change (has_prefix "--port=" ("--logdir=" +++ path)) with false.
  change (has_prefix "--logdir=" ("--logdir=" +++ path)) with true.
  change (advance ("--logdir=" +++ path) 9) with path. cbv iota.
  exec. destruct (config_logdir (g_tags st) =? NULL); cbn [negb];
    rewrite bind_when; exec.
  - eexists. exists []. eexists. split; reflexivity.
  - match goal with
    | |- context [(c_free ?p, ?x)] =>
        eexists; exists [(c_free p, x)]; eexists; split; reflexivity
    end.
Qed.

Lemma logfile_step (path : string) (io_cfg : tag_lsp_io_cfg_t) (ret : Z)
    (st : state) :
  no_nul path = true ->
  exists st' t0 r,
    parse_option ("--logfile=" +++ path) io_cfg ret st =
    (Ret (io_cfg, ret), st', t0 ++ [(c_lsp_strdup path, r)]) /\
    config_logfile (g_tags st') = r.
Proof.
  intros Hp.
  rewrite parse_option_tests
    by (change ("--logfile=" +++ path) with
          (String "-" (String "-" (String "l" (String "o" (String "g"
             (String "f" (String "i" (String "l" (String "e"
                (String "=" path))))))))));
        cbn [no_nul]; now rewrite Hp).
  change (is_help ("--logfile=" +++ path)) with false.
  change (String.eqb ("--logfile=" +++ path) "--stdio") with false.
  change (has_prefix "--pipe=" ("--logfile=" +++ path)) with false.
  change (has_prefix "--port=" ("--logfile=" +++ path)) with false.
  change (has_prefix "--logdir=" ("--logfile=" +++ path)) with false.
  change (has_prefix "--logfile=" ("--logfile=" +++ path)) with true.
  change (advance ("--logfile=" +++ path) 10) with path. cbv iota.
  exec. destruct (config_logfile (g_tags st) =? NULL); cbn [negb];
    rewrite bind_when; exec.
  - eexists. exists []. eexists. split; reflexivity.
  - match goal with
    | |- context [(c_lsp_free ?p, ?x)] =>
        eexists; exists [(c_lsp_free p, x)]; eexists; split; reflexivity
    end.
Qed.

(** The slot [f] after a vector in which the last option that writes it is
    [a], whose value is [path]. *)
Lemma last_option_kept {C} (f : g_tags_t -> C) (answer : Z -> C)
    (a path : string) (before after : list string) (st : state) :
  (forall io_cfg ret st,
      exists st' t0 r,
        parse_option a io_cfg ret st =
        (Ret (io_cfg, ret), st', t0 ++ [(c_lsp_strdup path, r)]) /\
        f (g_tags st') = answer r) ->
  (forall io_cfg ret, keeps_field f (parse_options after io_cfg ret)) ->
  Forall (fun b => no_nul b = true) before ->
  Forall (fun b => no_nul b = true) after ->
  first_stop before = None -> first_stop after = None ->
  let '(o, st', t) :=
    _parser_command_line_options (before ++ a :: after) st in
  exists cfg t1 r t2,
    o = Ret cfg /\ t = t1 ++ (c_lsp_strdup path, r) :: t2 /\
    f (g_tags st') = answer r.
Proof.
  intros Hstep Hkeep Hwf1 Hwf2 Hgo1 Hgo2.
  unfold _parser_command_line_options. cbv zeta. unfold bind at 1.
  rewrite parse_options_app. unfold bind at 1.
  match goal with
  | |- context [parse_options before ?c ?z st] =>
      pose proof (parse_options_run before Hwf1 c z st Stdio eq_refl) as H1;
        destruct (parse_options before c z st) as [[o1 s1] t1]
  end.
  rewrite Hgo1 in H1. destruct H1 as (_ & _ & cfg1 & ret1 & -> & Ht1 & _).
  cbn [parse_options fst snd]. unfold bind at 1.
  destruct (Hstep cfg1 ret1 s1) as (s2 & t0 & r & -> & Hr).
  cbn [fst snd].
  match goal with
  | |- context [parse_options after ?c ?z s2] =>
      pose proof (Hkeep c z s2) as Hk;
        pose proof (parse_options_run after Hwf2 c z s2 _ Ht1) as H2;
        destruct (parse_options after c z s2) as [[o3 s3] t3]
  end.
  rewrite Hgo2 in H2. destruct H2 as (_ & _ & cfg3 & ret3 & -> & _).
  cbn [fst snd] in Hk. cbn.
  exists cfg3, (t1 ++ t0), r, t3. split; [reflexivity|]. split.
  - now rewrite List.app_nil_r, <- !List.app_assoc.
  - now rewrite Hk.
Qed.

End LogOptionFacts.

(** X11: of the log options the last of each kind is kept, and the two
    kinds do not touch each other.  After a vector without stopping
    argument whose last [--logdir=] argument has the value [path],
    [config.logdir] is the answer of an [lsp_strdup] of [path] - whatever
    [--logfile=] arguments and other options follow it; and likewise for
    [--logfile=] and [config.logfile]. *)
Theorem last_log_option_wins `{E : Externals} (before after : list string)
    (path : string) (st : state) :
  Forall (fun b => no_nul b = true) before ->
  Forall (fun b => no_nul b = true) after ->
  no_nul path = true ->
  Options.first_stop before = None ->
  Options.first_stop after = None ->
  (Forall (fun b => Options.has_prefix "--logdir=" b = false) after ->
   let '(o, st', t) :=
     _parser_command_line_options
       (before ++ ("--logdir=" +++ path) :: after) st in
   exists cfg t1 r t2,
     o = Ret cfg /\ t = t1 ++ (c_lsp_strdup path, r) :: t2 /\
     config_logdir (g_tags st') = r) /\
  (Forall (fun b => Options.has_prefix "--logfile=" b = false) after ->
   let '(o, st', t) :=
     _parser_command_line_options
       (before ++ ("--logfile=" +++ path) :: after) st in
   exists cfg t1 r t2,
     o = Ret cfg /\ t = t1 ++ (c_lsp_strdup path, r) :: t2 /\
     config_logfile (g_tags st') = r).
Proof.
  intros Hwf1 Hwf2 Hp Hgo1 Hgo2. split; intros Hlast.
  - apply (last_option_kept config_logdir (fun r => r)); try assumption.
    + intros io_cfg ret s. now apply logdir_step.
    + apply (other_options_keep config_logdir "--logdir="); try assumption.
      intros b io_cfg ret. apply other_option_keeps_logdir.
  - apply (last_option_kept config_logfile (fun r => r)); try assumption.
    + intros io_cfg ret s. now apply logfile_step.
    + apply (other_options_keep config_logfile "--logfile="); try assumption.
      intros b io_cfg ret. apply other_option_keeps_logfile.
Qed.

Lemma last_log_option_wins_witness :
  let before := ["tags-lsp"; "--logdir=/old"] in
  let after := ["--logfile=/f"; "--port=7"] in
  Forall (fun b => no_nul b = true) before /\
  Forall (fun b => no_nul b = true) after /\
  no_nul "/new" = true /\
  Options.first_stop before = None /\
  Options.first_stop after = None /\
  Forall (fun b => Options.has_prefix "--logdir=" b = false) after /\
  let '(o, st', t) :=
    _parser_command_line_options (E := Sim.sim_externals)
      (before ++ "--logdir=/new" :: after) (Sim.start 0) in
  exists cfg t1 r t2,
    o = Ret cfg /\ t = t1 ++ (c_lsp_strdup "/new", r) :: t2 /\
    config_logdir (g_tags st') = r.
Proof.
  cbv zeta.
  assert (Hwf1 : Forall (fun b => no_nul b = true)
                   ["tags-lsp"; "--logdir=/old"]) by (repeat constructor).
  assert (Hwf2 : Forall (fun b => no_nul b = true)
                   ["--logfile=/f"; "--port=7"]) by (repeat constructor).
  assert (Hlast : Forall (fun b => Options.has_prefix "--logdir=" b = false)
                    ["--logfile=/f"; "--port=7"]) by (repeat constructor).
  split; [exact Hwf1|]. split; [exact Hwf2|]. split; [reflexivity|].
  split; [reflexivity|]. split; [reflexivity|]. split; [exact Hlast|].
  exact (proj1 (last_log_option_wins (E := Sim.sim_externals)
                  ["tags-lsp"; "--logdir=/old"] ["--logfile=/f"; "--port=7"]
                  "/new" (Sim.start 0) Hwf1 Hwf2 eq_refl eq_refl eq_refl)
           Hlast).
Defined.
